(** * SEEP: Socket Extensible Encryption Protocol

    A shallow embedding of the Go package [seep]: the encrypted stream
    ([Reader], [Writer]), the handshake orchestration of [Connection],
    and the net/rpc codec bridge ([rpcClientCodec], [rpcServerCodec] with
    their XDR and gob bindings).

    The noise handshake engine, the cipher states it yields, and the two
    payload serializers are external libraries.  They appear here as
    interfaces (type classes and records of operations); every statement
    about them is made for an arbitrary implementation, and small concrete
    implementations are provided to evaluate the code on explicit inputs. *)

From Stdlib Require Import ZArith List Lia Bool Arith PeanoNat.
From Stdlib Require String.
Import ListNotations.

Local Open Scope Z_scope.

(** ** Go values shared by the whole package *)

Definition bytes := list Byte.byte.

(** Go [error] values.  [io_EOF] is [io.EOF]; the other errors originate in
    the external components and are distinguished by an opaque code. *)
Inductive error : Type :=
| io_EOF
| ErrTransport (code : nat)
| ErrDecrypt (code : nat)
| ErrHandshake (code : nat)
| ErrSerialize (code : nat).

(** Run-time panics the package can raise. *)
Inductive panic : Type :=
| NilDereference
| DivideByZero
| SliceBounds.

Inductive outcome (A : Type) : Type :=
| Returns (a : A)
| Panics (p : panic).
Arguments Returns {A} a.
Arguments Panics {A} p.

(** Go's [int] on the 64-bit platforms: two's complement wrap-around. *)
Definition int_wrap (z : Z) : Z := (z + 2 ^ 63) mod 2 ^ 64 - 2 ^ 63.

(** ** bytes.Buffer

    A buffer is represented by its unread portion. *)
Module Buffer.

Definition t := bytes.

Definition empty : t := [].

Definition Len (b : t) : Z := Z.of_nat (length b).

(** [Write] appends and never fails. *)
Definition Write (b : t) (p : bytes) : t := b ++ p.

(** [Next n] returns the next [n] unread bytes (all of them when fewer
    remain) and advances; a negative [n] is a slice-bounds panic. *)
Definition Next (b : t) (n : Z) : outcome (bytes * t) :=
  if n <? 0 then Panics SliceBounds
  else Returns (firstn (Z.to_nat n) b, skipn (Z.to_nat n) b).

(** [Read p] with [len(p) = k]: copies up to [k] bytes; on an empty
    buffer the error is [io.EOF] unless [k] is zero. *)
Definition Read (b : t) (k : nat) : t * (bytes * option error) :=
  match b with
  | [] => match k with
          | O => ([], ([], None))
          | S _ => ([], ([], Some io_EOF))
          end
  | _ :: _ => (skipn k b, (firstn k b, None))
  end.

(** [dst.ReadFrom(src)] drains the buffer [src] into [dst]. *)
Definition ReadFrom (dst src : t) : t * t := (dst ++ src, []).

End Buffer.

(** ** Frame transport: xdr.Encoder / xdr.Decoder used for opaque frames

    The outbound direction records the frames put on the wire; the
    underlying writer accepts [quota] more frames and fails afterwards.
    The inbound direction is the sequence of frames still to arrive; past
    the last one the decoder reports an I/O error. *)
Record Encoder : Type := mkEncoder { sent : list bytes; quota : nat }.

Definition Decoder := list bytes.

Definition EncodeOpaque (dst : Encoder) (v : bytes) : Encoder * option error :=
  match quota dst with
  | O => (dst, Some (ErrTransport 1))
  | S q => ({| sent := sent dst ++ [v]; quota := q |}, None)
  end.

Definition DecodeOpaque (src : Decoder) : Decoder * (bytes * option error) :=
  match src with
  | [] => ([], ([], Some (ErrTransport 0)))
  | f :: rest => (rest, (f, None))
  end.

(** ** Per-round chunk size (Connection.Handshake, the lines before the loop)

    [initiator] is [nc.Initiator], [nmsgs] is [len(nc.Pattern.Messages)]
    and [l] is [c.outbuf.Len()]. *)
Definition chunk_size (initiator : bool) (nmsgs l : Z) : outcome Z :=
  if l >? 0x1000 then
    let nm := nmsgs in
    let nm := if initiator then int_wrap (nm + 1) else nm in
    let nm := Z.quot nm 2 in
    let l2 := int_wrap (nm * 0x1000) in
    if l2 <? l then
      if nm =? 0 then Panics DivideByZero
      else Returns (int_wrap (int_wrap (Z.quot l nm) + 1))
    else Returns 0x1000
  else Returns l.

(** The number of handshake messages a side sends in a pattern of [nmsgs]
    messages: the initiator sends the messages of even index. *)
Definition sends (initiator : bool) (nmsgs : Z) : Z :=
  if initiator then (nmsgs + 1) / 2 else nmsgs / 2.

(** Ceiling of the quotient, for positive divisors. *)
Definition ceil_div (a b : Z) : Z := (a + b - 1) / b.

(** ** External interfaces *)

(** noise.CipherState: both operations advance the nonce held in the
    state.  [Decrypt] returns its two Go results. *)
Class Cipher (CS : Type) : Type := {
  Encrypt : CS -> bytes -> CS * bytes;
  Decrypt : CS -> bytes -> CS * (bytes * option error)
}.

(** noise.Config, reduced to the fields the package reads. *)
Inductive MessagePattern : Type :=
| Token_e | Token_s | Token_dhee | Token_dhes | Token_dhse | Token_dhss.

Record HandshakePattern : Type := {
  Name : String.string;
  Messages : list (list MessagePattern)
}.

Record Config : Type := {
  Pattern : HandshakePattern;
  Initiator : bool
}.

(** noise.HandshakeState.  The results are the Go result tuples, in the
    order the library returns them.  The calls are taken to return: a
    panic raised inside the library is outside this interface, and the
    theorems below either assume a run that returns or a contract of the
    engine. *)
Class Engine (HS CS : Type) : Type := {
  NewHandshakeState : Config -> HS;
  WriteMessage : HS -> bytes -> HS * (bytes * option CS * option CS);
  ReadMessage : HS -> bytes -> HS * (bytes * option CS * option CS * option error)
}.

(** Outcome of one half of a handshake loop iteration. *)
Inductive step_result (S : Type) : Type :=
| Break (s : S)
| Continue (s : S)
| Fail (s : S) (e : error)
| StepPanics (p : panic).
Arguments Break {S} s.
Arguments Continue {S} s.
Arguments Fail {S} s e.
Arguments StepPanics {S} p.

(** How a handshake loop ends, with the part of the inbound direction
    that was not consumed. *)
Inductive loop_end (S : Type) : Type :=
| Finished (src : Decoder) (s : S)
| Failed (src : Decoder) (s : S) (e : error)
| LoopPanics (p : panic).
Arguments Finished {S} src s.
Arguments Failed {S} src s e.
Arguments LoopPanics {S} p.

(** ** EncryptedStream: Reader and Writer

    The mutex [lck] only serialises callers and has no sequential
    content; it is not represented.  [dec] and [enc] are pointers and may
    be nil. *)
Section Stream.

Context {CS : Type} `{Cipher CS}.

Record Reader : Type := mkReader {
  r_src : Decoder;
  r_dec : option CS;
  r_buf : Buffer.t
}.

Record Writer : Type := mkWriter {
  w_dst : Encoder;
  w_enc : option CS
}.

Definition NewReader (src : Decoder) (dec : option CS) : Reader :=
  {| r_src := src; r_dec := dec; r_buf := Buffer.empty |}.

Definition NewWriter (dst : Encoder) (enc : option CS) : Writer :=
  {| w_dst := dst; w_enc := enc |}.

(** [Reader.Read(p)] with [len(p) = k]; the result is the updated reader
    with the bytes copied into [p] (so [n] is their number) and [err]. *)
Definition Reader_Read (r : Reader) (k : nat)
  : outcome (Reader * (bytes * option error)) :=
  let serve (r : Reader) :=
    let '(b, res) := Buffer.Read (r_buf r) k in
    Returns ({| r_src := r_src r; r_dec := r_dec r; r_buf := b |}, res) in
  if Buffer.Len (r_buf r) =? 0 then
    let '(src, (buf, e)) := DecodeOpaque (r_src r) in
    match e with
    | Some e =>
        Returns ({| r_src := src; r_dec := r_dec r; r_buf := r_buf r |},
                 ([], Some e))
    | None =>
        match r_dec r with
        | None => Panics NilDereference
        | Some d =>
            let '(d, (buf, e)) := Decrypt d buf in
            match e with
            | Some e =>
                Returns ({| r_src := src; r_dec := Some d; r_buf := r_buf r |},
                         ([], Some e))
            | None =>
                serve {| r_src := src; r_dec := Some d;
                         r_buf := Buffer.Write (r_buf r) buf |}
            end
        end
    end
  else serve r.

(** [Writer.Write(p)]; the result is the updated writer with [(n, err)]. *)
Definition Writer_Write (w : Writer) (p : bytes)
  : outcome (Writer * (Z * option error)) :=
  match w_enc w with
  | None => Panics NilDereference
  | Some c =>
      let '(c, buf) := Encrypt c p in
      let '(dst, e) := EncodeOpaque (w_dst w) buf in
      match e with
      | Some e => Returns ({| w_dst := dst; w_enc := Some c |}, (0, Some e))
      | None =>
          Returns ({| w_dst := dst; w_enc := Some c |},
                   (Z.of_nat (length p), None))
      end
  end.

(** A sequence of writes, stopping at the first panic; the results of
    the individual calls are collected. *)
Fixpoint write_all (w : Writer) (ps : list bytes)
  : outcome (Writer * list (Z * option error)) :=
  match ps with
  | [] => Returns (w, [])
  | p :: ps =>
      match Writer_Write w p with
      | Panics x => Panics x
      | Returns (w, res) =>
          match write_all w ps with
          | Panics x => Panics x
          | Returns (w, rs) => Returns (w, res :: rs)
          end
      end
  end.

(** A sequence of reads with destination sizes [ks]; the bytes delivered
    by the calls are concatenated, whatever error a call reports. *)
Fixpoint read_seq (r : Reader) (ks : list nat) : outcome (Reader * bytes) :=
  match ks with
  | [] => Returns (r, [])
  | k :: ks =>
      match Reader_Read r k with
      | Panics x => Panics x
      | Returns (r, (got, _)) =>
          match read_seq r ks with
          | Panics x => Panics x
          | Returns (r, more) => Returns (r, got ++ more)
          end
      end
  end.

(** The frames [Writer.Write] puts on the wire for the plaintexts [ps],
    starting from the cipher state [e], with the state reached. *)
Fixpoint seal (e : CS) (ps : list bytes) : CS * list bytes :=
  match ps with
  | [] => (e, [])
  | p :: ps =>
      let '(e, c) := Encrypt e p in
      let '(e, cs) := seal e ps in
      (e, c :: cs)
  end.

(** Unread bytes and frames still ahead of a reader. *)
Definition ahead (b : bytes) (ps : list bytes) : nat :=
  (length b + length (concat ps) + length ps)%nat.

(** Reader states reachable from [r0] by calls of [Read]. *)
Inductive reads_to (r0 : Reader) : Reader -> Prop :=
| reads_none : reads_to r0 r0
| reads_more (r r' : Reader) (k : nat) (res : bytes * option error) :
    reads_to r0 r -> Reader_Read r k = Returns (r', res) -> reads_to r0 r'.

(** [b] is an unread rest of [whole]. *)
Definition rest_of (b whole : bytes) : Prop :=
  exists served : bytes, whole = served ++ b.

(** What the carry-over buffer of [r] may hold when the reader started
    as [r0]: nothing; or, no frame having been received since [r0], an
    unread rest of the buffer [r0] started with; or an unread rest of
    the plaintext of the one frame received last. *)
Definition carry_over_ok (r0 r : Reader) : Prop :=
  r_buf r = [] \/
  (r_src r = r_src r0 /\ r_dec r = r_dec r0 /\ rest_of (r_buf r) (r_buf r0)) \/
  (exists (earlier : list bytes) (f : bytes) (d d' : CS) (pt : bytes),
      r_src r0 = earlier ++ f :: r_src r /\
      Decrypt d f = (d', (pt, None)) /\
      r_dec r = Some d' /\
      rest_of (r_buf r) pt).

End Stream.

Arguments Reader CS : clear implicits.
Arguments Writer CS : clear implicits.

(** ** SecureChannel: Connection

    [Connection] embeds an [io.Writer] and an [io.Reader].  After [Init]
    they are the two staging buffers themselves (the same objects as
    [outbuf] and [inbuf]); after a successful [Handshake] they are the
    encrypted stream pair. *)
Section SecureChannel.

Context {HS CS : Type} `{Cipher CS} `{Engine HS CS}.

Inductive conn_writer : Type :=
| Writer_nil
| Writer_outbuf
| Writer_stream (w : Writer CS).

Inductive conn_reader : Type :=
| Reader_nil
| Reader_inbuf
| Reader_stream (r : Reader CS).

Record Connection : Type := mkConnection {
  c_Writer : conn_writer;
  c_Reader : conn_reader;
  outbuf : option Buffer.t;
  inbuf : option Buffer.t
}.

(** [new(seep.Connection)] *)
Definition new_Connection : Connection :=
  {| c_Writer := Writer_nil; c_Reader := Reader_nil;
     outbuf := None; inbuf := None |}.

Definition Connection_Init (c : Connection) : Connection :=
  {| c_Writer := Writer_outbuf; c_Reader := Reader_inbuf;
     outbuf := Some Buffer.empty; inbuf := Some Buffer.empty |}.

(** [c.Write(p)], promoted from the embedded [io.Writer]. *)
Definition Connection_Write (c : Connection) (p : bytes)
  : outcome (Connection * (Z * option error)) :=
  match c_Writer c with
  | Writer_nil => Panics NilDereference
  | Writer_outbuf =>
      match outbuf c with
      | None => Panics NilDereference
      | Some b =>
          Returns ({| c_Writer := c_Writer c; c_Reader := c_Reader c;
                      outbuf := Some (Buffer.Write b p); inbuf := inbuf c |},
                   (Z.of_nat (length p), None))
      end
  | Writer_stream w =>
      match Writer_Write w p with
      | Panics x => Panics x
      | Returns (w, res) =>
          Returns ({| c_Writer := Writer_stream w; c_Reader := c_Reader c;
                      outbuf := outbuf c; inbuf := inbuf c |}, res)
      end
  end.

(** [c.Read(p)] with [len(p) = k], promoted from the embedded [io.Reader]. *)
Definition Connection_Read (c : Connection) (k : nat)
  : outcome (Connection * (bytes * option error)) :=
  match c_Reader c with
  | Reader_nil => Panics NilDereference
  | Reader_inbuf =>
      match inbuf c with
      | None => Panics NilDereference
      | Some b =>
          let '(b, res) := Buffer.Read b k in
          Returns ({| c_Writer := c_Writer c; c_Reader := c_Reader c;
                      outbuf := outbuf c; inbuf := Some b |}, res)
      end
  | Reader_stream r =>
      match Reader_Read r k with
      | Panics x => Panics x
      | Returns (r, res) =>
          Returns ({| c_Writer := c_Writer c; c_Reader := Reader_stream r;
                      outbuf := outbuf c; inbuf := inbuf c |}, res)
      end
  end.

(** A sequence of calls of [c.Write], stopping at the first panic, with
    the results of the calls. *)
Fixpoint Connection_write_all (c : Connection) (ps : list bytes)
  : outcome (Connection * list (Z * option error)) :=
  match ps with
  | [] => Returns (c, [])
  | p :: ps =>
      match Connection_Write c p with
      | Panics x => Panics x
      | Returns (c, res) =>
          match Connection_write_all c ps with
          | Panics x => Panics x
          | Returns (c, rs) => Returns (c, res :: rs)
          end
      end
  end.

(** A sequence of calls of [c.Read] with destination sizes [ks]; the
    bytes delivered are concatenated, whatever error a call reports. *)
Fixpoint Connection_read_seq (c : Connection) (ks : list nat)
  : outcome (Connection * bytes) :=
  match ks with
  | [] => Returns (c, [])
  | k :: ks =>
      match Connection_Read c k with
      | Panics x => Panics x
      | Returns (c, (got, _)) =>
          match Connection_read_seq c ks with
          | Panics x => Panics x
          | Returns (c, more) => Returns (c, got ++ more)
          end
      end
  end.

(** The variables live across the iterations of the handshake loop:
    the engine [hs], the two staging buffers, the outbound transport and
    the cipher states [o] and [i]. *)
Record hs_vars : Type := mkVars {
  v_hs : HS;
  v_outbuf : Buffer.t;
  v_inbuf : Buffer.t;
  v_dst : Encoder;
  v_o : option CS;
  v_i : option CS
}.

(** The [if state { ... }] half of the loop body, with chunk size [l]. *)
Definition conn_write_step (l : Z) (v : hs_vars) : step_result hs_vars :=
  match Buffer.Next (v_outbuf v) l with
  | Panics x => StepPanics x
  | Returns (buf, ob) =>
      let '(hs, (buf, o, i)) := WriteMessage (v_hs v) buf in
      let '(dst, e) := EncodeOpaque (v_dst v) buf in
      let v' := {| v_hs := hs; v_outbuf := ob; v_inbuf := v_inbuf v;
                   v_dst := dst; v_o := o; v_i := i |} in
      match e with
      | Some e => Fail v' e
      | None => match o with
                | Some _ => Break v'
                | None => Continue v'
                end
      end
  end.

(** The second half of the loop body, for a frame [f] obtained from
    [src.DecodeOpaque()]. *)
Definition conn_read_step (f : bytes) (v : hs_vars) : step_result hs_vars :=
  let '(hs, (buf, i, o, e)) := ReadMessage (v_hs v) f in
  match e with
  | Some e =>
      Fail {| v_hs := hs; v_outbuf := v_outbuf v; v_inbuf := v_inbuf v;
              v_dst := v_dst v; v_o := o; v_i := i |} e
  | None =>
      let v' := {| v_hs := hs; v_outbuf := v_outbuf v;
                   v_inbuf := Buffer.Write (v_inbuf v) buf;
                   v_dst := v_dst v; v_o := o; v_i := i |} in
      match o with
      | Some _ => Break v'
      | None => Continue v'
      end
  end.

(** The [for { ... }] loop.  Every iteration that does not leave the
    loop receives one frame, so the loop is defined by recursion on the
    frames still to arrive; [DecodeOpaque] is inlined as the match on
    [src] (see [DecodeOpaque] for the two cases). *)
Fixpoint conn_loop (l : Z) (src : Decoder) (state : bool) (v : hs_vars)
  : loop_end hs_vars :=
  match (if state then conn_write_step l v else Continue v) with
  | Break v => Finished src v
  | Fail v e => Failed src v e
  | StepPanics x => LoopPanics x
  | Continue v =>
      match src with
      | [] => Failed [] v (ErrTransport 0)
      | f :: rest =>
          match conn_read_step f v with
          | Break v => Finished rest v
          | Fail v e => Failed rest v e
          | StepPanics x => LoopPanics x
          | Continue v => conn_loop l rest true v
          end
      end
  end.

(** [by_write hs' a b] and [by_read hs' a b]: some call of the engine
    left it in [hs'] and returned the cipher states [a] and [b] in its
    first and second cipher position. *)
Definition by_write (hs' : HS) (a b : option CS) : Prop :=
  exists (hs : HS) (payload buf : bytes),
    WriteMessage hs payload = (hs', (buf, a, b)).

Definition by_read (hs' : HS) (a b : option CS) : Prop :=
  exists (hs : HS) (f buf : bytes),
    ReadMessage hs f = (hs', (buf, a, b, None)).

(** What [Handshake] leaves behind: the connection, the two transport
    directions as the caller sees them afterwards, and the returned
    error. *)
Record handshake_result : Type := mkResult {
  res_conn : Connection;
  res_src : Decoder;
  res_dst : Encoder;
  res_err : option error
}.

(** [c.Handshake(src, dst, nc)].  The staging buffers are reachable only
    through [Init], which sets both, so a connection with only one of
    them is treated like one with none.  [src] and [dst] are the
    transports the two pointer arguments refer to; a call with a nil
    pointer is outside this definition. *)
Definition Connection_Handshake (c : Connection) (src : Decoder)
    (dst : Encoder) (nc : Config) : outcome handshake_result :=
  match outbuf c, inbuf c with
  | Some ob, Some ib =>
      let state := Initiator nc in
      let l := Buffer.Len ob in
      match chunk_size state
              (Z.of_nat (length (Messages (Pattern nc)))) l with
      | Panics x => Panics x
      | Returns l =>
          let hs := NewHandshakeState nc in
          match conn_loop l src state
                  {| v_hs := hs; v_outbuf := ob; v_inbuf := ib;
                     v_dst := dst; v_o := None; v_i := None |} with
          | LoopPanics x => Panics x
          | Failed src v e =>
              Returns {| res_conn :=
                           {| c_Writer := c_Writer c; c_Reader := c_Reader c;
                              outbuf := Some (v_outbuf v);
                              inbuf := Some (v_inbuf v) |};
                         res_src := src; res_dst := v_dst v;
                         res_err := Some e |}
          | Finished src v =>
              let w := NewWriter (v_dst v) (v_o v) in
              let r := NewReader src (v_i v) in
              let '(rbuf, _) := Buffer.ReadFrom (r_buf r) (v_inbuf v) in
              let r := {| r_src := r_src r; r_dec := r_dec r;
                          r_buf := rbuf |} in
              Returns {| res_conn :=
                           {| c_Writer := Writer_stream w;
                              c_Reader := Reader_stream r;
                              outbuf := None; inbuf := None |};
                         res_src := src; res_dst := v_dst v;
                         res_err := None |}
          end
      end
  | _, _ => Panics NilDereference
  end.

End SecureChannel.

Arguments Connection CS : clear implicits.
Arguments conn_writer CS : clear implicits.
Arguments conn_reader CS : clear implicits.
Arguments hs_vars HS CS : clear implicits.
Arguments handshake_result CS : clear implicits.

(** ** Codec Bridge *)

(** net/rpc envelope headers. *)
Record Request : Type := mkRequest {
  ServiceMethod : String.string;
  Seq : Z
}.

Record Response : Type := mkResponse {
  Resp_ServiceMethod : String.string;
  Resp_Seq : Z;
  Resp_Error : String.string
}.

(** The body-decoding continuation [func(i interface{}) error].  The Go
    closure captures a decoder, which every call advances: a closure is
    its captured state with the code run on it, and calling it yields the
    closure to use next, the value decoded into the target and the
    error. *)
Record closure (Body : Type) : Type := mkClosure {
  captured : Type;
  capture : captured;
  code : captured -> Body -> captured * (Body * option error)
}.

Arguments mkClosure {Body captured} capture code.
Arguments captured {Body} c.
Arguments capture {Body} c.
Arguments code {Body} c _ _.

Definition call_closure {Body : Type} (f : closure Body) (i : Body)
  : closure Body * (Body * option error) :=
  let '(st, res) := code f (capture f) i in
  ({| capture := st; code := code f |}, res).

Section Codec.

Context {HS CS : Type} `{Cipher CS} `{Engine HS CS}.
Variable Body : Type.

(** The [sync.Mutex] and the [io.Closer] carry no sequential content
    and are not represented.  Every pointer and function field may be
    nil. *)
Record rpcClientCodec : Type := mkClientCodec {
  cc_src : option Decoder;
  cc_dst : option Encoder;
  cc_enc : option CS;
  cc_dec : option CS;
  cc_encode : option (Request -> Body -> bytes * option error);
  cc_decode : option (bytes -> Response ->
                      option error * Response * closure Body);
  cc_decode2 : option (closure Body)
}.

Record rpcServerCodec : Type := mkServerCodec {
  sc_src : option Decoder;
  sc_dst : option Encoder;
  sc_enc : option CS;
  sc_dec : option CS;
  sc_encode : option (Response -> Body -> bytes * option error);
  sc_decode : option (bytes -> Request ->
                      option error * Request * closure Body);
  sc_decode2 : option (closure Body)
}.

(** [new(rpcClientCodec)], [new(rpcServerCodec)] *)
Definition new_rpcClientCodec : rpcClientCodec :=
  mkClientCodec None None None None None None None.

Definition new_rpcServerCodec : rpcServerCodec :=
  mkServerCodec None None None None None None None.

Definition cc_set_ciphers (r : rpcClientCodec) (enc dec : option CS) :=
  mkClientCodec (cc_src r) (cc_dst r) enc dec
                (cc_encode r) (cc_decode r) (cc_decode2 r).

Definition sc_set_ciphers (r : rpcServerCodec) (enc dec : option CS) :=
  mkServerCodec (sc_src r) (sc_dst r) enc dec
                (sc_encode r) (sc_decode r) (sc_decode2 r).

Definition rpcClientCodec_WriteRequest (r : rpcClientCodec)
    (req : Request) (i : Body) : outcome (rpcClientCodec * option error) :=
  match cc_encode r with
  | None => Panics NilDereference
  | Some encode =>
      let '(buf, err) := encode req i in
      match err with
      | Some e => Returns (r, Some e)
      | None =>
          match cc_enc r with
          | None => Panics NilDereference
          | Some c =>
              let '(c, buf) := Encrypt c buf in
              match cc_dst r with
              | None => Panics NilDereference
              | Some dst =>
                  let '(dst, err) := EncodeOpaque dst buf in
                  Returns (mkClientCodec (cc_src r) (Some dst) (Some c)
                             (cc_dec r) (cc_encode r) (cc_decode r)
                             (cc_decode2 r), err)
              end
          end
      end
  end.

(** The result carries the header written through [resp]. *)
Definition rpcClientCodec_ReadResponseHeader (r : rpcClientCodec)
    (resp : Response)
  : outcome (rpcClientCodec * Response * option error) :=
  match cc_src r with
  | None => Panics NilDereference
  | Some src =>
      let '(src, (buf, err)) := DecodeOpaque src in
      let r1 := mkClientCodec (Some src) (cc_dst r) (cc_enc r) (cc_dec r)
                  (cc_encode r) (cc_decode r) (cc_decode2 r) in
      match err with
      | Some e => Returns (r1, resp, Some e)
      | None =>
          match cc_dec r with
          | None => Panics NilDereference
          | Some d =>
              let '(d, (buf, err)) := Decrypt d buf in
              let r2 := mkClientCodec (Some src) (cc_dst r) (cc_enc r)
                          (Some d) (cc_encode r) (cc_decode r)
                          (cc_decode2 r) in
              match err with
              | Some e => Returns (r2, resp, Some e)
              | None =>
                  match cc_decode r with
                  | None => Panics NilDereference
                  | Some decode =>
                      let '(err, resp', dc2) := decode buf resp in
                      match err with
                      | Some e => Returns (r2, resp', Some e)
                      | None =>
                          Returns (mkClientCodec (Some src) (cc_dst r)
                                     (cc_enc r) (Some d) (cc_encode r)
                                     (cc_decode r) (Some dc2), resp', None)
                      end
                  end
              end
          end
      end
  end.

(** The result carries the value decoded into the target [i]. *)
Definition rpcClientCodec_ReadResponseBody (r : rpcClientCodec) (i : Body)
  : outcome (rpcClientCodec * Body * option error) :=
  match cc_decode2 r with
  | None => Panics NilDereference
  | Some f =>
      let '(f, (i, err)) := call_closure f i in
      Returns (mkClientCodec (cc_src r) (cc_dst r) (cc_enc r) (cc_dec r)
                 (cc_encode r) (cc_decode r) (Some f), i, err)
  end.

(** The two halves of the client handshake loop body. *)
Definition client_write_step (v : HS * Encoder * rpcClientCodec)
  : step_result (HS * Encoder * rpcClientCodec) :=
  let '(hs, dst, r) := v in
  let '(hs, (buf, enc, dec)) := WriteMessage hs [] in
  let r := cc_set_ciphers r enc dec in
  let '(dst, e) := EncodeOpaque dst buf in
  match e with
  | Some e => Fail (hs, dst, r) e
  | None => match cc_enc r with
            | Some _ => Break (hs, dst, r)
            | None => Continue (hs, dst, r)
            end
  end.

Definition client_read_step (f : bytes) (v : HS * Encoder * rpcClientCodec)
  : step_result (HS * Encoder * rpcClientCodec) :=
  let '(hs, dst, r) := v in
  let '(hs, (_, enc, dec, e)) := ReadMessage hs f in
  let r := cc_set_ciphers r enc dec in
  match e with
  | Some e => Fail (hs, dst, r) e
  | None => match cc_enc r with
            | Some _ => Break (hs, dst, r)
            | None => Continue (hs, dst, r)
            end
  end.

Fixpoint client_loop (src : Decoder) (state : bool)
    (v : HS * Encoder * rpcClientCodec)
  : loop_end (HS * Encoder * rpcClientCodec) :=
  match (if state then client_write_step v else Continue v) with
  | Break v => Finished src v
  | Fail v e => Failed src v e
  | StepPanics x => LoopPanics x
  | Continue v =>
      match src with
      | [] => Failed [] v (ErrTransport 0)
      | f :: rest =>
          match client_read_step f v with
          | Break v => Finished rest v
          | Fail v e => Failed rest v e
          | StepPanics x => LoopPanics x
          | Continue v => client_loop rest true v
          end
      end
  end.

(** [r.handshake(src, dst, nc)]: the codec afterwards, what is left of
    the two transport directions, and the returned error.  As for
    [Connection.Handshake], [src] and [dst] are the transports the
    pointer arguments refer to; the same holds for the server codec. *)
Definition rpcClientCodec_handshake (r : rpcClientCodec) (src : Decoder)
    (dst : Encoder) (nc : Config)
  : outcome (rpcClientCodec * Decoder * Encoder * option error) :=
  let state := Initiator nc in
  let hs := NewHandshakeState nc in
  match client_loop src state (hs, dst, r) with
  | Finished src (_, dst, r) => Returns (r, src, dst, None)
  | Failed src (_, dst, r) e => Returns (r, src, dst, Some e)
  | LoopPanics x => Panics x
  end.

Definition rpcServerCodec_WriteResponse (r : rpcServerCodec)
    (resp : Response) (i : Body) : outcome (rpcServerCodec * option error) :=
  match sc_encode r with
  | None => Panics NilDereference
  | Some encode =>
      let '(buf, err) := encode resp i in
      match err with
      | Some e => Returns (r, Some e)
      | None =>
          match sc_enc r with
          | None => Panics NilDereference
          | Some c =>
              let '(c, buf) := Encrypt c buf in
              match sc_dst r with
              | None => Panics NilDereference
              | Some dst =>
                  let '(dst, err) := EncodeOpaque dst buf in
                  Returns (mkServerCodec (sc_src r) (Some dst) (Some c)
                             (sc_dec r) (sc_encode r) (sc_decode r)
                             (sc_decode2 r), err)
              end
          end
      end
  end.

Definition rpcServerCodec_ReadRequestHeader (r : rpcServerCodec)
    (req : Request)
  : outcome (rpcServerCodec * Request * option error) :=
  match sc_src r with
  | None => Panics NilDereference
  | Some src =>
      let '(src, (buf, err)) := DecodeOpaque src in
      let r1 := mkServerCodec (Some src) (sc_dst r) (sc_enc r) (sc_dec r)
                  (sc_encode r) (sc_decode r) (sc_decode2 r) in
      match err with
      | Some e => Returns (r1, req, Some e)
      | None =>
          match sc_dec r with
          | None => Panics NilDereference
          | Some d =>
              let '(d, (buf, err)) := Decrypt d buf in
              let r2 := mkServerCodec (Some src) (sc_dst r) (sc_enc r)
                          (Some d) (sc_encode r) (sc_decode r)
                          (sc_decode2 r) in
              match err with
              | Some e => Returns (r2, req, Some e)
              | None =>
                  match sc_decode r with
                  | None => Panics NilDereference
                  | Some decode =>
                      let '(err, req', dc2) := decode buf req in
                      match err with
                      | Some e => Returns (r2, req', Some e)
                      | None =>
                          Returns (mkServerCodec (Some src) (sc_dst r)
                                     (sc_enc r) (Some d) (sc_encode r)
                                     (sc_decode r) (Some dc2), req', None)
                      end
                  end
              end
          end
      end
  end.

Definition rpcServerCodec_ReadRequestBody (r : rpcServerCodec) (i : Body)
  : outcome (rpcServerCodec * Body * option error) :=
  match sc_decode2 r with
  | None => Panics NilDereference
  | Some f =>
      let '(f, (i, err)) := call_closure f i in
      Returns (mkServerCodec (sc_src r) (sc_dst r) (sc_enc r) (sc_dec r)
                 (sc_encode r) (sc_decode r) (Some f), i, err)
  end.

(** The two halves of the server handshake loop body. *)
Definition server_write_step (v : HS * Encoder * rpcServerCodec)
  : step_result (HS * Encoder * rpcServerCodec) :=
  let '(hs, dst, r) := v in
  let '(hs, (buf, dec, enc)) := WriteMessage hs [] in
  let r := sc_set_ciphers r enc dec in
  let '(dst, e) := EncodeOpaque dst buf in
  match e with
  | Some e => Fail (hs, dst, r) e
  | None => match sc_enc r with
            | Some _ => Break (hs, dst, r)
            | None => Continue (hs, dst, r)
            end
  end.

Definition server_read_step (f : bytes) (v : HS * Encoder * rpcServerCodec)
  : step_result (HS * Encoder * rpcServerCodec) :=
  let '(hs, dst, r) := v in
  let '(hs, (_, dec, enc, e)) := ReadMessage hs f in
  let r := sc_set_ciphers r enc dec in
  match e with
  | Some e => Fail (hs, dst, r) e
  | None => match sc_enc r with
            | Some _ => Break (hs, dst, r)
            | None => Continue (hs, dst, r)
            end
  end.

Fixpoint server_loop (src : Decoder) (state : bool)
    (v : HS * Encoder * rpcServerCodec)
  : loop_end (HS * Encoder * rpcServerCodec) :=
  match (if state then server_write_step v else Continue v) with
  | Break v => Finished src v
  | Fail v e => Failed src v e
  | StepPanics x => LoopPanics x
  | Continue v =>
      match src with
      | [] => Failed [] v (ErrTransport 0)
      | f :: rest =>
          match server_read_step f v with
          | Break v => Finished rest v
          | Fail v e => Failed rest v e
          | StepPanics x => LoopPanics x
          | Continue v => server_loop rest true v
          end
      end
  end.

Definition rpcServerCodec_handshake (r : rpcServerCodec) (src : Decoder)
    (dst : Encoder) (nc : Config)
  : outcome (rpcServerCodec * Decoder * Encoder * option error) :=
  let state := Initiator nc in
  let hs := NewHandshakeState nc in
  match server_loop src state (hs, dst, r) with
  | Finished src (_, dst, r) => Returns (r, src, dst, None)
  | Failed src (_, dst, r) e => Returns (r, src, dst, Some e)
  | LoopPanics x => Panics x
  end.

(** How [net/rpc] drives the adapters.  The client sends one call after
    the other; the errors of the calls are collected. *)
Fixpoint rpcClientCodec_write_requests (r : rpcClientCodec)
    (calls : list (Request * Body))
  : outcome (rpcClientCodec * list (option error)) :=
  match calls with
  | [] => Returns (r, [])
  | (req, i) :: calls =>
      match rpcClientCodec_WriteRequest r req i with
      | Panics x => Panics x
      | Returns (r, err) =>
          match rpcClientCodec_write_requests r calls with
          | Panics x => Panics x
          | Returns (r, errs) => Returns (r, err :: errs)
          end
      end
  end.

(** The server reads a header and, when that gave no error, the body. *)
Definition rpcServerCodec_read_call (r : rpcServerCodec) (req0 : Request)
    (i0 : Body)
  : outcome (rpcServerCodec * (Request * Body * option error)) :=
  match rpcServerCodec_ReadRequestHeader r req0 with
  | Panics x => Panics x
  | Returns (r, req, Some e) => Returns (r, (req, i0, Some e))
  | Returns (r, req, None) =>
      match rpcServerCodec_ReadRequestBody r i0 with
      | Panics x => Panics x
      | Returns (r, i, err) => Returns (r, (req, i, err))
      end
  end.

Fixpoint rpcServerCodec_read_calls (r : rpcServerCodec) (req0 : Request)
    (i0 : Body) (n : nat)
  : outcome (rpcServerCodec * list (Request * Body * option error)) :=
  match n with
  | O => Returns (r, [])
  | S n =>
      match rpcServerCodec_read_call r req0 i0 with
      | Panics x => Panics x
      | Returns (r, res) =>
          match rpcServerCodec_read_calls r req0 i0 n with
          | Panics x => Panics x
          | Returns (r, more) => Returns (r, res :: more)
          end
      end
  end.

(** The same for the replies, from the server to the client. *)
Fixpoint rpcServerCodec_write_responses (r : rpcServerCodec)
    (replies : list (Response * Body))
  : outcome (rpcServerCodec * list (option error)) :=
  match replies with
  | [] => Returns (r, [])
  | (resp, i) :: replies =>
      match rpcServerCodec_WriteResponse r resp i with
      | Panics x => Panics x
      | Returns (r, err) =>
          match rpcServerCodec_write_responses r replies with
          | Panics x => Panics x
          | Returns (r, errs) => Returns (r, err :: errs)
          end
      end
  end.

Definition rpcClientCodec_read_reply (r : rpcClientCodec) (resp0 : Response)
    (i0 : Body)
  : outcome (rpcClientCodec * (Response * Body * option error)) :=
  match rpcClientCodec_ReadResponseHeader r resp0 with
  | Panics x => Panics x
  | Returns (r, resp, Some e) => Returns (r, (resp, i0, Some e))
  | Returns (r, resp, None) =>
      match rpcClientCodec_ReadResponseBody r i0 with
      | Panics x => Panics x
      | Returns (r, i, err) => Returns (r, (resp, i, err))
      end
  end.

Fixpoint rpcClientCodec_read_replies (r : rpcClientCodec) (resp0 : Response)
    (i0 : Body) (n : nat)
  : outcome (rpcClientCodec * list (Response * Body * option error)) :=
  match n with
  | O => Returns (r, [])
  | S n =>
      match rpcClientCodec_read_reply r resp0 i0 with
      | Panics x => Panics x
      | Returns (r, res) =>
          match rpcClientCodec_read_replies r resp0 i0 n with
          | Panics x => Panics x
          | Returns (r, more) => Returns (r, res :: more)
          end
      end
  end.

End Codec.

Arguments cc_src {CS Body} r.
Arguments cc_dst {CS Body} r.
Arguments cc_enc {CS Body} r.
Arguments cc_dec {CS Body} r.
Arguments cc_encode {CS Body} r.
Arguments cc_decode {CS Body} r.
Arguments cc_decode2 {CS Body} r.
Arguments sc_src {CS Body} r.
Arguments sc_dst {CS Body} r.
Arguments sc_enc {CS Body} r.
Arguments sc_dec {CS Body} r.
Arguments sc_encode {CS Body} r.
Arguments sc_decode {CS Body} r.
Arguments sc_decode2 {CS Body} r.
Arguments rpcClientCodec CS Body : clear implicits.
Arguments rpcServerCodec CS Body : clear implicits.
Arguments new_rpcClientCodec CS Body : clear implicits.
Arguments new_rpcServerCodec CS Body : clear implicits.
Arguments rpcClientCodec_WriteRequest {CS _ Body} r req i.
Arguments rpcClientCodec_ReadResponseHeader {CS _ Body} r resp.
Arguments rpcClientCodec_ReadResponseBody {CS Body} r i.
Arguments rpcClientCodec_handshake {HS CS _ Body} r src dst nc.
Arguments rpcServerCodec_WriteResponse {CS _ Body} r resp i.
Arguments rpcServerCodec_ReadRequestHeader {CS _ Body} r req.
Arguments rpcServerCodec_ReadRequestBody {CS Body} r i.
Arguments rpcServerCodec_handshake {HS CS _ Body} r src dst nc.
Arguments client_write_step {HS CS _ Body} v.
Arguments client_read_step {HS CS _ Body} f v.
Arguments client_loop {HS CS _ Body} src state v.
Arguments server_write_step {HS CS _ Body} v.
Arguments server_read_step {HS CS _ Body} f v.
Arguments server_loop {HS CS _ Body} src state v.
Arguments rpcClientCodec_write_requests {CS _ Body} r calls.
Arguments rpcServerCodec_read_call {CS _ Body} r req0 i0.
Arguments rpcServerCodec_read_calls {CS _ Body} r req0 i0 n.
Arguments rpcServerCodec_write_responses {CS _ Body} r replies.
Arguments rpcClientCodec_read_reply {CS _ Body} r resp0 i0.
Arguments rpcClientCodec_read_replies {CS _ Body} r resp0 i0 n.
Arguments cc_set_ciphers {CS Body} r enc dec.
Arguments sc_set_ciphers {CS Body} r enc dec.
Arguments mkClientCodec {CS Body} _ _ _ _ _ _ _.
Arguments mkServerCodec {CS Body} _ _ _ _ _ _ _.

(** ** Payload serializers

    [xdr.Encoder]/[xdr.Decoder] (go-xdr) and [gob.Encoder]/[gob.Decoder]
    are external.  A serializer is described by what encoding one value
    appends to the destination and what decoding one value consumes from
    the input, each threading the private state of the encoder or decoder
    object (gob transmits type information on first use). *)
Inductive kind : Type := KRequest | KResponse | KBody.

Definition value (Body : Type) (k : kind) : Type :=
  match k with
  | KRequest => Request
  | KResponse => Response
  | KBody => Body
  end.

Record Serializer (Body : Type) : Type := mkSerializer {
  enc_state : Type;
  dec_state : Type;
  enc_new : enc_state;
  dec_new : dec_state;
  marshal : forall k : kind,
      enc_state -> value Body k -> enc_state * (bytes * option error);
  unmarshal : forall k : kind,
      dec_state -> bytes -> value Body k ->
      dec_state * bytes * (value Body k * option error)
}.

Arguments enc_state {Body} s.
Arguments dec_state {Body} s.
Arguments enc_new {Body} s.
Arguments dec_new {Body} s.
Arguments marshal {Body} s k _ _.
Arguments unmarshal {Body} s k _ _ _.

Section Bindings.

Context {HS CS : Type} `{Cipher CS} `{Engine HS CS}.
Variable Body : Type.
Variables xdr gob : Serializer Body.

(** An encoder object writing into a [bytes.Buffer], and a decoder
    object reading from a [bytes.Reader]. *)
Definition encoder (S : Serializer Body) : Type :=
  (enc_state S * Buffer.t)%type.

Definition decoder (S : Serializer Body) : Type :=
  (dec_state S * bytes)%type.

Definition NewEncoder (S : Serializer Body) (dst : Buffer.t) : encoder S :=
  (enc_new S, dst).

Definition NewDecoder (S : Serializer Body) (b : bytes) : decoder S :=
  (dec_new S, b).

Definition Encode (S : Serializer Body) (k : kind) (enc : encoder S)
    (v : value Body k) : encoder S * option error :=
  let '(st, dst) := enc in
  let '(st, (w, err)) := marshal S k st v in
  ((st, Buffer.Write dst w), err).

Definition Decode (S : Serializer Body) (k : kind) (dec : decoder S)
    (target : value Body k) : decoder S * (value Body k * option error) :=
  let '(st, input) := dec in
  let '(st, input, res) := unmarshal S k st input target in
  ((st, input), res).

(** The closure returned by the decode functions: it decodes the next
    value of the captured decoder into its argument. *)
Definition body_closure (S : Serializer Body) (dec : decoder S)
  : closure Body :=
  {| capture := dec; code := fun dec i => Decode S KBody dec i |}.

Definition xdrEncReq (r : Request) (i : Body) : bytes * option error :=
  let dst := Buffer.empty in
  let enc := NewEncoder xdr dst in
  let '(enc, err) := Encode xdr KRequest enc r in
  match err with
  | Some e => ([], Some e)
  | None =>
      let '(enc, err) := Encode xdr KBody enc i in
      match err with
      | Some e => ([], Some e)
      | None => (snd enc, None)
      end
  end.

Definition xdrDecReq (b : bytes) (r : Request)
  : option error * Request * closure Body :=
  let dec := NewDecoder xdr b in
  let '(dec, (r, err)) := Decode xdr KRequest dec r in
  (err, r, body_closure xdr dec).

Definition xdrEncResp (r : Response) (i : Body) : bytes * option error :=
  let dst := Buffer.empty in
  let enc := NewEncoder xdr dst in
  let '(enc, err) := Encode xdr KResponse enc r in
  match err with
  | Some e => ([], Some e)
  | None =>
      let '(enc, err) := Encode xdr KBody enc i in
      match err with
      | Some e => ([], Some e)
      | None => (snd enc, None)
      end
  end.

Definition xdrDecResp (b : bytes) (r : Response)
  : option error * Response * closure Body :=
  let dec := NewDecoder xdr b in
  let '(dec, (r, err)) := Decode xdr KResponse dec r in
  (err, r, body_closure xdr dec).

Definition gobEncReq (r : Request) (i : Body) : bytes * option error :=
  let dst := Buffer.empty in
  let enc := NewEncoder gob dst in
  let '(enc, err) := Encode gob KRequest enc r in
  match err with
  | Some e => ([], Some e)
  | None =>
      let '(enc, err) := Encode gob KBody enc i in
      match err with
      | Some e => ([], Some e)
      | None => (snd enc, None)
      end
  end.

Definition gobDecReq (b : bytes) (r : Request)
  : option error * Request * closure Body :=
  let dec := NewDecoder gob b in
  let '(dec, (r, err)) := Decode gob KRequest dec r in
  (err, r, body_closure gob dec).

Definition gobEncResp (r : Response) (i : Body) : bytes * option error :=
  let dst := Buffer.empty in
  let enc := NewEncoder gob dst in
  let '(enc, err) := Encode gob KResponse enc r in
  match err with
  | Some e => ([], Some e)
  | None =>
      let '(enc, err) := Encode gob KBody enc i in
      match err with
      | Some e => ([], Some e)
      | None => (snd enc, None)
      end
  end.

Definition gobDecResp (b : bytes) (r : Response)
  : option error * Response * closure Body :=
  let dec := NewDecoder gob b in
  let '(dec, (r, err)) := Decode gob KResponse dec r in
  (err, r, body_closure gob dec).

(** The four constructors.  They bind the serializer functions and run
    the handshake on the transport passed in; the codec's own [src] and
    [dst] fields are not assigned. *)
Definition bind_client (encode : Request -> Body -> bytes * option error)
    (decode : bytes -> Response -> option error * Response * closure Body)
  : rpcClientCodec CS Body :=
  let r := new_rpcClientCodec CS Body in
  mkClientCodec (cc_src r) (cc_dst r) (cc_enc r) (cc_dec r)
                (Some encode) (Some decode) (cc_decode2 r).

Definition bind_server (encode : Response -> Body -> bytes * option error)
    (decode : bytes -> Request -> option error * Request * closure Body)
  : rpcServerCodec CS Body :=
  let r := new_rpcServerCodec CS Body in
  mkServerCodec (sc_src r) (sc_dst r) (sc_enc r) (sc_dec r)
                (Some encode) (Some decode) (sc_decode2 r).

Definition NewRpcClient (src : Decoder) (dst : Encoder) (nc : Config) :=
  rpcClientCodec_handshake (bind_client xdrEncReq xdrDecResp) src dst nc.

Definition NewRpcSource (src : Decoder) (dst : Encoder) (nc : Config) :=
  rpcServerCodec_handshake (bind_server xdrEncResp xdrDecReq) src dst nc.

Definition NewGobRpcClient (src : Decoder) (dst : Encoder) (nc : Config) :=
  rpcClientCodec_handshake (bind_client gobEncReq gobDecResp) src dst nc.

Definition NewGobRpcSource (src : Decoder) (dst : Encoder) (nc : Config) :=
  rpcServerCodec_handshake (bind_server gobEncResp gobDecReq) src dst nc.

End Bindings.

Arguments xdrEncReq {Body} xdr r i.
Arguments xdrDecReq {Body} xdr b r.
Arguments xdrEncResp {Body} xdr r i.
Arguments xdrDecResp {Body} xdr b r.
Arguments gobEncReq {Body} gob r i.
Arguments gobDecReq {Body} gob b r.
Arguments gobEncResp {Body} gob r i.
Arguments gobDecResp {Body} gob b r.
Arguments Encode {Body} S k enc v.
Arguments Decode {Body} S k dec target.
Arguments NewEncoder {Body} S dst.
Arguments NewDecoder {Body} S b.
Arguments body_closure {Body} S dec.
Arguments encoder {Body} S.
Arguments decoder {Body} S.
Arguments NewRpcClient {HS CS _ Body} xdr src dst nc.
Arguments NewRpcSource {HS CS _ Body} xdr src dst nc.
Arguments NewGobRpcClient {HS CS _ Body} gob src dst nc.
Arguments NewGobRpcSource {HS CS _ Body} gob src dst nc.

(** The contract of a serializer: [in_step es ds] says that the decoder
    state [ds] has seen what the encoder state [es] has produced.  What
    the encoder writes for a value, the decoder reads back as that value,
    consuming exactly those bytes, and the two stay in step. *)
Definition round_trips {Body : Type} (S : Serializer Body)
    (in_step : enc_state S -> dec_state S -> Prop) : Prop :=
  in_step (enc_new S) (dec_new S) /\
  forall (k : kind) (es es' : enc_state S) (ds : dec_state S)
         (v : value Body k) (w : bytes),
    in_step es ds ->
    marshal S k es v = (es', (w, None)) ->
    forall (rest : bytes) (target : value Body k),
    exists ds' : dec_state S,
      unmarshal S k ds (w ++ rest) target = (ds', rest, (v, None)) /\
      in_step es' ds'.

(** What an [encode] function and a [decode] function have to do for
    each other: the bytes of a successful [encode] give back the header
    at once and the body through the continuation. *)
Definition reads_back {Body Header : Type}
    (encode : Header -> Body -> bytes * option error)
    (decode : bytes -> Header -> option error * Header * closure Body)
  : Prop :=
  forall (h : Header) (i : Body) (b : bytes),
    encode h i = (b, None) ->
    forall (h0 : Header) (i0 : Body),
    exists k k' : closure Body,
      decode b h0 = (None, h, k) /\ call_closure k i0 = (k', (i, None)).

(** The calls, or replies, for which [encode] produces an envelope. *)
Definition accepted {Body Header : Type}
    (encode : Header -> Body -> bytes * option error)
    (calls : list (Header * Body)) : list (Header * Body) :=
  filter (fun c => match snd (encode (fst c) (snd c)) with
                   | None => true
                   | Some _ => false
                   end) calls.

(** ** Small concrete implementations of the external interfaces

    They are used to run the package on explicit inputs. *)
Module Toy.

(** A byte standing for a counter value. *)
Definition tag (n : nat) : Byte.byte :=
  match Byte.of_nat (n mod 256)%nat with
  | Some b => b
  | None => Byte.x00
  end.

(** A cipher state is a key number with a nonce.  A ciphertext is the
    plaintext behind the key and nonce tags; decryption checks both
    tags and advances the nonce only on success. *)
Definition cipher_state : Type := (nat * nat)%type.

Definition encrypt (c : cipher_state) (p : bytes) : cipher_state * bytes :=
  ((fst c, S (snd c)), tag (fst c) :: tag (snd c) :: p).

Definition decrypt (c : cipher_state) (ct : bytes)
  : cipher_state * (bytes * option error) :=
  match ct with
  | k :: n :: p =>
      if Byte.eqb k (tag (fst c)) && Byte.eqb n (tag (snd c))
      then ((fst c, S (snd c)), (p, None))
      else (c, ([], Some (ErrDecrypt 0)))
  | _ => (c, ([], Some (ErrDecrypt 1)))
  end.

#[local] Instance cipher : Cipher cipher_state :=
  {| Encrypt := encrypt; Decrypt := decrypt |}.

(** A handshake engine that counts the messages of the pattern.  A
    handshake message is its payload; the call that handles the last
    message of the pattern yields the two cipher states, key 1 first and
    key 2 second, on both sides. *)
Definition handshake_state : Type := (nat * nat)%type.

Definition split (done total : nat)
  : option cipher_state * option cipher_state :=
  if (done =? total)%nat then (Some (1%nat, O), Some (2%nat, O))
  else (None, None).

Definition new_state (nc : Config) : handshake_state :=
  (O, length (Messages (Pattern nc))).

Definition write_message (hs : handshake_state) (payload : bytes)
  : handshake_state * (bytes * option cipher_state * option cipher_state) :=
  let '(k, m) := hs in
  let '(c1, c2) := split (S k) m in
  ((S k, m), (payload, c1, c2)).

Definition read_message (hs : handshake_state) (msg : bytes)
  : handshake_state *
    (bytes * option cipher_state * option cipher_state * option error) :=
  let '(k, m) := hs in
  let '(c1, c2) := split (S k) m in
  ((S k, m), (msg, c1, c2, None)).

#[local] Instance engine : Engine handshake_state cipher_state :=
  {| NewHandshakeState := new_state;
     WriteMessage := write_message;
     ReadMessage := read_message |}.

(** A handshake pattern with [n] messages, and the configuration of
    either side. *)
Definition pattern (n : nat) : HandshakePattern :=
  {| Name := String.EmptyString; Messages := repeat [Token_e] n |}.

Definition config (n : nat) (initiator : bool) : Config :=
  {| Pattern := pattern n; Initiator := initiator |}.

(** A transport that never fails within the runs considered. *)
Definition wire : Encoder := {| sent := []; quota := 1000 |}.

(** A serializer for bodies that are byte strings: a block is a length
    byte followed by that many bytes, a sequence number is one byte. *)
Definition put_block (b : bytes) : option bytes :=
  match Byte.of_nat (length b) with
  | Some n => Some (n :: b)
  | None => None
  end.

Definition get_block (input : bytes) : option (bytes * bytes) :=
  match input with
  | [] => None
  | n :: rest =>
      if (length rest <? Byte.to_nat n)%nat then None
      else Some (firstn (Byte.to_nat n) rest, skipn (Byte.to_nat n) rest)
  end.

Definition put_seq (z : Z) : option bytes :=
  if (0 <=? z) then
    match Byte.of_nat (Z.to_nat z) with
    | Some b => Some [b]
    | None => None
    end
  else None.

Definition get_seq (input : bytes) : option (Z * bytes) :=
  match input with
  | [] => None
  | b :: rest => Some (Z.of_nat (Byte.to_nat b), rest)
  end.

Definition put_string (s : String.string) : option bytes :=
  put_block (String.list_byte_of_string s).

Definition get_string (input : bytes) : option (String.string * bytes) :=
  match get_block input with
  | Some (b, rest) => Some (String.string_of_list_byte b, rest)
  | None => None
  end.

Definition put (k : kind) : value bytes k -> option bytes :=
  match k with
  | KRequest => fun r =>
      match put_string (ServiceMethod r), put_seq (Seq r) with
      | Some a, Some b => Some (a ++ b)
      | _, _ => None
      end
  | KResponse => fun r =>
      match put_string (Resp_ServiceMethod r), put_seq (Resp_Seq r),
            put_string (Resp_Error r) with
      | Some a, Some b, Some c => Some (a ++ b ++ c)
      | _, _, _ => None
      end
  | KBody => fun b => put_block b
  end.

Definition get (k : kind) : bytes -> option (value bytes k * bytes) :=
  match k with
  | KRequest => fun input =>
      match get_string input with
      | Some (m, rest) =>
          match get_seq rest with
          | Some (s, rest) => Some (mkRequest m s, rest)
          | None => None
          end
      | None => None
      end
  | KResponse => fun input =>
      match get_string input with
      | Some (m, rest) =>
          match get_seq rest with
          | Some (s, rest) =>
              match get_string rest with
              | Some (e, rest) => Some (mkResponse m s e, rest)
              | None => None
              end
          | None => None
          end
      | None => None
      end
  | KBody => fun input => get_block input
  end.

Definition serializer : Serializer bytes :=
  {| enc_state := unit; dec_state := unit;
     enc_new := tt; dec_new := tt;
     marshal := fun k st v =>
       match put k v with
       | Some w => (st, (w, None))
       | None => (st, ([], Some (ErrSerialize 0)))
       end;
     unmarshal := fun k st input target =>
       match get k input with
       | Some (v, rest) => (st, rest, (v, None))
       | None => (st, input, (target, Some (ErrSerialize 1)))
       end |}.

End Toy.

(** * Properties *)

(** ** Chunk size *)

Lemma int_wrap_small (z : Z) : - 2 ^ 63 <= z < 2 ^ 63 -> int_wrap z = z.
Proof. intros Hz. unfold int_wrap. rewrite Z.mod_small; lia. Qed.

Lemma sends_nonneg (initiator : bool) (nmsgs : Z) :
  0 <= nmsgs -> 0 <= sends initiator nmsgs.
Proof. intros Hn. unfold sends. destruct initiator; apply Z.div_pos; lia. Qed.

Lemma sends_bound (initiator : bool) (nmsgs : Z) :
  0 <= nmsgs -> sends initiator nmsgs <= nmsgs + 1.
Proof.
  intros Hn. unfold sends.
  destruct initiator; apply Z.div_le_upper_bound; lia.
Qed.

(** The number of messages the code derives is [sends]. *)
Lemma chunk_size_unfold (initiator : bool) (nmsgs l : Z) :
  0 <= nmsgs < 2 ^ 50 -> 0 <= l < 2 ^ 62 ->
  chunk_size initiator nmsgs l =
  let n := sends initiator nmsgs in
  if l >? 4096 then
    if n * 4096 <? l then
      if n =? 0 then Panics DivideByZero else Returns (l / n + 1)
    else Returns 4096
  else Returns l.
Proof.
  intros Hn Hl. unfold chunk_size. cbv zeta.
  destruct (l >? 4096) eqn:Hgt; [| reflexivity].
  assert (Hnm : Z.quot (if initiator then int_wrap (nmsgs + 1) else nmsgs) 2
                = sends initiator nmsgs).
  { unfold sends. destruct initiator.
    - rewrite int_wrap_small by lia. apply Z.quot_div_nonneg; lia.
    - apply Z.quot_div_nonneg; lia. }
  rewrite Hnm.
  pose proof (sends_nonneg initiator nmsgs (proj1 Hn)) as H0.
  pose proof (sends_bound initiator nmsgs (proj1 Hn)) as H1.
  set (n := sends initiator nmsgs) in *.
  rewrite (int_wrap_small (n * 4096)) by lia.
  destruct (n * 4096 <? l) eqn:Hlt; [| reflexivity].
  destruct (n =? 0) eqn:Hz; [reflexivity |].
  apply Z.eqb_neq in Hz.
  rewrite Z.quot_div_nonneg by lia.
  assert (0 <= l / n <= l).
  { split; [apply Z.div_pos; lia |].
    apply Z.div_le_upper_bound; nia. }
  rewrite (int_wrap_small (l / n)) by lia.
  rewrite int_wrap_small by lia. reflexivity.
Qed.

Lemma ceil_div_inexact (l n : Z) :
  0 < n -> l mod n <> 0 -> l / n + 1 = ceil_div l n.
Proof.
  intros Hn Hr. unfold ceil_div.
  pose proof (Z.div_mod l n ltac:(lia)) as Hdm.
  pose proof (Z.mod_pos_bound l n Hn) as Hb.
  apply Z.div_unique with (r := l mod n - 1); lia.
Qed.

Lemma ceil_div_exact (l n : Z) :
  0 < n -> l mod n = 0 -> l / n = ceil_div l n.
Proof.
  intros Hn Hr. unfold ceil_div.
  pose proof (Z.div_mod l n ltac:(lia)) as Hdm.
  apply Z.div_unique with (r := n - 1); lia.
Qed.

(** A side that sends no message (a responder whose pattern has a single
    message) derives a message count of zero, and with more than 4096
    staged bytes the chunk computation divides by it. *)
Lemma chunk_size_zero_sends (initiator : bool) (nmsgs l : Z) :
  0 <= nmsgs < 2 ^ 50 -> 4096 < l < 2 ^ 62 ->
  sends initiator nmsgs = 0 ->
  chunk_size initiator nmsgs l = Panics DivideByZero.
Proof.
  intros Hn Hl Hs. rewrite chunk_size_unfold by lia. cbv zeta. rewrite Hs.
  destruct (Z.gtb_spec l 4096); [| lia].
  destruct (Z.ltb_spec (0 * 4096) l); [reflexivity | lia].
Qed.

(** C9 (evaluation at the failing input): after [Init] and a [Write] of
    4097 bytes, [Handshake] as the responder of a one-message pattern
    panics with a division by zero before any message is exchanged. *)
Theorem handshake_divides_by_zero :
  match Connection_Write (H := Toy.cipher)
          (Connection_Init new_Connection) (repeat Byte.x00 4097) with
  | Returns (c, _) =>
      Connection_Handshake (H0 := Toy.engine) c [[]] Toy.wire
        (Toy.config 1 false)
  | Panics x => Panics x
  end = Panics DivideByZero.
Proof. vm_compute. reflexivity. Qed.

(** C3 (as the code has it): with [n] the number of messages this side
    sends, a staged length [l] of at most 4096 is itself the chunk size;
    above 4096 and within [n * 4096] the chunk size is exactly 4096; above
    [n * 4096], for [n] positive, it is [l / n + 1], which is the quotient
    rounded up when [n] does not divide [l] and one more than it when [n]
    divides [l]; in that case [n] chunks cover the staged data. *)
Theorem chunk_size_by_cases (initiator : bool) (nmsgs l : Z) :
  0 <= nmsgs < 2 ^ 50 -> 0 <= l < 2 ^ 62 ->
  (l <= 4096 -> chunk_size initiator nmsgs l = Returns l) /\
  (4096 < l <= sends initiator nmsgs * 4096 ->
   chunk_size initiator nmsgs l = Returns 4096) /\
  (4096 < l -> sends initiator nmsgs * 4096 < l ->
   0 < sends initiator nmsgs ->
   chunk_size initiator nmsgs l = Returns (l / sends initiator nmsgs + 1) /\
   (l mod sends initiator nmsgs <> 0 ->
    l / sends initiator nmsgs + 1 = ceil_div l (sends initiator nmsgs)) /\
   (l mod sends initiator nmsgs = 0 ->
    l / sends initiator nmsgs + 1 = ceil_div l (sends initiator nmsgs) + 1) /\
   l <= sends initiator nmsgs * (l / sends initiator nmsgs + 1)).
Proof.
  intros Hn Hl. rewrite chunk_size_unfold by assumption. cbv zeta.
  set (n := sends initiator nmsgs).
  repeat split.
  - intros Hle. destruct (Z.gtb_spec l 4096); [lia | reflexivity].
  - intros [Hgt Hle]. destruct (Z.gtb_spec l 4096); [| lia].
    destruct (Z.ltb_spec (n * 4096) l); [lia | reflexivity].
  - destruct (Z.gtb_spec l 4096); [| lia].
    destruct (Z.ltb_spec (n * 4096) l); [| lia].
    destruct (Z.eqb_spec n 0); [lia | reflexivity].
  - apply ceil_div_inexact; assumption.
  - intros Hex. rewrite <- ceil_div_exact by assumption. reflexivity.
  - pose proof (Z.div_mod l n ltac:(lia)) as Hdm.
    pose proof (Z.mod_pos_bound l n ltac:(lia)) as Hb. lia.
Qed.

Lemma chunk_size_by_cases_witness :
  chunk_size true 3 8194 = Returns (8194 / sends true 3 + 1) /\
  8194 / sends true 3 + 1 = ceil_div 8194 (sends true 3) + 1.
Proof.
  destruct (chunk_size_by_cases true 3 8194) as (_ & _ & H3);
    [lia | lia |].
  destruct H3 as (Hc & _ & Hex & _);
    [lia | vm_compute; reflexivity | vm_compute; reflexivity |].
  split; [exact Hc | apply Hex; vm_compute; reflexivity].
Defined.

(** C3 (the claim as written fails): an initiator of a three-message
    pattern sends two messages; with 8194 staged bytes the chunk size is
    4098, not the rounded-up quotient 4097. *)
Lemma chunk_size_not_rounded_up :
  sends true 3 * 4096 < 8194 /\
  chunk_size true 3 8194 = Returns 4098 /\
  ceil_div 8194 (sends true 3) = 4097.
Proof. vm_compute. repeat split; reflexivity. Qed.

(** ** bytes.Buffer *)

Lemma Buffer_Len_zero (b : Buffer.t) : (Buffer.Len b =? 0) = true <-> b = [].
Proof.
  unfold Buffer.Len. rewrite Z.eqb_eq. destruct b; simpl; split;
    intros Hb; try reflexivity; try discriminate; lia.
Qed.

Lemma Buffer_Read_split (b : Buffer.t) (k : nat) :
  fst (Buffer.Read b k) = skipn k b /\
  fst (snd (Buffer.Read b k)) = firstn k b.
Proof.
  destruct b as [| x b]; simpl.
  - destruct k; simpl; split; reflexivity.
  - split; reflexivity.
Qed.

Lemma Buffer_Read_nonempty (b : Buffer.t) (k : nat) :
  b <> [] -> Buffer.Read b k = (skipn k b, (firstn k b, None)).
Proof. destruct b; [congruence | reflexivity]. Qed.

Lemma Buffer_Read_served (b : Buffer.t) (k : nat) :
  fst (snd (Buffer.Read b k)) ++ fst (Buffer.Read b k) = b.
Proof.
  destruct (Buffer_Read_split b k) as [-> ->]. apply firstn_skipn.
Qed.

(** ** EncryptedStream *)

Section StreamFacts.

Context {CS : Type} `{Cipher CS}.

(** A read with bytes in the carry-over buffer serves them and touches
    neither the transport nor the cipher state. *)
Lemma Reader_Read_buffered (r : Reader CS) (k : nat) :
  r_buf r <> [] ->
  Reader_Read r k =
  Returns ({| r_src := r_src r; r_dec := r_dec r;
              r_buf := skipn k (r_buf r) |},
           (firstn k (r_buf r), None)).
Proof.
  intros Hb. unfold Reader_Read.
  destruct (Buffer.Len (r_buf r) =? 0) eqn:HL.
  - apply Buffer_Len_zero in HL. contradiction.
  - rewrite Buffer_Read_nonempty by assumption. reflexivity.
Qed.

(** A read on an empty buffer with no frame to receive reports the
    transport error. *)
Lemma Reader_Read_no_frame (dec : option CS) (k : nat) :
  Reader_Read {| r_src := []; r_dec := dec; r_buf := [] |} k =
  Returns ({| r_src := []; r_dec := dec; r_buf := [] |},
           ([], Some (ErrTransport 0))).
Proof. reflexivity. Qed.

(** A read on an empty buffer receives one frame and decrypts it once;
    when the frame authenticates, its plaintext is what gets served. *)
Lemma Reader_Read_frame (f : bytes) (rest : list bytes) (d d' : CS)
    (pt : bytes) (k : nat) :
  Decrypt d f = (d', (pt, None)) ->
  Reader_Read {| r_src := f :: rest; r_dec := Some d; r_buf := [] |} k =
  Returns ({| r_src := rest; r_dec := Some d';
              r_buf := fst (Buffer.Read pt k) |},
           snd (Buffer.Read pt k)).
Proof.
  intros Hd. unfold Reader_Read. simpl. rewrite Hd. simpl.
  destruct (Buffer.Read pt k) as [b res]. reflexivity.
Qed.

Lemma Reader_Read_bad_frame (f : bytes) (rest : list bytes) (d d' : CS)
    (junk : bytes) (e : error) (k : nat) :
  Decrypt d f = (d', (junk, Some e)) ->
  Reader_Read {| r_src := f :: rest; r_dec := Some d; r_buf := [] |} k =
  Returns ({| r_src := rest; r_dec := Some d'; r_buf := [] |},
           ([], Some e)).
Proof. intros Hd. unfold Reader_Read. simpl. rewrite Hd. reflexivity. Qed.

Lemma Writer_Write_ok (dst : Encoder) (e : CS) (p : bytes) (q : nat) :
  quota dst = S q ->
  Writer_Write {| w_dst := dst; w_enc := Some e |} p =
  Returns ({| w_dst := {| sent := sent dst ++ [snd (Encrypt e p)];
                          quota := q |};
              w_enc := Some (fst (Encrypt e p)) |},
           (Z.of_nat (length p), None)).
Proof.
  intros Hq. unfold Writer_Write, EncodeOpaque. simpl.
  destruct (Encrypt e p) as [e' c]. rewrite Hq. reflexivity.
Qed.

(** A run of writes that the transport accepts: every call reports the
    full length of its input, and the wire holds the sealed frames. *)
Lemma write_all_ok (ps : list bytes) :
  forall (dst : Encoder) (e : CS),
    (length ps <= quota dst)%nat ->
    write_all {| w_dst := dst; w_enc := Some e |} ps =
    Returns ({| w_dst := {| sent := sent dst ++ snd (seal e ps);
                            quota := quota dst - length ps |};
                w_enc := Some (fst (seal e ps)) |},
             map (fun p => (Z.of_nat (length p), None)) ps).
Proof.
  induction ps as [| p ps IH]; intros dst e Hq; simpl.
  - rewrite app_nil_r, Nat.sub_0_r. destruct dst; reflexivity.
  - simpl in Hq. destruct (quota dst) as [| q] eqn:Eq; [lia |].
    rewrite (Writer_Write_ok dst e p q Eq).
    rewrite IH by (simpl; lia). simpl.
    destruct (Encrypt e p) as [e1 c]. simpl.
    destruct (seal e1 ps) as [e2 cs]. simpl.
    rewrite <- app_assoc. reflexivity.
Qed.

End StreamFacts.

(** ** Round trip over a paired send/receive cipher state *)

Section RoundTrip.

Context {CS : Type} `{Cipher CS}.

(** [paired e d]: the receive state [d] is in step with the send state
    [e].  What [e] encrypts, [d] decrypts, and they stay in step. *)
Variable paired : CS -> CS -> Prop.

Hypothesis paired_step :
  forall (e d : CS) (p : bytes),
    paired e d ->
    exists d' : CS,
      Decrypt d (snd (Encrypt e p)) = (d', (p, None)) /\
      paired (fst (Encrypt e p)) d'.

Lemma read_stream_step (e d : CS) (ps : list bytes) (b : bytes) (k : nat) :
  paired e d ->
  exists (e' d' : CS) (ps' : list bytes) (b' got : bytes)
         (err : option error),
    Reader_Read {| r_src := snd (seal e ps); r_dec := Some d; r_buf := b |} k
    = Returns ({| r_src := snd (seal e' ps'); r_dec := Some d';
                  r_buf := b' |}, (got, err)) /\
    paired e' d' /\
    got ++ b' ++ concat ps' = b ++ concat ps /\
    (ahead b' ps' <= ahead b ps)%nat /\
    ((0 < k)%nat -> (0 < ahead b ps)%nat ->
     (ahead b' ps' < ahead b ps)%nat).
Proof.
  intros Hp. destruct b as [| x b].
  - destruct ps as [| p ps].
    + exists e, d, [], [], [], (Some (ErrTransport 0)). simpl.
      rewrite Reader_Read_no_frame. unfold ahead. simpl.
      repeat split; try assumption; lia.
    + destruct (paired_step e d p Hp) as (d' & Hd & Hp').
      simpl. destruct (Encrypt e p) as [e1 c] eqn:He. simpl in Hd, Hp'.
      destruct (seal e1 ps) as [e2 cs] eqn:Hs. simpl.
      rewrite (Reader_Read_frame c cs d d' p k Hd).
      exists e1, d', ps, (fst (Buffer.Read p k)),
        (fst (snd (Buffer.Read p k))), (snd (snd (Buffer.Read p k))).
      rewrite Hs. simpl.
      destruct (Buffer_Read_split p k) as [Hb Hg].
      repeat split.
      * destruct (Buffer.Read p k) as [b' [got err]]. reflexivity.
      * assumption.
      * rewrite app_assoc, Buffer_Read_served. reflexivity.
      * unfold ahead. rewrite Hb, length_skipn. simpl.
        rewrite length_app. lia.
      * intros _ _. unfold ahead. rewrite Hb, length_skipn. simpl.
        rewrite length_app. lia.
  - exists e, d, ps, (skipn k (x :: b)), (firstn k (x :: b)), None.
    rewrite Reader_Read_buffered by (simpl; discriminate). simpl r_src.
    simpl r_dec. simpl r_buf.
    repeat split.
    + assumption.
    + rewrite app_assoc, firstn_skipn. reflexivity.
    + unfold ahead. rewrite length_skipn. lia.
    + intros Hk _. unfold ahead. rewrite length_skipn. simpl length. lia.
Qed.

Lemma read_seq_stream (ks : list nat) :
  forall (e d : CS) (ps : list bytes) (b : bytes),
    paired e d ->
    exists (r' : Reader CS) (out rest : bytes),
      read_seq {| r_src := snd (seal e ps); r_dec := Some d; r_buf := b |} ks
      = Returns (r', out) /\
      b ++ concat ps = out ++ rest /\
      (Forall (fun k => (0 < k)%nat) ks ->
       (ahead b ps <= length ks)%nat -> rest = []).
Proof.
  induction ks as [| k ks IH]; intros e d ps b Hp.
  - simpl. eexists _, [], (b ++ concat ps). repeat split.
    intros _ Hle. unfold ahead in Hle. simpl in Hle.
    destruct b; [| simpl in Hle; lia].
    destruct ps; [reflexivity | simpl in Hle; lia].
  - destruct (read_stream_step e d ps b k Hp)
      as (e' & d' & ps' & b' & got & err & Hr & Hp' & Heq & Hle & Hlt).
    destruct (IH e' d' ps' b' Hp') as (r' & out & rest & Hs & Hcat & Hall).
    simpl. rewrite Hr, Hs. exists r', (got ++ out), rest. repeat split.
    + rewrite <- Heq, Hcat, app_assoc. reflexivity.
    + intros Hks Hlen. simpl in Hlen. inversion Hks; subst.
      apply Hall; [assumption |].
      destruct (Nat.eq_dec (ahead b ps) 0) as [Hz | Hnz]; [lia |].
      specialize (Hlt ltac:(assumption) ltac:(lia)). lia.
Qed.

(** C4: on a transport that accepts the frames, every [Write] of a
    sequence returns the full length of its input with no error; the
    bytes the peer's [Read] calls deliver, in order, always form an
    initial part of the concatenation of the inputs, and after enough
    calls with a non-empty destination they are exactly the
    concatenation.  (A call that meets the frame of an empty input
    delivers no byte and reports end of file; reading goes on.) *)
Theorem write_read_round_trip (e d : CS) (ps : list bytes) (dst : Encoder) :
  paired e d ->
  sent dst = [] ->
  (length ps <= quota dst)%nat ->
  exists w' : Writer CS,
    write_all (NewWriter dst (Some e)) ps =
    Returns (w', map (fun p => (Z.of_nat (length p), None)) ps) /\
    forall ks : list nat,
    exists (r' : Reader CS) (out rest : bytes),
      read_seq (NewReader (sent (w_dst w')) (Some d)) ks = Returns (r', out) /\
      concat ps = out ++ rest /\
      (Forall (fun k => (0 < k)%nat) ks ->
       (length (concat ps) + length ps <= length ks)%nat ->
       out = concat ps).
Proof.
  intros Hp Hsent Hq. unfold NewWriter.
  rewrite write_all_ok by assumption. eexists. split; [reflexivity |].
  intros ks. simpl w_dst. simpl sent. rewrite Hsent. simpl app.
  unfold NewReader.
  destruct (read_seq_stream ks e d ps [] Hp) as (r' & out & rest & Hs & Hc & Hall).
  exists r', out, rest. unfold Buffer.empty. rewrite Hs.
  repeat split; [assumption |].
  intros Hks Hlen. simpl in Hc. rewrite Hc, (Hall Hks).
  - symmetry. apply app_nil_r.
  - unfold ahead. simpl. assumption.
Qed.

End RoundTrip.

(** ** The carry-over buffer *)

Section CarryOver.

Context {CS : Type} `{Cipher CS}.

(** The four ways a call of [Read] returns. *)
Lemma Reader_Read_cases (r r' : Reader CS) (k : nat)
    (res : bytes * option error) :
  Reader_Read r k = Returns (r', res) ->
  (r_buf r <> [] /\
   r' = {| r_src := r_src r; r_dec := r_dec r;
           r_buf := skipn k (r_buf r) |} /\
   res = (firstn k (r_buf r), None)) \/
  (r_buf r = [] /\ r_src r = [] /\ r' = r /\
   res = ([], Some (ErrTransport 0))) \/
  (r_buf r = [] /\
   exists (f : bytes) (rest : list bytes) (d d' : CS) (junk : bytes)
          (e : error),
     r_src r = f :: rest /\ r_dec r = Some d /\
     Decrypt d f = (d', (junk, Some e)) /\
     r' = {| r_src := rest; r_dec := Some d'; r_buf := [] |} /\
     res = ([], Some e)) \/
  (r_buf r = [] /\
   exists (f : bytes) (rest : list bytes) (d d' : CS) (pt : bytes),
     r_src r = f :: rest /\ r_dec r = Some d /\
     Decrypt d f = (d', (pt, None)) /\
     r' = {| r_src := rest; r_dec := Some d'; r_buf := skipn k pt |} /\
     fst res = firstn k pt).
Proof.
  intros Hr. destruct r as [src dec b]. destruct b as [| x b].
  - right. destruct src as [| f rest].
    + left. rewrite Reader_Read_no_frame in Hr. inversion Hr.
      repeat split.
    + right. unfold Reader_Read in Hr. simpl in Hr.
      destruct dec as [d |]; [| discriminate].
      destruct (Decrypt d f) as [d' [pt [e |]]] eqn:Hd.
      * left. split; [reflexivity |].
        exists f, rest, d, d', pt, e. inversion Hr.
        repeat split; assumption.
      * right. split; [reflexivity |].
        exists f, rest, d, d', pt. simpl in Hr.
        destruct (Buffer_Read_split pt k) as [Hb Hg].
        destruct (Buffer.Read pt k) as [b' res'] eqn:HB.
        inversion Hr; subst. simpl in Hb, Hg. subst b'.
        repeat split; assumption.
  - left. rewrite Reader_Read_buffered in Hr by (simpl; discriminate).
    inversion Hr. simpl. repeat split. discriminate.
Qed.

Lemma rest_of_skipn (b whole : bytes) (k : nat) :
  rest_of b whole -> rest_of (skipn k b) whole.
Proof.
  intros [served ->]. exists (served ++ firstn k b).
  rewrite <- app_assoc, firstn_skipn. reflexivity.
Qed.

(** The invariant, together with the fact that the frames still to be
    received are a rest of the frames the reader started with. *)
Lemma reads_to_invariant (r0 r : Reader CS) :
  reads_to r0 r ->
  (exists earlier : list bytes, r_src r0 = earlier ++ r_src r) /\
  carry_over_ok r0 r.
Proof.
  induction 1 as [| r r' k res Hreach [[earlier Hsrc] Hok] Hread].
  - split; [exists []; reflexivity |].
    right; left. repeat split. exists []. reflexivity.
  - destruct (Reader_Read_cases r r' k res Hread)
      as [(Hb & -> & _) | [(Hb & Hs & -> & _) |
          [(Hb & f & rest & d & d' & junk & e & Hs & Hdec & Hd & -> & _) |
           (Hb & f & rest & d & d' & pt & Hs & Hdec & Hd & -> & _)]]].
    + split; [exists earlier; assumption |].
      destruct Hok as [Hnil | [(Hs & Hdec & Hrest) | Hframe]].
      * contradiction.
      * right; left. simpl. repeat split; try assumption.
        apply rest_of_skipn. assumption.
      * right; right.
        destruct Hframe as (ea & f & d & d' & pt & H1 & H2 & H3 & H4).
        exists ea, f, d, d', pt. simpl. repeat split; try assumption.
        apply rest_of_skipn. assumption.
    + split; [exists earlier; assumption | assumption].
    + split.
      * exists (earlier ++ [f]). simpl. rewrite <- app_assoc.
        rewrite Hsrc, Hs. reflexivity.
      * left. reflexivity.
    + split.
      * exists (earlier ++ [f]). simpl. rewrite <- app_assoc.
        rewrite Hsrc, Hs. reflexivity.
      * right; right. exists earlier, f, d, d', pt. simpl.
        repeat split; try assumption.
        -- rewrite Hsrc, Hs. reflexivity.
        -- apply rest_of_skipn. exists []. reflexivity.
Qed.

End CarryOver.

(** ** Frames that do not authenticate, and empty frames *)

Section ReceivedFrames.

Context {CS : Type} `{Cipher CS}.

(** C7: when the received frame fails to decrypt, [Reader.Read],
    [ReadResponseHeader] and [ReadRequestHeader] return the decryption
    error.  The reader delivers no byte and its carry-over buffer stays
    as it was (empty); the codecs leave the header target untouched, do
    not run the deserializer and keep their body continuation. *)
Theorem decrypt_failure_is_returned (d d' : CS) (f junk : bytes)
    (e : error) :
  Decrypt d f = (d', (junk, Some e)) ->
  (forall (rest : list bytes) (k : nat),
      Reader_Read {| r_src := f :: rest; r_dec := Some d; r_buf := [] |} k =
      Returns ({| r_src := rest; r_dec := Some d'; r_buf := [] |},
               ([], Some e))) /\
  (forall (Body : Type) (r : rpcClientCodec CS Body) (rest : list bytes)
          (resp : Response),
      cc_src r = Some (f :: rest) -> cc_dec r = Some d ->
      rpcClientCodec_ReadResponseHeader r resp =
      Returns (mkClientCodec (Some rest) (cc_dst r) (cc_enc r) (Some d')
                 (cc_encode r) (cc_decode r) (cc_decode2 r),
               resp, Some e)) /\
  (forall (Body : Type) (r : rpcServerCodec CS Body) (rest : list bytes)
          (req : Request),
      sc_src r = Some (f :: rest) -> sc_dec r = Some d ->
      rpcServerCodec_ReadRequestHeader r req =
      Returns (mkServerCodec (Some rest) (sc_dst r) (sc_enc r) (Some d')
                 (sc_encode r) (sc_decode r) (sc_decode2 r),
               req, Some e)).
Proof.
  intros Hd. repeat split.
  - intros rest k. apply Reader_Read_bad_frame with (junk := junk).
    assumption.
  - intros Body r rest resp Hs Hdec.
    unfold rpcClientCodec_ReadResponseHeader.
    rewrite Hs, Hdec. simpl. rewrite Hd. reflexivity.
  - intros Body r rest req Hs Hdec.
    unfold rpcServerCodec_ReadRequestHeader.
    rewrite Hs, Hdec. simpl. rewrite Hd. reflexivity.
Qed.

Variable paired : CS -> CS -> Prop.

Hypothesis paired_step :
  forall (e d : CS) (p : bytes),
    paired e d ->
    exists d' : CS,
      Decrypt d (snd (Encrypt e p)) = (d', (p, None)) /\
      paired (fst (Encrypt e p)) d'.

(** C10: a [Read] with a non-empty destination on an empty carry-over
    buffer, receiving a frame that decrypts to the empty plaintext,
    returns no byte with [io.EOF]; it consumes that one frame and leaves
    the frames behind it unread.  The frame a peer's [Write] of zero
    bytes puts on the wire is such a frame. *)
Theorem empty_frame_reads_as_eof :
  (forall (d d' : CS) (f : bytes) (rest : list bytes) (k : nat),
      Decrypt d f = (d', ([], None)) ->
      (0 < k)%nat ->
      Reader_Read {| r_src := f :: rest; r_dec := Some d; r_buf := [] |} k =
      Returns ({| r_src := rest; r_dec := Some d'; r_buf := [] |},
               ([], Some io_EOF))) /\
  (forall (e d : CS) (dst : Encoder) (rest : list bytes) (k : nat),
      paired e d ->
      (0 < quota dst)%nat ->
      (0 < k)%nat ->
      exists (w' : Writer CS) (f : bytes) (d' : CS),
        Writer_Write (NewWriter dst (Some e)) [] = Returns (w', (0, None)) /\
        sent (w_dst w') = sent dst ++ [f] /\
        Reader_Read {| r_src := f :: rest; r_dec := Some d; r_buf := [] |} k =
        Returns ({| r_src := rest; r_dec := Some d'; r_buf := [] |},
                 ([], Some io_EOF))).
Proof.
  assert (Hfirst :
    forall (d d' : CS) (f : bytes) (rest : list bytes) (k : nat),
      Decrypt d f = (d', ([], None)) ->
      (0 < k)%nat ->
      Reader_Read {| r_src := f :: rest; r_dec := Some d; r_buf := [] |} k =
      Returns ({| r_src := rest; r_dec := Some d'; r_buf := [] |},
               ([], Some io_EOF))).
  { intros d d' f rest k Hd Hk.
    rewrite (Reader_Read_frame f rest d d' [] k Hd).
    destruct k; [lia | reflexivity]. }
  split; [exact Hfirst |].
  intros e d dst rest k Hp Hq Hk.
  destruct (paired_step e d [] Hp) as (d' & Hd & _).
  destruct (quota dst) as [| q] eqn:Eq; [lia |].
  unfold NewWriter. rewrite (Writer_Write_ok dst e [] q Eq).
  eexists _, (snd (Encrypt e [])), d'. simpl.
  repeat split. apply Hfirst; assumption.
Qed.

End ReceivedFrames.

(** ** The loops written with [DecodeOpaque] *)

Section LoopEquations.

Context {HS CS : Type} `{Engine HS CS}.

(** One iteration of the loop of [Connection.Handshake], with the call of
    [src.DecodeOpaque()] in place. *)
Lemma conn_loop_equation (l : Z) (src : Decoder) (state : bool)
    (v : hs_vars HS CS) :
  conn_loop l src state v =
  match (if state then conn_write_step l v else Continue v) with
  | Break v => Finished src v
  | Fail v e => Failed src v e
  | StepPanics x => LoopPanics x
  | Continue v =>
      let '(src', (buf, e)) := DecodeOpaque src in
      match e with
      | Some e => Failed src' v e
      | None =>
          match conn_read_step buf v with
          | Break v => Finished src' v
          | Fail v e => Failed src' v e
          | StepPanics x => LoopPanics x
          | Continue v => conn_loop l src' true v
          end
      end
  end.
Proof. destruct src; reflexivity. Qed.

Lemma client_loop_equation (Body : Type) (src : Decoder) (state : bool)
    (v : HS * Encoder * rpcClientCodec CS Body) :
  client_loop src state v =
  match (if state then client_write_step v else Continue v) with
  | Break v => Finished src v
  | Fail v e => Failed src v e
  | StepPanics x => LoopPanics x
  | Continue v =>
      let '(src', (buf, e)) := DecodeOpaque src in
      match e with
      | Some e => Failed src' v e
      | None =>
          match client_read_step buf v with
          | Break v => Finished src' v
          | Fail v e => Failed src' v e
          | StepPanics x => LoopPanics x
          | Continue v => client_loop src' true v
          end
      end
  end.
Proof. destruct src; reflexivity. Qed.

Lemma server_loop_equation (Body : Type) (src : Decoder) (state : bool)
    (v : HS * Encoder * rpcServerCodec CS Body) :
  server_loop src state v =
  match (if state then server_write_step v else Continue v) with
  | Break v => Finished src v
  | Fail v e => Failed src v e
  | StepPanics x => LoopPanics x
  | Continue v =>
      let '(src', (buf, e)) := DecodeOpaque src in
      match e with
      | Some e => Failed src' v e
      | None =>
          match server_read_step buf v with
          | Break v => Finished src' v
          | Fail v e => Failed src' v e
          | StepPanics x => LoopPanics x
          | Continue v => server_loop src' true v
          end
      end
  end.
Proof. destruct src; reflexivity. Qed.

End LoopEquations.

(** ** Which cipher state is bound to which direction *)

Section CipherPositions.

Context {HS CS : Type} `{Cipher CS} `{Engine HS CS}.

Lemma client_write_step_break (Body : Type) (hs hs' : HS)
    (dst dst' : Encoder) (r r' : rpcClientCodec CS Body) :
  client_write_step (hs, dst, r) = Break (hs', dst', r') ->
  (exists buf : bytes,
      WriteMessage hs [] = (hs', (buf, cc_enc r', cc_dec r'))) /\
  cc_enc r' <> None.
Proof.
  unfold client_write_step.
  destruct (WriteMessage hs []) as [hs1 [[buf enc] dec]].
  destruct (EncodeOpaque dst buf) as [dst1 [e |]]; [discriminate |].
  simpl. destruct enc as [c |]; [| discriminate].
  intros Hb. inversion Hb; subst. simpl.
  split; [exists buf; reflexivity | discriminate].
Qed.

Lemma client_read_step_break (Body : Type) (f : bytes) (hs hs' : HS)
    (dst dst' : Encoder) (r r' : rpcClientCodec CS Body) :
  client_read_step f (hs, dst, r) = Break (hs', dst', r') ->
  (exists buf : bytes,
      ReadMessage hs f = (hs', (buf, cc_enc r', cc_dec r', None))) /\
  cc_enc r' <> None.
Proof.
  unfold client_read_step.
  destruct (ReadMessage hs f) as [hs1 [[[buf enc] dec] [e |]]];
    [discriminate |].
  simpl. destruct enc as [c |]; [| discriminate].
  intros Hb. inversion Hb; subst. simpl.
  split; [exists buf; reflexivity | discriminate].
Qed.

Lemma server_write_step_break (Body : Type) (hs hs' : HS)
    (dst dst' : Encoder) (r r' : rpcServerCodec CS Body) :
  server_write_step (hs, dst, r) = Break (hs', dst', r') ->
  (exists buf : bytes,
      WriteMessage hs [] = (hs', (buf, sc_dec r', sc_enc r'))) /\
  sc_enc r' <> None.
Proof.
  unfold server_write_step.
  destruct (WriteMessage hs []) as [hs1 [[buf dec] enc]].
  destruct (EncodeOpaque dst buf) as [dst1 [e |]]; [discriminate |].
  simpl. destruct enc as [c |]; [| discriminate].
  intros Hb. inversion Hb; subst. simpl.
  split; [exists buf; reflexivity | discriminate].
Qed.

Lemma server_read_step_break (Body : Type) (f : bytes) (hs hs' : HS)
    (dst dst' : Encoder) (r r' : rpcServerCodec CS Body) :
  server_read_step f (hs, dst, r) = Break (hs', dst', r') ->
  (exists buf : bytes,
      ReadMessage hs f = (hs', (buf, sc_dec r', sc_enc r', None))) /\
  sc_enc r' <> None.
Proof.
  unfold server_read_step.
  destruct (ReadMessage hs f) as [hs1 [[[buf dec] enc] [e |]]];
    [discriminate |].
  simpl. destruct enc as [c |]; [| discriminate].
  intros Hb. inversion Hb; subst. simpl.
  split; [exists buf; reflexivity | discriminate].
Qed.

Lemma conn_write_step_break (l : Z) (v v' : hs_vars HS CS) :
  conn_write_step l v = Break v' ->
  (exists payload buf : bytes,
      WriteMessage (v_hs v) payload = (v_hs v', (buf, v_o v', v_i v'))) /\
  v_o v' <> None.
Proof.
  unfold conn_write_step.
  destruct (Buffer.Next (v_outbuf v) l) as [[chunk ob] | x]; [| discriminate].
  destruct (WriteMessage (v_hs v) chunk) as [hs1 [[buf o] i]] eqn:Hw.
  destruct (EncodeOpaque (v_dst v) buf) as [dst1 [e |]]; [discriminate |].
  destruct o as [c |]; [| discriminate].
  intros Hb. inversion Hb; subst. simpl.
  split; [exists chunk, buf; assumption | discriminate].
Qed.

Lemma conn_read_step_break (f : bytes) (v v' : hs_vars HS CS) :
  conn_read_step f v = Break v' ->
  (exists buf : bytes,
      ReadMessage (v_hs v) f = (v_hs v', (buf, v_i v', v_o v', None))) /\
  v_o v' <> None.
Proof.
  unfold conn_read_step.
  destruct (ReadMessage (v_hs v) f) as [hs1 [[[buf i] o] [e |]]] eqn:Hr;
    [discriminate |].
  destruct o as [c |]; [| discriminate].
  intros Hb. inversion Hb; subst. simpl.
  split; [exists buf; reflexivity | discriminate].
Qed.

(** A loop that finishes does so in one of its two halves. *)
Lemma client_loop_finished (Body : Type) (src : Decoder) :
  forall (state : bool) (v : HS * Encoder * rpcClientCodec CS Body)
         (src' : Decoder) (hs' : HS) (dst' : Encoder)
         (r' : rpcClientCodec CS Body),
    client_loop src state v = Finished src' (hs', dst', r') ->
    (by_write hs' (cc_enc r') (cc_dec r') \/
     by_read hs' (cc_enc r') (cc_dec r')) /\
    cc_enc r' <> None.
Proof.
  induction src as [| f rest IH]; intros state v src' hs' dst' r' Hl;
    simpl in Hl.
  - destruct state.
    + destruct (client_write_step v) as [v1 | v1 | v1 e | x] eqn:Hw;
        try discriminate.
      inversion Hl; subst. destruct v as [[hs dst] r].
      destruct (client_write_step_break Body hs hs' dst dst' r r' Hw)
        as [[buf Hm] Hne].
      split; [left; exists hs, [], buf; assumption | assumption].
    + discriminate.
  - assert (Hread : forall v1,
               match client_read_step f v1 with
               | Break v => Finished rest v
               | Continue v => client_loop rest true v
               | Fail v e => Failed rest v e
               | StepPanics x => LoopPanics x
               end = Finished src' (hs', dst', r') ->
               (by_write hs' (cc_enc r') (cc_dec r') \/
                by_read hs' (cc_enc r') (cc_dec r')) /\
               cc_enc r' <> None).
    { intros v1 Hm.
      destruct (client_read_step f v1) as [v2 | v2 | v2 e | x] eqn:Hr;
        try discriminate.
      - inversion Hm; subst. destruct v1 as [[hs dst] r].
        destruct (client_read_step_break Body f hs hs' dst dst' r r' Hr)
          as [[buf Hrm] Hne].
        split; [right; exists hs, f, buf; assumption | assumption].
      - apply (IH true v2 src' hs' dst' r' Hm). }
    destruct state.
    + destruct (client_write_step v) as [v1 | v1 | v1 e | x] eqn:Hw;
        try discriminate.
      * inversion Hl; subst. destruct v as [[hs dst] r].
        destruct (client_write_step_break Body hs hs' dst dst' r r' Hw)
          as [[buf Hm] Hne].
        split; [left; exists hs, [], buf; assumption | assumption].
      * apply (Hread v1 Hl).
    + apply (Hread v Hl).
Qed.

Lemma server_loop_finished (Body : Type) (src : Decoder) :
  forall (state : bool) (v : HS * Encoder * rpcServerCodec CS Body)
         (src' : Decoder) (hs' : HS) (dst' : Encoder)
         (r' : rpcServerCodec CS Body),
    server_loop src state v = Finished src' (hs', dst', r') ->
    (by_write hs' (sc_dec r') (sc_enc r') \/
     by_read hs' (sc_dec r') (sc_enc r')) /\
    sc_enc r' <> None.
Proof.
  induction src as [| f rest IH]; intros state v src' hs' dst' r' Hl;
    simpl in Hl.
  - destruct state.
    + destruct (server_write_step v) as [v1 | v1 | v1 e | x] eqn:Hw;
        try discriminate.
      inversion Hl; subst. destruct v as [[hs dst] r].
      destruct (server_write_step_break Body hs hs' dst dst' r r' Hw)
        as [[buf Hm] Hne].
      split; [left; exists hs, [], buf; assumption | assumption].
    + discriminate.
  - assert (Hread : forall v1,
               match server_read_step f v1 with
               | Break v => Finished rest v
               | Continue v => server_loop rest true v
               | Fail v e => Failed rest v e
               | StepPanics x => LoopPanics x
               end = Finished src' (hs', dst', r') ->
               (by_write hs' (sc_dec r') (sc_enc r') \/
                by_read hs' (sc_dec r') (sc_enc r')) /\
               sc_enc r' <> None).
    { intros v1 Hm.
      destruct (server_read_step f v1) as [v2 | v2 | v2 e | x] eqn:Hr;
        try discriminate.
      - inversion Hm; subst. destruct v1 as [[hs dst] r].
        destruct (server_read_step_break Body f hs hs' dst dst' r r' Hr)
          as [[buf Hrm] Hne].
        split; [right; exists hs, f, buf; assumption | assumption].
      - apply (IH true v2 src' hs' dst' r' Hm). }
    destruct state.
    + destruct (server_write_step v) as [v1 | v1 | v1 e | x] eqn:Hw;
        try discriminate.
      * inversion Hl; subst. destruct v as [[hs dst] r].
        destruct (server_write_step_break Body hs hs' dst dst' r r' Hw)
          as [[buf Hm] Hne].
        split; [left; exists hs, [], buf; assumption | assumption].
      * apply (Hread v1 Hl).
    + apply (Hread v Hl).
Qed.

Lemma conn_loop_finished (l : Z) (src : Decoder) :
  forall (state : bool) (v v' : hs_vars HS CS) (src' : Decoder),
    conn_loop l src state v = Finished src' v' ->
    (by_write (v_hs v') (v_o v') (v_i v') \/
     by_read (v_hs v') (v_i v') (v_o v')) /\
    v_o v' <> None.
Proof.
  induction src as [| f rest IH]; intros state v v' src' Hl; simpl in Hl.
  - destruct state.
    + destruct (conn_write_step l v) as [v1 | v1 | v1 e | x] eqn:Hw;
        try discriminate.
      inversion Hl; subst.
      destruct (conn_write_step_break l v v' Hw) as [(p & buf & Hm) Hne].
      split; [left; exists (v_hs v), p, buf; assumption | assumption].
    + discriminate.
  - assert (Hread : forall v1,
               match conn_read_step f v1 with
               | Break v => Finished rest v
               | Continue v => conn_loop l rest true v
               | Fail v e => Failed rest v e
               | StepPanics x => LoopPanics x
               end = Finished src' v' ->
               (by_write (v_hs v') (v_o v') (v_i v') \/
                by_read (v_hs v') (v_i v') (v_o v')) /\
               v_o v' <> None).
    { intros v1 Hm.
      destruct (conn_read_step f v1) as [v2 | v2 | v2 e | x] eqn:Hr;
        try discriminate.
      - inversion Hm; subst.
        destruct (conn_read_step_break f v1 v' Hr) as [[buf Hrm] Hne].
        split; [right; exists (v_hs v1), f, buf; assumption | assumption].
      - apply (IH true v2 v' src' Hm). }
    destruct state.
    + destruct (conn_write_step l v) as [v1 | v1 | v1 e | x] eqn:Hw;
        try discriminate.
      * inversion Hl; subst.
        destruct (conn_write_step_break l v v' Hw) as [(p & buf & Hm) Hne].
        split; [left; exists (v_hs v), p, buf; assumption | assumption].
      * apply (Hread v1 Hl).
    + apply (Hread v Hl).
Qed.

(** What a successful [Handshake] installs. *)
Lemma Connection_Handshake_success (c : Connection CS) (src : Decoder)
    (dst : Encoder) (nc : Config) (res : handshake_result CS) :
  Connection_Handshake c src dst nc = Returns res ->
  res_err res = None ->
  exists (ob ib : Buffer.t) (l : Z) (v : hs_vars HS CS),
    outbuf c = Some ob /\ inbuf c = Some ib /\
    chunk_size (Initiator nc)
      (Z.of_nat (length (Messages (Pattern nc)))) (Buffer.Len ob)
    = Returns l /\
    conn_loop l src (Initiator nc)
      {| v_hs := NewHandshakeState nc; v_outbuf := ob; v_inbuf := ib;
         v_dst := dst; v_o := None; v_i := None |}
    = Finished (res_src res) v /\
    res_dst res = v_dst v /\
    res_conn res =
    {| c_Writer := Writer_stream {| w_dst := v_dst v; w_enc := v_o v |};
       c_Reader := Reader_stream {| r_src := res_src res; r_dec := v_i v;
                                    r_buf := v_inbuf v |};
       outbuf := None; inbuf := None |}.
Proof.
  unfold Connection_Handshake. intros Hh Herr.
  destruct (outbuf c) as [ob |]; [| discriminate].
  destruct (inbuf c) as [ib |]; [| discriminate].
  destruct (chunk_size _ _ _) as [l | x] eqn:Hc; [| discriminate].
  destruct (conn_loop _ _ _ _) as [src' v | src' v e | x] eqn:Hl;
    try discriminate.
  - inversion Hh; subst. exists ob, ib, l, v. simpl.
    repeat split; assumption.
  - inversion Hh; subst. simpl in Herr. discriminate.
Qed.

(** C2 (as the code has it): when a handshake loop completes, the two
    cipher states installed are those returned by one call of the engine,
    in these positions.  The client codec takes the first cipher result
    as [enc] and the second as [dec], for [WriteMessage] and for
    [ReadMessage].  The server codec takes the first as [dec] and the
    second as [enc], for both calls.  [Connection.Handshake] gives the
    [Writer] the first result of [WriteMessage] and the [Reader] the
    second, but gives the [Reader] the first result of [ReadMessage] and
    the [Writer] the second.  In each loop the state installed for
    encryption is not nil. *)
Theorem cipher_positions_by_loop :
  (forall (Body : Type) (r r' : rpcClientCodec CS Body) (src src' : Decoder)
          (dst dst' : Encoder) (nc : Config),
      rpcClientCodec_handshake r src dst nc = Returns (r', src', dst', None) ->
      exists hs' : HS,
        (by_write hs' (cc_enc r') (cc_dec r') \/
         by_read hs' (cc_enc r') (cc_dec r')) /\
        cc_enc r' <> None) /\
  (forall (Body : Type) (r r' : rpcServerCodec CS Body) (src src' : Decoder)
          (dst dst' : Encoder) (nc : Config),
      rpcServerCodec_handshake r src dst nc = Returns (r', src', dst', None) ->
      exists hs' : HS,
        (by_write hs' (sc_dec r') (sc_enc r') \/
         by_read hs' (sc_dec r') (sc_enc r')) /\
        sc_enc r' <> None) /\
  (forall (c : Connection CS) (src : Decoder) (dst : Encoder) (nc : Config)
          (res : handshake_result CS),
      Connection_Handshake c src dst nc = Returns res ->
      res_err res = None ->
      exists (w : Writer CS) (r : Reader CS) (hs' : HS),
        c_Writer (res_conn res) = Writer_stream w /\
        c_Reader (res_conn res) = Reader_stream r /\
        (by_write hs' (w_enc w) (r_dec r) \/
         by_read hs' (r_dec r) (w_enc w)) /\
        w_enc w <> None).
Proof.
  repeat split.
  - intros Body r r' src src' dst dst' nc Hh.
    unfold rpcClientCodec_handshake in Hh.
    destruct (client_loop _ _ _) as [s [[hs1 d1] r1] | s [[hs1 d1] r1] e | x]
      eqn:Hl; try discriminate.
    inversion Hh; subst. exists hs1.
    apply (client_loop_finished Body src _ _ _ _ _ _ Hl).
  - intros Body r r' src src' dst dst' nc Hh.
    unfold rpcServerCodec_handshake in Hh.
    destruct (server_loop _ _ _) as [s [[hs1 d1] r1] | s [[hs1 d1] r1] e | x]
      eqn:Hl; try discriminate.
    inversion Hh; subst. exists hs1.
    apply (server_loop_finished Body src _ _ _ _ _ _ Hl).
  - intros c src dst nc res Hh Herr.
    destruct (Connection_Handshake_success c src dst nc res Hh Herr)
      as (ob & ib & l & v & _ & _ & _ & Hl & _ & Hc).
    rewrite Hc. simpl. eexists _, _, (v_hs v).
    split; [reflexivity |]. split; [reflexivity |]. simpl.
    apply (conn_loop_finished l src _ _ _ _ Hl).
Qed.

End CipherPositions.

(** ** The lifetime of a reader *)

Section ReaderLifetime.

Context {HS CS : Type} `{Cipher CS} `{Engine HS CS}.

Lemma conn_write_step_inbuf (l : Z) (v v' : hs_vars HS CS) :
  conn_write_step l v = Break v' \/ conn_write_step l v = Continue v' ->
  v_inbuf v' = v_inbuf v.
Proof.
  unfold conn_write_step.
  destruct (Buffer.Next (v_outbuf v) l) as [[chunk ob] | x];
    [| intros [Hs | Hs]; discriminate].
  destruct (WriteMessage (v_hs v) chunk) as [hs1 [[buf o] i]].
  destruct (EncodeOpaque (v_dst v) buf) as [dst1 [e |]];
    [intros [Hs | Hs]; discriminate |].
  destruct o; intros [Hs | Hs]; inversion Hs; reflexivity.
Qed.

Lemma conn_read_step_inbuf (f : bytes) (v v' : hs_vars HS CS) :
  conn_read_step f v = Break v' \/ conn_read_step f v = Continue v' ->
  exists (p : bytes) (hs' : HS) (a b : option CS),
    ReadMessage (v_hs v) f = (hs', (p, a, b, None)) /\
    v_inbuf v' = v_inbuf v ++ p.
Proof.
  unfold conn_read_step.
  destruct (ReadMessage (v_hs v) f) as [hs1 [[[buf i] o] [e |]]];
    [intros [Hs | Hs]; discriminate |].
  intros Hs. exists buf, hs1, i, o.
  destruct o; destruct Hs as [Hs | Hs]; inversion Hs; split; reflexivity.
Qed.

(** When the loop finishes, the inbound staging buffer has grown by the
    payloads of the handshake frames received, one per frame, in order. *)
Lemma conn_loop_inbuf (l : Z) (src : Decoder) :
  forall (state : bool) (v v' : hs_vars HS CS) (src' : Decoder),
    conn_loop l src state v = Finished src' v' ->
    exists (received payloads : list bytes),
      src = received ++ src' /\
      v_inbuf v' = v_inbuf v ++ concat payloads /\
      Forall2 (fun f p => exists (hs hs' : HS) (a b : option CS),
                   ReadMessage hs f = (hs', (p, a, b, None)))
              received payloads.
Proof.
  induction src as [| f rest IH]; intros state v v' src' Hl;
    rewrite conn_loop_equation in Hl; unfold DecodeOpaque in Hl.
  - destruct state.
    + destruct (conn_write_step l v) as [v1 | v1 | v1 e | x] eqn:Hw;
        try discriminate.
      inversion Hl; subst. exists [], []. simpl.
      rewrite app_nil_r, (conn_write_step_inbuf l v v' (or_introl Hw)).
      repeat split. constructor.
    + discriminate.
  - assert (Hread : forall v1,
               v_inbuf v1 = v_inbuf v ->
               match conn_read_step f v1 with
               | Break v => Finished rest v
               | Continue v => conn_loop l rest true v
               | Fail v e => Failed rest v e
               | StepPanics x => LoopPanics x
               end = Finished src' v' ->
               exists (received payloads : list bytes),
                 f :: rest = received ++ src' /\
                 v_inbuf v' = v_inbuf v ++ concat payloads /\
                 Forall2 (fun f p => exists (hs hs' : HS) (a b : option CS),
                              ReadMessage hs f = (hs', (p, a, b, None)))
                         received payloads).
    { intros v1 Hin Hm.
      destruct (conn_read_step f v1) as [v2 | v2 | v2 e | x] eqn:Hr;
        try discriminate.
      - inversion Hm; subst.
        destruct (conn_read_step_inbuf f v1 v' (or_introl Hr))
          as (p & hs' & a & b & Hrm & Hp).
        exists [f], [p]. simpl. rewrite app_nil_r, Hp, Hin.
        repeat split. constructor; [| constructor].
        exists (v_hs v1), hs', a, b. assumption.
      - destruct (conn_read_step_inbuf f v1 v2 (or_intror Hr))
          as (p & hs' & a & b & Hrm & Hp).
        destruct (IH true v2 v' src' Hm) as (rec & ps & Hsrc & Hbuf & Hall).
        exists (f :: rec), (p :: ps). simpl.
        rewrite Hbuf, Hp, Hin, Hsrc, <- app_assoc.
        repeat split. constructor; [| assumption].
        exists (v_hs v1), hs', a, b. assumption. }
    destruct state.
    + destruct (conn_write_step l v) as [v1 | v1 | v1 e | x] eqn:Hw;
        try discriminate.
      * inversion Hl; subst. exists [], []. simpl.
        rewrite app_nil_r, (conn_write_step_inbuf l v v' (or_introl Hw)).
        repeat split. constructor.
      * apply (Hread v1 (conn_write_step_inbuf l v v1 (or_intror Hw)) Hl).
    + apply (Hread v eq_refl Hl).
Qed.

(** C6 (as the code has it): at every point of a reader's lifetime the
    carry-over buffer is empty, or holds an unread rest of what the
    reader was created with while no frame has been received since, or
    holds an unread rest of the plaintext of the single frame received
    last.  A [Read] on a non-empty buffer touches neither the transport
    nor the cipher state; a [Read] on an empty buffer either finds no
    frame, or receives exactly one frame and decrypts it exactly once
    before serving from its plaintext.  A reader made by [NewReader] is
    created with nothing.  [Handshake] creates the reader with the entire
    inbound staging buffer: what it held before, followed by the payloads
    of all the handshake frames received, which may be several. *)
Theorem carry_over_invariant :
  (forall r0 r : Reader CS,
      reads_to r0 r ->
      carry_over_ok r0 r /\
      (r_buf r0 = [] ->
       r_buf r = [] \/
       exists (earlier : list bytes) (f : bytes) (d d' : CS) (pt : bytes),
         r_src r0 = earlier ++ f :: r_src r /\
         Decrypt d f = (d', (pt, None)) /\
         r_dec r = Some d' /\ rest_of (r_buf r) pt) /\
      (forall (k : nat) (r' : Reader CS) (res : bytes * option error),
          Reader_Read r k = Returns (r', res) ->
          (r_buf r <> [] ->
           r_src r' = r_src r /\ r_dec r' = r_dec r /\
           fst res ++ r_buf r' = r_buf r) /\
          (r_buf r = [] ->
           (r_src r = [] /\ r' = r /\ res = ([], Some (ErrTransport 0))) \/
           (exists (f : bytes) (d : CS),
               r_src r = f :: r_src r' /\ r_dec r = Some d /\
               r_dec r' = Some (fst (Decrypt d f)) /\
               (snd (snd (Decrypt d f)) = None ->
                fst res ++ r_buf r' = fst (snd (Decrypt d f))) /\
               (snd (snd (Decrypt d f)) <> None ->
                r_buf r' = [] /\ res = ([], snd (snd (Decrypt d f)))))))) /\
  (forall (src : Decoder) (dec : option CS),
      r_buf (NewReader src dec) = []) /\
  (forall (c : Connection CS) (src : Decoder) (dst : Encoder) (nc : Config)
          (res : handshake_result CS),
      Connection_Handshake c src dst nc = Returns res ->
      res_err res = None ->
      exists (r : Reader CS) (ib : Buffer.t) (received payloads : list bytes),
        c_Reader (res_conn res) = Reader_stream r /\
        inbuf c = Some ib /\
        src = received ++ r_src r /\
        r_buf r = ib ++ concat payloads /\
        Forall2 (fun f p => exists (hs hs' : HS) (a b : option CS),
                     ReadMessage hs f = (hs', (p, a, b, None)))
                received payloads).
Proof.
  split; [| split].
  - intros r0 r Hreach.
    destruct (reads_to_invariant r0 r Hreach) as [_ Hok].
    split; [assumption |]. split.
    { intros Hempty.
      destruct Hok as [Hnil | [(_ & _ & [served Hrest]) | Hframe]].
      + left. assumption.
      + left. rewrite Hempty in Hrest. symmetry in Hrest.
        apply app_eq_nil in Hrest. tauto.
      + right. assumption. }
    { intros k r' res Hread.
      destruct (Reader_Read_cases r r' k res Hread)
        as [(Hb & -> & ->) | [(Hb & Hs & -> & ->) |
            [(Hb & f & rest & d & d' & junk & e & Hs & Hdec & Hd & -> & ->) |
             (Hb & f & rest & d & d' & pt & Hs & Hdec & Hd & -> & Hres)]]].
      + split; [| contradiction]. intros _. simpl.
        repeat split. apply firstn_skipn.
      + split; [congruence |]. intros _. left. repeat split. assumption.
      + split; [congruence |]. intros _. right. exists f, d. simpl.
        rewrite Hd. simpl. repeat split; try assumption.
        * discriminate.
      + split; [congruence |]. intros _. right. exists f, d. simpl.
        rewrite Hd. simpl. repeat split; try assumption.
        * intros _. rewrite Hres. apply firstn_skipn.
        * congruence.
        * congruence. }
  - reflexivity.
  - intros c src dst nc res Hh Herr.
    destruct (Connection_Handshake_success c src dst nc res Hh Herr)
      as (ob & ib & l & v & _ & Hib & _ & Hl & _ & Hc).
    destruct (conn_loop_inbuf l src _ _ _ _ Hl)
      as (received & payloads & Hsrc & Hbuf & Hall).
    rewrite Hc. simpl.
    eexists _, ib, received, payloads.
    split; [reflexivity |]. simpl.
    repeat split; assumption.
Qed.

End ReaderLifetime.

(** ** Two endpoints running [Connection.Handshake] against each other *)

Lemma firstn_more (A : Type) (a b : nat) (l : list A) :
  firstn (a + b) l = firstn a l ++ firstn b (skipn a l).
Proof.
  revert l. induction a as [| a IH]; intros l; simpl.
  - reflexivity.
  - destruct l as [| x l]; simpl.
    + rewrite firstn_nil. reflexivity.
    + rewrite IH. reflexivity.
Qed.

Lemma skipn_more (A : Type) (a b : nat) (l : list A) :
  skipn (a + b) l = skipn b (skipn a l).
Proof.
  revert l. induction a as [| a IH]; intros l; simpl.
  - reflexivity.
  - destruct l as [| x l]; simpl.
    + rewrite skipn_nil. reflexivity.
    + apply IH.
Qed.

Section TwoEndpoints.

Context {HS CS : Type} `{Engine HS CS}.

Lemma conn_loop_write_break (l : Z) (src : Decoder) (v v' : hs_vars HS CS) :
  conn_write_step l v = Break v' ->
  conn_loop l src true v = Finished src v'.
Proof. intros Hw. destruct src; simpl; rewrite Hw; reflexivity. Qed.

Lemma conn_loop_write_continue (l : Z) (src : Decoder)
    (v v' : hs_vars HS CS) :
  conn_write_step l v = Continue v' ->
  conn_loop l src true v = conn_loop l src false v'.
Proof. intros Hw. destruct src; simpl; rewrite Hw; reflexivity. Qed.

Lemma conn_loop_read_break (l : Z) (f : bytes) (rest : Decoder)
    (v v' : hs_vars HS CS) :
  conn_read_step f v = Break v' ->
  conn_loop l (f :: rest) false v = Finished rest v'.
Proof. intros Hr. simpl. rewrite Hr. reflexivity. Qed.

Lemma conn_loop_read_continue (l : Z) (f : bytes) (rest : Decoder)
    (v v' : hs_vars HS CS) :
  conn_read_step f v = Continue v' ->
  conn_loop l (f :: rest) false v = conn_loop l rest true v'.
Proof. intros Hr. simpl. rewrite Hr. reflexivity. Qed.

(** The pattern has [total] messages.  [linked k hw hr] relates the engine
    of the side that writes message [k] to the engine of the side that
    reads it, when [k] messages have been exchanged.  The reader recovers
    the payload the writer put in, the roles then swap, and both engines
    yield their cipher states at the last message and not before; at the
    last message both calls return the same pair, in the same order. *)
Variable total : nat.
Variable linked : nat -> HS -> HS -> Prop.

Hypothesis linked_step :
  forall (k : nat) (hw hr : HS) (payload : bytes),
    linked k hw hr ->
    (k < total)%nat ->
    exists (hw' hr' : HS) (msg : bytes) (wo wi ri ro : option CS),
      WriteMessage hw payload = (hw', (msg, wo, wi)) /\
      ReadMessage hr msg = (hr', (payload, ri, ro, None)) /\
      linked (S k) hr' hw' /\
      (S k = total -> wo <> None /\ ro <> None /\ ri = wo /\ ro = wi) /\
      ((S k < total)%nat -> wo = None /\ ro = None).

(** With [d] messages left, the side whose turn it is to write sends
    [Nat.div2 (S d)] of them and the other side [Nat.div2 d].  Both loops
    finish; each consumes exactly the frames the other one sent; each
    side's inbound staging buffer grows by what the other side carved off
    its outbound staging buffer; and the cipher state each side will
    encrypt with is the one the other side will decrypt with. *)
Lemma conn_loops_meet (d : nat) :
  forall (lw lr : Z) (k : nat) (hw hr : HS) (ow orr iw ir : Buffer.t)
         (sw sr : list bytes) (qw qr : nat)
         (cw1 cw2 cr1 cr2 : option CS),
    0 <= lw -> 0 <= lr ->
    (k + d = total)%nat -> (1 <= d)%nat ->
    linked k hw hr ->
    (d <= qw)%nat -> (d <= qr)%nat ->
    exists (fw fr : list bytes) (hw' hr' : HS) (o1 i1 o2 i2 : option CS)
           (qw' qr' : nat),
      (forall restW restR : Decoder,
          conn_loop lw (fr ++ restW) true
            (mkVars hw ow iw (mkEncoder sw qw) cw1 cw2) =
          Finished restW
            (mkVars hw'
               (skipn (Z.to_nat lw * Nat.div2 (S d)) ow)
               (iw ++ firstn (Z.to_nat lr * Nat.div2 d) orr)
               (mkEncoder (sw ++ fw) qw') o1 i1) /\
          conn_loop lr (fw ++ restR) false
            (mkVars hr orr ir (mkEncoder sr qr) cr1 cr2) =
          Finished restR
            (mkVars hr'
               (skipn (Z.to_nat lr * Nat.div2 d) orr)
               (ir ++ firstn (Z.to_nat lw * Nat.div2 (S d)) ow)
               (mkEncoder (sr ++ fr) qr') o2 i2)) /\
      o1 <> None /\ o2 <> None /\ o1 = i2 /\ o2 = i1 /\
      (qw' + length fw = qw)%nat /\ (qr' + length fr = qr)%nat /\
      (length fw + length fr = d)%nat.
Proof.
  induction d as [| d IH];
    intros lw lr k hw hr ow orr iw ir sw sr qw qr cw1 cw2 cr1 cr2
           Hlw Hlr Hk Hd Hlink Hqw Hqr; [lia |].
  destruct (linked_step k hw hr (firstn (Z.to_nat lw) ow) Hlink ltac:(lia))
    as (hw' & hr' & msg & wo & wi & ri & ro & Hwm & Hrm & Hlink' & Hlast & Hmid).
  destruct qw as [| qw]; [lia |].
  assert (Hnext : Buffer.Next ow lw =
                  Returns (firstn (Z.to_nat lw) ow, skipn (Z.to_nat lw) ow)).
  { unfold Buffer.Next. destruct (Z.ltb_spec lw 0); [lia | reflexivity]. }
  destruct d as [| d].
  - (* the last message *)
    destruct (Hlast ltac:(lia)) as (Hwo & Hro & -> & <-).
    destruct wo as [wo |]; [| congruence].
    destruct ro as [ro |]; [| congruence].
    exists [msg], [], hw', hr', (Some wo), (Some ro), (Some ro), (Some wo),
      qw, qr.
    split; [| repeat split; try discriminate; simpl; lia].
    intros restW restR. split.
    + simpl app. apply conn_loop_write_break.
      unfold conn_write_step. simpl. rewrite Hnext, Hwm. simpl.
      rewrite Nat.mul_1_r, Nat.mul_0_r. simpl. rewrite app_nil_r.
      reflexivity.
    + simpl app. apply conn_loop_read_break.
      unfold conn_read_step. simpl. rewrite Hrm. simpl.
      rewrite Nat.mul_1_r, Nat.mul_0_r, app_nil_r. reflexivity.
  - (* a message in the middle: the roles swap *)
    destruct (Hmid ltac:(lia)) as [-> ->].
    destruct (IH lr lw (S k) hr' hw' orr (skipn (Z.to_nat lw) ow)
                (ir ++ firstn (Z.to_nat lw) ow) iw
                sr (sw ++ [msg]) qr qw None ri None wi
                Hlr Hlw ltac:(lia) ltac:(lia) Hlink' ltac:(lia) ltac:(lia))
      as (f1 & f2 & h1 & h2 & o1 & i1 & o2 & i2 & q1 & q2 & HAB & Ho1 & Ho2
          & Hoi1 & Hoi2 & Hq1 & Hq2 & Hlen).
    exists (msg :: f2), f1, h2, h1, o2, i2, o1, i1, q2, q1.
    assert (Hcount : Nat.div2 (S (S (S d))) = S (Nat.div2 (S d)))
      by reflexivity.
    rewrite Hcount, Nat.mul_succ_r, (Nat.add_comm _ (Z.to_nat lw)).
    rewrite skipn_more, firstn_more.
    split; [| repeat split; try assumption; simpl; lia].
    intros restW restR. destruct (HAB restR restW) as [HA HB]. split.
    + rewrite (conn_loop_write_continue lw (f1 ++ restW)
                 (mkVars hw ow iw (mkEncoder sw (S qw)) cw1 cw2)
                 (mkVars hw' (skipn (Z.to_nat lw) ow) iw
                    (mkEncoder (sw ++ [msg]) qw) None wi)).
      * rewrite HB. rewrite <- app_assoc. reflexivity.
      * unfold conn_write_step. simpl. rewrite Hnext, Hwm. reflexivity.
    + simpl app.
      rewrite (conn_loop_read_continue lr msg (f2 ++ restR)
                 (mkVars hr orr ir (mkEncoder sr qr) cr1 cr2)
                 (mkVars hr' orr (ir ++ firstn (Z.to_nat lw) ow)
                    (mkEncoder sr qr) None ri)).
      * rewrite HA. rewrite <- app_assoc. reflexivity.
      * unfold conn_read_step. simpl. rewrite Hrm. reflexivity.
Qed.

Lemma sends_div2 (initiator : bool) (n : nat) :
  sends initiator (Z.of_nat n) =
  Z.of_nat (if initiator then Nat.div2 (S n) else Nat.div2 n).
Proof.
  unfold sends. destruct initiator; rewrite Nat.div2_div, Nat2Z.inj_div.
  - rewrite Nat2Z.inj_succ. reflexivity.
  - reflexivity.
Qed.

(** The chunk size of a side that sends at least one message covers its
    staged data in the messages it sends. *)
Lemma chunk_size_covers (initiator : bool) (n : nat) (ob : Buffer.t) :
  Z.of_nat n < 2 ^ 50 -> Buffer.Len ob < 2 ^ 62 ->
  (0 < (if initiator then Nat.div2 (S n) else Nat.div2 n))%nat ->
  exists l : Z,
    chunk_size initiator (Z.of_nat n) (Buffer.Len ob) = Returns l /\
    0 <= l /\
    (length ob <=
     Z.to_nat l * (if initiator then Nat.div2 (S n) else Nat.div2 n))%nat.
Proof.
  intros Hn Hl Hs. unfold Buffer.Len in *.
  set (L := Z.of_nat (length ob)) in *.
  assert (HL : 0 <= L) by (unfold L; lia).
  rewrite chunk_size_unfold by lia. cbv zeta. rewrite sends_div2.
  set (m := if initiator then Nat.div2 (S n) else Nat.div2 n) in *.
  assert (Hcover : forall l : Z, 0 <= l -> L <= Z.of_nat m * l ->
                     (length ob <= Z.to_nat l * m)%nat).
  { intros l Hl0 Hle. apply Nat2Z.inj_le.
    rewrite Nat2Z.inj_mul, Z2Nat.id by assumption. fold L. lia. }
  destruct (Z.gtb_spec L 4096) as [Hbig | Hsmall].
  - destruct (Z.ltb_spec (Z.of_nat m * 4096) L) as [Hover | Hfit].
    + destruct (Z.eqb_spec (Z.of_nat m) 0) as [Hz | Hnz]; [lia |].
      exists (L / Z.of_nat m + 1). split; [reflexivity |].
      assert (0 <= L / Z.of_nat m) by (apply Z.div_pos; lia).
      split; [lia |]. apply Hcover; [lia |].
      pose proof (Z.div_mod L (Z.of_nat m) Hnz) as Hdm.
      pose proof (Z.mod_pos_bound L (Z.of_nat m) ltac:(lia)) as Hb. lia.
    + exists 4096. split; [reflexivity |]. split; [lia |].
      apply Hcover; lia.
  - exists L. split; [reflexivity |]. split; [assumption |].
    apply Hcover; [assumption | nia].
Qed.

(** Both endpoints of a pattern of at least two messages: the two calls
    of [Handshake] succeed, each consuming exactly the frames the other
    sent, whatever frames follow them; each loop ends with its outbound
    staging buffer empty; each side's writer holds the cipher state the
    other side's reader holds; and each side's reader starts with exactly
    the bytes the other side staged. *)
Lemma handshake_delivers_staged (ncI ncR : Config) (obI obR : Buffer.t)
    (cI cR : Connection CS) (dstI dstR : Encoder) :
  Initiator ncI = true -> Initiator ncR = false ->
  length (Messages (Pattern ncI)) = total ->
  length (Messages (Pattern ncR)) = total ->
  linked 0 (NewHandshakeState ncI) (NewHandshakeState ncR) ->
  (2 <= total)%nat -> Z.of_nat total < 2 ^ 50 ->
  outbuf cI = Some obI -> inbuf cI = Some Buffer.empty ->
  outbuf cR = Some obR -> inbuf cR = Some Buffer.empty ->
  Buffer.Len obI < 2 ^ 62 -> Buffer.Len obR < 2 ^ 62 ->
  (total <= quota dstI)%nat -> (total <= quota dstR)%nat ->
  exists (fIR fRI : list bytes) (lI lR : Z) (vI vR : hs_vars HS CS),
    chunk_size true (Z.of_nat total) (Buffer.Len obI) = Returns lI /\
    chunk_size false (Z.of_nat total) (Buffer.Len obR) = Returns lR /\
    v_outbuf vI = [] /\ v_outbuf vR = [] /\
    v_o vI = v_i vR /\ v_o vR = v_i vI /\
    v_o vI <> None /\ v_o vR <> None /\
    sent (v_dst vI) = sent dstI ++ fIR /\
    sent (v_dst vR) = sent dstR ++ fRI /\
    (quota (v_dst vI) + length fIR = quota dstI)%nat /\
    (quota (v_dst vR) + length fRI = quota dstR)%nat /\
    (length fIR + length fRI = total)%nat /\
    forall restI restR : Decoder,
      conn_loop lI (fRI ++ restI) true
        (mkVars (NewHandshakeState ncI) obI Buffer.empty dstI None None)
      = Finished restI vI /\
      conn_loop lR (fIR ++ restR) false
        (mkVars (NewHandshakeState ncR) obR Buffer.empty dstR None None)
      = Finished restR vR /\
      Connection_Handshake cI (fRI ++ restI) dstI ncI =
      Returns {| res_conn :=
                   {| c_Writer := Writer_stream
                                    (NewWriter (v_dst vI) (v_o vI));
                      c_Reader := Reader_stream
                                    {| r_src := restI; r_dec := v_i vI;
                                       r_buf := obR |};
                      outbuf := None; inbuf := None |};
                 res_src := restI; res_dst := v_dst vI; res_err := None |} /\
      Connection_Handshake cR (fIR ++ restR) dstR ncR =
      Returns {| res_conn :=
                   {| c_Writer := Writer_stream
                                    (NewWriter (v_dst vR) (v_o vR));
                      c_Reader := Reader_stream
                                    {| r_src := restR; r_dec := v_i vR;
                                       r_buf := obI |};
                      outbuf := None; inbuf := None |};
                 res_src := restR; res_dst := v_dst vR; res_err := None |}.
Proof.
  intros HI HR HmI HmR Hlink Htot Hbound HoI HiI HoR HiR HlI HlR HqI HqR.
  assert (HnI : (0 < Nat.div2 (S total))%nat)
    by (rewrite Nat.div2_div; apply Nat.div_str_pos; lia).
  assert (HnR : (0 < Nat.div2 total)%nat)
    by (rewrite Nat.div2_div; apply Nat.div_str_pos; lia).
  destruct (chunk_size_covers true total obI Hbound HlI HnI)
    as (lI & HcI & HlI0 & HcovI).
  destruct (chunk_size_covers false total obR Hbound HlR HnR)
    as (lR & HcR & HlR0 & HcovR).
  destruct dstI as [sI qI]. destruct dstR as [sR qR]. simpl in HqI, HqR.
  destruct (conn_loops_meet total lI lR 0 (NewHandshakeState ncI)
              (NewHandshakeState ncR) obI obR Buffer.empty Buffer.empty
              sI sR qI qR None None None None
              HlI0 HlR0 ltac:(lia) ltac:(lia) Hlink HqI HqR)
    as (fw & fr & hw' & hr' & o1 & i1 & o2 & i2 & qw' & qr' & HAB & Hn1 & Hn2
        & Hoi1 & Hoi2 & Hq1 & Hq2 & Hlen).
  exists fw, fr, lI, lR,
    (mkVars hw' [] obR (mkEncoder (sI ++ fw) qw') o1 i1),
    (mkVars hr' [] obI (mkEncoder (sR ++ fr) qr') o2 i2).
  split; [exact HcI |]. split; [exact HcR |].
  split; [reflexivity |]. split; [reflexivity |].
  split; [exact Hoi1 |]. split; [exact Hoi2 |].
  split; [exact Hn1 |]. split; [exact Hn2 |].
  split; [reflexivity |]. split; [reflexivity |].
  split; [exact Hq1 |]. split; [exact Hq2 |]. split; [exact Hlen |].
  intros restI restR. destruct (HAB restI restR) as [HA HB].
  rewrite (skipn_all2 obI HcovI), (firstn_all2 obR HcovR) in HA.
  rewrite (skipn_all2 obR HcovR), (firstn_all2 obI HcovI) in HB.
  simpl app in HA, HB.
  split; [exact HA |]. split; [exact HB |].
  split.
  - unfold Connection_Handshake. rewrite HoI, HiI, HI, HmI, HcI, HA.
    reflexivity.
  - unfold Connection_Handshake. rewrite HoR, HiR, HR, HmR, HcR, HB.
    reflexivity.
Qed.

End TwoEndpoints.

(** ** Reading what [Handshake] seeded *)

Section Seeded.

Context {CS : Type} `{Cipher CS}.

(** Reads that together ask for exactly the bytes in the carry-over
    buffer deliver them in order and leave the transport and the cipher
    state untouched. *)
Lemma read_seq_seeded (ks : list nat) :
  forall (b : bytes) (src : Decoder) (dec : option CS),
    Forall (fun k => (0 < k)%nat) ks ->
    list_sum ks = length b ->
    read_seq {| r_src := src; r_dec := dec; r_buf := b |} ks =
    Returns ({| r_src := src; r_dec := dec; r_buf := [] |}, b).
Proof.
  induction ks as [| k ks IH]; intros b src dec Hpos Hsum.
  - simpl in Hsum. destruct b; [reflexivity | discriminate].
  - inversion Hpos as [| ? ? Hk Hks]; subst. simpl in Hsum.
    assert (Hb : b <> []) by (intros ->; simpl in Hsum; lia).
    simpl. rewrite Reader_Read_buffered by assumption. simpl.
    rewrite IH; [rewrite firstn_skipn; reflexivity | assumption |].
    rewrite length_skipn. lia.
Qed.

End Seeded.

(** ** Envelopes through the serializer bindings *)

Section Envelopes.

Variable Body : Type.

(** The shape shared by the eight binding functions: header then body
    into one buffer; header read at once, body read by the closure. *)
Lemma envelope_law (S : Serializer Body)
    (in_step : enc_state S -> dec_state S -> Prop)
    (k : kind) (h : value Body k) (i : Body) (b : bytes) :
  round_trips S in_step ->
  (let '(enc, err) := Encode S k (NewEncoder S Buffer.empty) h in
   match err with
   | Some e => ([], Some e)
   | None =>
       let '(enc, err) := Encode S KBody enc i in
       match err with
       | Some e => ([], Some e)
       | None => (snd enc, None)
       end
   end) = (b, None) ->
  forall (h0 : value Body k) (i0 : Body),
  exists (dec dec' : decoder S),
    Decode S k (NewDecoder S b) h0 = (dec, (h, None)) /\
    Decode S KBody dec i0 = (dec', (i, None)).
Proof.
  intros [Hnew Hstep] Henc h0 i0.
  unfold Encode, NewEncoder, Buffer.empty, Buffer.Write in Henc.
  destruct (marshal S k (enc_new S) h) as [es1 [w1 [e1 |]]] eqn:Hm1;
    [discriminate |].
  destruct (marshal S KBody es1 i) as [es2 [w2 [e2 |]]] eqn:Hm2;
    [discriminate |].
  simpl in Henc. inversion Henc; subst b.
  destruct (Hstep k _ _ _ _ _ Hnew Hm1 w2 h0) as (ds1 & Hu1 & Hs1).
  destruct (Hstep KBody _ _ _ _ _ Hs1 Hm2 [] i0) as (ds2 & Hu2 & Hs2).
  rewrite app_nil_r in Hu2.
  exists (ds1, w2), (ds2, []).
  unfold Decode, NewDecoder. rewrite Hu1, Hu2. split; reflexivity.
Qed.

Lemma call_body_closure (S : Serializer Body) (dec dec' : decoder S)
    (i i0 : Body) (err : option error) :
  Decode S KBody dec i0 = (dec', (i, err)) ->
  call_closure (body_closure S dec) i0 = (body_closure S dec', (i, err)).
Proof.
  intros Hd. unfold call_closure, body_closure. simpl. rewrite Hd.
  reflexivity.
Qed.

Variables xdr gob : Serializer Body.
Variable xdr_in_step : enc_state xdr -> dec_state xdr -> Prop.
Variable gob_in_step : enc_state gob -> dec_state gob -> Prop.

Hypothesis xdr_round_trips : round_trips xdr xdr_in_step.
Hypothesis gob_round_trips : round_trips gob gob_in_step.

(** The functions alone: for the XDR and the gob binding, for requests
    and for responses: when the encode function succeeds on a header and
    a body, the decode function applied to the bytes returns that header
    with no error, and the closure it returns decodes that body with no
    error.  [encode_follows_marshal] says when encode succeeds. *)
Theorem envelope_round_trip :
  (forall (r : Request) (i : Body) (b : bytes),
      xdrEncReq xdr r i = (b, None) ->
      forall (r0 : Request) (i0 : Body),
      exists k k' : closure Body,
        xdrDecReq xdr b r0 = (None, r, k) /\
        call_closure k i0 = (k', (i, None))) /\
  (forall (r : Response) (i : Body) (b : bytes),
      xdrEncResp xdr r i = (b, None) ->
      forall (r0 : Response) (i0 : Body),
      exists k k' : closure Body,
        xdrDecResp xdr b r0 = (None, r, k) /\
        call_closure k i0 = (k', (i, None))) /\
  (forall (r : Request) (i : Body) (b : bytes),
      gobEncReq gob r i = (b, None) ->
      forall (r0 : Request) (i0 : Body),
      exists k k' : closure Body,
        gobDecReq gob b r0 = (None, r, k) /\
        call_closure k i0 = (k', (i, None))) /\
  (forall (r : Response) (i : Body) (b : bytes),
      gobEncResp gob r i = (b, None) ->
      forall (r0 : Response) (i0 : Body),
      exists k k' : closure Body,
        gobDecResp gob b r0 = (None, r, k) /\
        call_closure k i0 = (k', (i, None))).
Proof.
  repeat split.
  - intros r i b Henc r0 i0.
    destruct (envelope_law xdr xdr_in_step KRequest r i b xdr_round_trips
                Henc r0 i0) as (dec & dec' & Hh & Hb).
    exists (body_closure xdr dec), (body_closure xdr dec').
    unfold xdrDecReq. rewrite Hh.
    split; [reflexivity | apply call_body_closure; assumption].
  - intros r i b Henc r0 i0.
    destruct (envelope_law xdr xdr_in_step KResponse r i b xdr_round_trips
                Henc r0 i0) as (dec & dec' & Hh & Hb).
    exists (body_closure xdr dec), (body_closure xdr dec').
    unfold xdrDecResp. rewrite Hh.
    split; [reflexivity | apply call_body_closure; assumption].
  - intros r i b Henc r0 i0.
    destruct (envelope_law gob gob_in_step KRequest r i b gob_round_trips
                Henc r0 i0) as (dec & dec' & Hh & Hb).
    exists (body_closure gob dec), (body_closure gob dec').
    unfold gobDecReq. rewrite Hh.
    split; [reflexivity | apply call_body_closure; assumption].
  - intros r i b Henc r0 i0.
    destruct (envelope_law gob gob_in_step KResponse r i b gob_round_trips
                Henc r0 i0) as (dec & dec' & Hh & Hb).
    exists (body_closure gob dec), (body_closure gob dec').
    unfold gobDecResp. rewrite Hh.
    split; [reflexivity | apply call_body_closure; assumption].
Qed.

End Envelopes.

(** ** A call and its reply through the two adapters *)

Section Bridge.

Context {CS : Type} `{Cipher CS}.
Variable Body : Type.
Variable paired : CS -> CS -> Prop.

Hypothesis paired_step :
  forall (e d : CS) (p : bytes),
    paired e d ->
    exists d' : CS,
      Decrypt d (snd (Encrypt e p)) = (d', (p, None)) /\
      paired (fst (Encrypt e p)) d'.

(** A client adapter with a transport attached sends a call as one frame;
    a server adapter receiving that frame under the paired cipher state
    reads the same header and, through the continuation, the same
    argument. *)
Lemma request_crosses_bridge
    (encode : Request -> Body -> bytes * option error)
    (decode : bytes -> Request -> option error * Request * closure Body)
    (rc : rpcClientCodec CS Body) (rs : rpcServerCodec CS Body)
    (e d : CS) (dst : Encoder) (req : Request) (i : Body) (b : bytes) :
  (forall (r : Request) (i : Body) (b : bytes),
      encode r i = (b, None) ->
      forall (r0 : Request) (i0 : Body),
      exists k k' : closure Body,
        decode b r0 = (None, r, k) /\ call_closure k i0 = (k', (i, None))) ->
  cc_encode rc = Some encode -> cc_enc rc = Some e -> cc_dst rc = Some dst ->
  (0 < quota dst)%nat ->
  sc_decode rs = Some decode -> sc_dec rs = Some d ->
  paired e d ->
  encode req i = (b, None) ->
  exists (rc' : rpcClientCodec CS Body) (dst' : Encoder) (f : bytes),
    rpcClientCodec_WriteRequest rc req i = Returns (rc', None) /\
    cc_dst rc' = Some dst' /\ sent dst' = sent dst ++ [f] /\
    forall (rest : list bytes) (req0 : Request) (i0 : Body),
      sc_src rs = Some (f :: rest) ->
      exists rs' rs'' : rpcServerCodec CS Body,
        rpcServerCodec_ReadRequestHeader rs req0 = Returns (rs', req, None) /\
        rpcServerCodec_ReadRequestBody rs' i0 = Returns (rs'', i, None).
Proof.
  intros Hpair Henc He Hdst Hq Hdec Hd Hp Hb.
  destruct (paired_step e d b Hp) as (d' & Hdb & _).
  unfold rpcClientCodec_WriteRequest. rewrite Henc, Hb, He, Hdst.
  destruct (Encrypt e b) as [e' c] eqn:HE. simpl in Hdb.
  unfold EncodeOpaque. destruct (quota dst) as [| q]; [lia |].
  eexists _, _, c. split; [reflexivity |]. split; [reflexivity |].
  split; [reflexivity |].
  intros rest req0 i0 Hsrc.
  destruct (Hpair req i b Hb req0 i0) as (k & k' & Hk & Hk').
  unfold rpcServerCodec_ReadRequestHeader. rewrite Hsrc, Hd. simpl.
  rewrite Hdb, Hdec, Hk.
  eexists _, _. split; [reflexivity |].
  unfold rpcServerCodec_ReadRequestBody. simpl. rewrite Hk'. reflexivity.
Qed.

(** The reply, from the server adapter to the client adapter. *)
Lemma reply_crosses_bridge
    (encode : Response -> Body -> bytes * option error)
    (decode : bytes -> Response -> option error * Response * closure Body)
    (rs : rpcServerCodec CS Body) (rc : rpcClientCodec CS Body)
    (e d : CS) (dst : Encoder) (resp : Response) (i : Body) (b : bytes) :
  (forall (r : Response) (i : Body) (b : bytes),
      encode r i = (b, None) ->
      forall (r0 : Response) (i0 : Body),
      exists k k' : closure Body,
        decode b r0 = (None, r, k) /\ call_closure k i0 = (k', (i, None))) ->
  sc_encode rs = Some encode -> sc_enc rs = Some e -> sc_dst rs = Some dst ->
  (0 < quota dst)%nat ->
  cc_decode rc = Some decode -> cc_dec rc = Some d ->
  paired e d ->
  encode resp i = (b, None) ->
  exists (rs' : rpcServerCodec CS Body) (dst' : Encoder) (f : bytes),
    rpcServerCodec_WriteResponse rs resp i = Returns (rs', None) /\
    sc_dst rs' = Some dst' /\ sent dst' = sent dst ++ [f] /\
    forall (rest : list bytes) (resp0 : Response) (i0 : Body),
      cc_src rc = Some (f :: rest) ->
      exists rc' rc'' : rpcClientCodec CS Body,
        rpcClientCodec_ReadResponseHeader rc resp0 = Returns (rc', resp, None) /\
        rpcClientCodec_ReadResponseBody rc' i0 = Returns (rc'', i, None).
Proof.
  intros Hpair Henc He Hdst Hq Hdec Hd Hp Hb.
  destruct (paired_step e d b Hp) as (d' & Hdb & _).
  unfold rpcServerCodec_WriteResponse. rewrite Henc, Hb, He, Hdst.
  destruct (Encrypt e b) as [e' c] eqn:HE. simpl in Hdb.
  unfold EncodeOpaque. destruct (quota dst) as [| q]; [lia |].
  eexists _, _, c. split; [reflexivity |]. split; [reflexivity |].
  split; [reflexivity |].
  intros rest resp0 i0 Hsrc.
  destruct (Hpair resp i b Hb resp0 i0) as (k & k' & Hk & Hk').
  unfold rpcClientCodec_ReadResponseHeader. rewrite Hsrc, Hd. simpl.
  rewrite Hdb, Hdec, Hk.
  eexists _, _. split; [reflexivity |].
  unfold rpcClientCodec_ReadResponseBody. simpl. rewrite Hk'. reflexivity.
Qed.

End Bridge.

(** ** What the constructors leave unset *)

Section Constructors.

Context {HS CS : Type} `{Cipher CS} `{Engine HS CS}.
Variable Body : Type.

Lemma client_loop_keeps_transport (src : Decoder) :
  forall (state : bool) (hs : HS) (dst : Encoder) (r : rpcClientCodec CS Body),
    match client_loop src state (hs, dst, r) with
    | Finished _ (_, _, r') | Failed _ (_, _, r') _ =>
        cc_src r' = cc_src r /\ cc_dst r' = cc_dst r
    | LoopPanics _ => True
    end.
Proof.
  induction src as [| f rest IH]; intros state hs dst r;
    rewrite client_loop_equation; unfold DecodeOpaque;
    destruct state; unfold client_write_step, client_read_step;
    repeat match goal with
      | |- context [WriteMessage ?h ?p] =>
          destruct (WriteMessage h p) as [? [[? ?] ?]]
      | |- context [ReadMessage ?h ?p] =>
          destruct (ReadMessage h p) as [? [[[? ?] ?] ?]]
      | |- context [EncodeOpaque ?d ?b] =>
          destruct (EncodeOpaque d b) as [? ?]
      | |- context [match ?o with Some _ => _ | None => _ end] =>
          destruct o; simpl
      end;
    simpl; try (split; reflexivity);
    match goal with
    | |- context [client_loop rest true (?h, ?d, ?r0)] =>
        specialize (IH true h d r0);
        destruct (client_loop rest true (h, d, r0))
          as [? [[? ?] ?] | ? [[? ?] ?] ? | ?];
        simpl in *; tauto
    end.
Qed.

(** A codec returned by [NewRpcClient] has neither [src] nor [dst]; its
    first use of the transport dereferences nil. *)
Lemma NewRpcClient_has_no_transport (xdr : Serializer Body) (src src' : Decoder)
    (dst dst' : Encoder) (nc : Config) (r : rpcClientCodec CS Body)
    (err : option error) :
  NewRpcClient xdr src dst nc = Returns (r, src', dst', err) ->
  cc_src r = None /\ cc_dst r = None /\
  forall resp : Response,
    rpcClientCodec_ReadResponseHeader r resp = Panics NilDereference.
Proof.
  unfold NewRpcClient, rpcClientCodec_handshake. intros Hn.
  pose proof (client_loop_keeps_transport src (Initiator nc)
                (NewHandshakeState nc) dst
                (bind_client Body (xdrEncReq xdr) (xdrDecResp xdr)))
    as Hk.
  destruct (client_loop _ _ _) as [s [[h d0] r0] | s [[h d0] r0] e | x];
    inversion Hn; subst; destruct Hk as [Hs Hd]; simpl in Hs, Hd;
    (split; [assumption |]; split; [assumption |]);
    intros resp; unfold rpcClientCodec_ReadResponseHeader; rewrite Hs;
    reflexivity.
Qed.

End Constructors.

(** ** The concrete implementations meet the contracts *)

Lemma toy_cipher_paired (e d : Toy.cipher_state) (p : bytes) :
  e = d ->
  exists d' : Toy.cipher_state,
    Toy.decrypt d (snd (Toy.encrypt e p)) = (d', (p, None)) /\
    fst (Toy.encrypt e p) = d'.
Proof.
  intros <-. exists (fst e, S (snd e)). unfold Toy.encrypt, Toy.decrypt.
  simpl. rewrite !Byte.byte_dec_lb by reflexivity. split; reflexivity.
Qed.

Lemma toy_get_put_block (b w rest : bytes) :
  Toy.put_block b = Some w -> Toy.get_block (w ++ rest) = Some (b, rest).
Proof.
  unfold Toy.put_block.
  destruct (Byte.of_nat (length b)) as [n |] eqn:Hn; [| discriminate].
  intros Hw. inversion Hw; subst w. simpl.
  apply Byte.to_of_nat in Hn. rewrite Hn.
  replace (length (b ++ rest) <? length b)%nat with false
    by (symmetry; apply Nat.ltb_ge; rewrite length_app; lia).
  rewrite firstn_app, skipn_app, firstn_all, skipn_all, Nat.sub_diag.
  simpl. rewrite app_nil_r. reflexivity.
Qed.

Lemma toy_get_put_string (s : String.string) (w rest : bytes) :
  Toy.put_string s = Some w -> Toy.get_string (w ++ rest) = Some (s, rest).
Proof.
  unfold Toy.put_string, Toy.get_string. intros Hw.
  rewrite (toy_get_put_block _ _ rest Hw).
  rewrite String.string_of_list_byte_of_string. reflexivity.
Qed.

Lemma toy_get_put_seq (z : Z) (w rest : bytes) :
  Toy.put_seq z = Some w -> Toy.get_seq (w ++ rest) = Some (z, rest).
Proof.
  unfold Toy.put_seq. destruct (Z.leb_spec 0 z) as [Hz |]; [| discriminate].
  destruct (Byte.of_nat (Z.to_nat z)) as [b |] eqn:Hb; [| discriminate].
  intros Hw. inversion Hw; subst w. simpl.
  apply Byte.to_of_nat in Hb. rewrite Hb, Z2Nat.id by assumption.
  reflexivity.
Qed.

Lemma toy_get_put (k : kind) (v : value bytes k) (w rest : bytes) :
  Toy.put k v = Some w -> Toy.get k (w ++ rest) = Some (v, rest).
Proof.
  destruct k; simpl.
  - destruct (Toy.put_string (ServiceMethod v)) as [a |] eqn:Ha;
      [| discriminate].
    destruct (Toy.put_seq (Seq v)) as [b |] eqn:Hb; [| discriminate].
    intros Hw. inversion Hw; subst w. rewrite <- app_assoc.
    rewrite (toy_get_put_string _ _ _ Ha), (toy_get_put_seq _ _ rest Hb).
    destruct v; reflexivity.
  - destruct (Toy.put_string (Resp_ServiceMethod v)) as [a |] eqn:Ha;
      [| discriminate].
    destruct (Toy.put_seq (Resp_Seq v)) as [b |] eqn:Hb; [| discriminate].
    destruct (Toy.put_string (Resp_Error v)) as [c |] eqn:Hc;
      [| discriminate].
    intros Hw. inversion Hw; subst w. rewrite <- !app_assoc.
    rewrite (toy_get_put_string _ _ _ Ha), (toy_get_put_seq _ _ _ Hb),
      (toy_get_put_string _ _ rest Hc).
    destruct v; reflexivity.
  - apply toy_get_put_block.
Qed.

Lemma toy_serializer_round_trips :
  round_trips Toy.serializer (fun _ _ => True).
Proof.
  split; [exact I |].
  intros k es es' ds v w _ Hm rest target. exists tt. simpl in *.
  destruct (Toy.put k v) as [w' |] eqn:Hp; [| discriminate].
  inversion Hm; subst. rewrite (toy_get_put k v w rest Hp).
  destruct ds. split; [reflexivity | exact I].
Qed.

(** ** The counting engine is a linked pair *)

Lemma toy_engine_linked (total k : nat) (hw hr : Toy.handshake_state)
    (payload : bytes) :
  hw = (k, total) /\ hr = (k, total) ->
  (k < total)%nat ->
  exists (hw' hr' : Toy.handshake_state) (msg : bytes)
         (wo wi ri ro : option Toy.cipher_state),
    Toy.write_message hw payload = (hw', (msg, wo, wi)) /\
    Toy.read_message hr msg = (hr', (payload, ri, ro, None)) /\
    (hr' = (S k, total) /\ hw' = (S k, total)) /\
    (S k = total -> wo <> None /\ ro <> None /\ ri = wo /\ ro = wi) /\
    ((S k < total)%nat -> wo = None /\ ro = None).
Proof.
  intros [-> ->] Hk. unfold Toy.write_message, Toy.read_message, Toy.split.
  destruct (Nat.eqb_spec (S k) total) as [He | Hne].
  - eexists _, _, _, _, _, _, _. repeat split; try discriminate; lia.
  - eexists _, _, _, _, _, _, _. repeat split; try reflexivity;
      intros; congruence.
Qed.

Set Warnings "-abstract-large-number".

(** Fifty thousand bytes staged by the initiator and ten by the responder
    of a three-message pattern reach the other side's reader. *)
Lemma handshake_delivers_staged_example :
  exists (fIR fRI : list bytes) (decI decR : option Toy.cipher_state)
         (wI wR : Writer Toy.cipher_state) (dI dR : Encoder),
    Connection_Handshake (H0 := Toy.engine)
      {| c_Writer := Writer_outbuf; c_Reader := Reader_inbuf;
         outbuf := Some (repeat Byte.x41 50000); inbuf := Some [] |}
      fRI Toy.wire (Toy.config 3 true) =
    Returns {| res_conn :=
                 {| c_Writer := Writer_stream wI;
                    c_Reader := Reader_stream
                                  {| r_src := []; r_dec := decI;
                                     r_buf := repeat Byte.x42 10 |};
                    outbuf := None; inbuf := None |};
               res_src := []; res_dst := dI; res_err := None |} /\
    Connection_Handshake (H0 := Toy.engine)
      {| c_Writer := Writer_outbuf; c_Reader := Reader_inbuf;
         outbuf := Some (repeat Byte.x42 10); inbuf := Some [] |}
      fIR Toy.wire (Toy.config 3 false) =
    Returns {| res_conn :=
                 {| c_Writer := Writer_stream wR;
                    c_Reader := Reader_stream
                                  {| r_src := []; r_dec := decR;
                                     r_buf := repeat Byte.x41 50000 |};
                    outbuf := None; inbuf := None |};
               res_src := []; res_dst := dR; res_err := None |} /\
    sent dI = fIR /\ sent dR = fRI.
Proof.
  assert (HlI : Buffer.Len (repeat Byte.x41 50000) < 2 ^ 62).
  { unfold Buffer.Len. rewrite repeat_length. vm_compute. reflexivity. }
  assert (HlR : Buffer.Len (repeat Byte.x42 10) < 2 ^ 62).
  { unfold Buffer.Len. rewrite repeat_length. vm_compute. reflexivity. }
  destruct (@handshake_delivers_staged Toy.handshake_state Toy.cipher_state
              Toy.engine 3 (fun k hw hr => hw = (k, 3%nat) /\ hr = (k, 3%nat))
              (toy_engine_linked 3)
              (Toy.config 3 true) (Toy.config 3 false)
              (repeat Byte.x41 50000) (repeat Byte.x42 10)
              {| c_Writer := Writer_outbuf; c_Reader := Reader_inbuf;
                 outbuf := Some (repeat Byte.x41 50000); inbuf := Some [] |}
              {| c_Writer := Writer_outbuf; c_Reader := Reader_inbuf;
                 outbuf := Some (repeat Byte.x42 10); inbuf := Some [] |}
              Toy.wire Toy.wire
              eq_refl eq_refl eq_refl eq_refl (conj eq_refl eq_refl)
              ltac:(lia) ltac:(vm_compute; reflexivity)
              eq_refl eq_refl eq_refl eq_refl HlI HlR
              ltac:(simpl; lia) ltac:(simpl; lia))
    as (fIR & fRI & lI & lR & vI & vR & _ & _ & _ & _ & _ & _ & _ & _
        & HsI & HsR & _ & _ & _ & Hrun).
  destruct (Hrun [] []) as (_ & _ & HI & HR).
  rewrite !app_nil_r in *.
  exists fIR, fRI, (v_i vI), (v_i vR), (NewWriter (v_dst vI) (v_o vI)),
    (NewWriter (v_dst vR) (v_o vR)), (v_dst vI), (v_dst vR).
  repeat split; assumption.
Qed.

(** ** The statements above at explicit inputs *)

Lemma write_read_round_trip_witness :
  exists w' : Writer Toy.cipher_state,
    write_all (H := Toy.cipher)
      (NewWriter Toy.wire (Some (1%nat, 0%nat)))
      [[Byte.x01; Byte.x02]; []; [Byte.x03]] =
    Returns (w', [(2, None); (0, None); (1, None)]) /\
    forall ks : list nat,
    exists (r' : Reader Toy.cipher_state) (out rest : bytes),
      read_seq (H := Toy.cipher)
        (NewReader (sent (w_dst w')) (Some (1%nat, 0%nat))) ks
      = Returns (r', out) /\
      [Byte.x01; Byte.x02; Byte.x03] = out ++ rest /\
      (Forall (fun k => (0 < k)%nat) ks ->
       (3 + 3 <= length ks)%nat ->
       out = [Byte.x01; Byte.x02; Byte.x03]).
Proof.
  apply (@write_read_round_trip Toy.cipher_state Toy.cipher eq
           toy_cipher_paired (1%nat, 0%nat) (1%nat, 0%nat)
           [[Byte.x01; Byte.x02]; []; [Byte.x03]] Toy.wire).
  - reflexivity.
  - reflexivity.
  - simpl. lia.
Defined.

Lemma carry_over_invariant_witness :
  carry_over_ok (H := Toy.cipher)
    (NewReader [[Byte.x01; Byte.x00; Byte.x41; Byte.x42]] (Some (1%nat, 0%nat)))
    {| r_src := []; r_dec := Some (1%nat, 1%nat); r_buf := [Byte.x42] |}.
Proof.
  apply (proj1 (@carry_over_invariant Toy.handshake_state Toy.cipher_state
                  Toy.cipher Toy.engine)
           (NewReader [[Byte.x01; Byte.x00; Byte.x41; Byte.x42]]
              (Some (1%nat, 0%nat)))
           {| r_src := []; r_dec := Some (1%nat, 1%nat);
              r_buf := [Byte.x42] |}).
  apply (@reads_more Toy.cipher_state Toy.cipher _ _ _ 1%nat
           ([Byte.x41], None) (reads_none _)).
  reflexivity.
Defined.

Lemma decrypt_failure_is_returned_witness :
  Reader_Read (H := Toy.cipher)
    {| r_src := [[Byte.x02; Byte.x00; Byte.x41]];
       r_dec := Some (1%nat, 0%nat); r_buf := [] |} 8 =
  Returns ({| r_src := []; r_dec := Some (1%nat, 0%nat); r_buf := [] |},
           ([], Some (ErrDecrypt 0))).
Proof.
  apply (@decrypt_failure_is_returned Toy.cipher_state Toy.cipher
           (1%nat, 0%nat) (1%nat, 0%nat) [Byte.x02; Byte.x00; Byte.x41] []
           (ErrDecrypt 0)).
  reflexivity.
Defined.

Lemma empty_frame_reads_as_eof_witness :
  exists (w' : Writer Toy.cipher_state) (f : bytes) (d' : Toy.cipher_state),
    Writer_Write (H := Toy.cipher) (NewWriter Toy.wire (Some (1%nat, 0%nat))) []
    = Returns (w', (0, None)) /\
    sent (w_dst w') = sent Toy.wire ++ [f] /\
    Reader_Read (H := Toy.cipher)
      {| r_src := [f; [Byte.x01; Byte.x01; Byte.x41]];
         r_dec := Some (1%nat, 0%nat); r_buf := [] |} 8 =
    Returns ({| r_src := [[Byte.x01; Byte.x01; Byte.x41]]; r_dec := Some d';
                r_buf := [] |},
             ([], Some io_EOF)).
Proof.
  apply (@empty_frame_reads_as_eof Toy.cipher_state Toy.cipher eq
           toy_cipher_paired).
  - reflexivity.
  - simpl. lia.
  - lia.
Defined.

Lemma envelope_round_trip_witness :
  xdrEncReq Toy.serializer (mkRequest String.EmptyString 7) [Byte.x41] =
  ([Byte.x00; Byte.x07; Byte.x01; Byte.x41], None) /\
  exists k k' : closure bytes,
    xdrDecReq Toy.serializer [Byte.x00; Byte.x07; Byte.x01; Byte.x41]
      (mkRequest String.EmptyString 0) =
    (None, mkRequest String.EmptyString 7, k) /\
    call_closure k [] = (k', ([Byte.x41], None)).
Proof.
  split; [reflexivity |].
  apply (@envelope_round_trip bytes Toy.serializer Toy.serializer
           (fun _ _ => True) (fun _ _ => True)
           toy_serializer_round_trips toy_serializer_round_trips).
  reflexivity.
Defined.

Lemma cipher_positions_by_loop_witness :
  exists hs' : Toy.handshake_state,
    (by_write (H0 := Toy.engine) hs' (Some (1%nat, 0%nat)) (Some (2%nat, 0%nat)) \/
     by_read (H0 := Toy.engine) hs' (Some (1%nat, 0%nat)) (Some (2%nat, 0%nat))) /\
    Some (1%nat, 0%nat) <> None :> option Toy.cipher_state.
Proof.
  apply (proj1 (@cipher_positions_by_loop Toy.handshake_state
                  Toy.cipher_state Toy.engine)
           bytes (new_rpcClientCodec Toy.cipher_state bytes)
           (mkClientCodec None None (Some (1%nat, 0%nat)) (Some (2%nat, 0%nat))
              None None None)
           [] [] Toy.wire
           {| sent := [[]]; quota := 999 |} (Toy.config 1 true)).
  reflexivity.
Defined.

(** C2 (the claim as written fails): with an engine that yields key 1 in
    its first cipher position and key 2 in its second, the server codec
    completing on [ReadMessage] decrypts with the first and encrypts with
    the second, and so does [Connection.Handshake] when it completes on
    [ReadMessage]. *)
Lemma first_cipher_bound_to_decrypt :
  ReadMessage (Engine := Toy.engine)
    (NewHandshakeState (Engine := Toy.engine) (Toy.config 1 false)) [] =
  ((1%nat, 1%nat), ([], Some (1%nat, 0%nat), Some (2%nat, 0%nat), None)) /\
  rpcServerCodec_handshake (H0 := Toy.engine)
    (new_rpcServerCodec Toy.cipher_state bytes) [[]] Toy.wire
    (Toy.config 1 false) =
  Returns (mkServerCodec None None (Some (2%nat, 0%nat)) (Some (1%nat, 0%nat))
             None None None, [], Toy.wire, None) /\
  Connection_Handshake (H0 := Toy.engine)
    (Connection_Init new_Connection) [[]] Toy.wire (Toy.config 1 false) =
  Returns {| res_conn :=
               {| c_Writer := Writer_stream (NewWriter Toy.wire
                                               (Some (2%nat, 0%nat)));
                  c_Reader := Reader_stream (NewReader []
                                               (Some (1%nat, 0%nat)));
                  outbuf := None; inbuf := None |};
             res_src := []; res_dst := Toy.wire; res_err := None |}.
Proof. repeat split. Qed.

(** C1 (evaluation at the failing input): the responder of a one-message
    pattern stages ten bytes and runs [Handshake] against the frame its
    peer sent.  Both calls of [Handshake] succeed.  The responder has put
    nothing on the wire, its staging buffer is dropped with the ten bytes
    in it, and the peer's reader starts empty with no frame to come: its
    first [Read] reports the transport error instead of the bytes. *)
Theorem staged_bytes_lost_without_a_send :
  match Connection_Write (H := Toy.cipher) (Connection_Init new_Connection)
          (repeat Byte.x41 10) with
  | Returns (c, _) =>
      Connection_Handshake (H0 := Toy.engine) c [[]] Toy.wire
        (Toy.config 1 false)
  | Panics x => Panics x
  end =
  Returns {| res_conn :=
               {| c_Writer := Writer_stream
                                (NewWriter Toy.wire (Some (2%nat, 0%nat)));
                  c_Reader := Reader_stream
                                (NewReader [] (Some (1%nat, 0%nat)));
                  outbuf := None; inbuf := None |};
             res_src := []; res_dst := Toy.wire; res_err := None |} /\
  Connection_Handshake (H0 := Toy.engine) (Connection_Init new_Connection)
    (sent Toy.wire) Toy.wire (Toy.config 1 true) =
  Returns {| res_conn :=
               {| c_Writer := Writer_stream
                                (NewWriter {| sent := [[]]; quota := 999 |}
                                   (Some (1%nat, 0%nat)));
                  c_Reader := Reader_stream
                                (NewReader [] (Some (2%nat, 0%nat)));
                  outbuf := None; inbuf := None |};
             res_src := []; res_dst := {| sent := [[]]; quota := 999 |};
             res_err := None |} /\
  Reader_Read (H := Toy.cipher) (NewReader [] (Some (2%nat, 0%nat))) 10 =
  Returns (NewReader [] (Some (2%nat, 0%nat)), ([], Some (ErrTransport 0))).
Proof. repeat split. Qed.

(** C6 (the claim as written fails): an initiator stages 4097 bytes in a
    three-message pattern and sends them in two handshake frames of 4096
    bytes and of one byte.  The responder's reader is created holding all
    4097 bytes, more than any frame it has received carried. *)
Lemma seeded_buffer_spans_frames :
  match Connection_Write (H := Toy.cipher) (Connection_Init new_Connection)
          (repeat Byte.x41 4097) with
  | Returns (c, _) =>
      match Connection_Handshake (H0 := Toy.engine) c [[]] Toy.wire
              (Toy.config 3 true) with
      | Returns res => Returns (sent (res_dst res))
      | Panics x => Panics x
      end
  | Panics x => Panics x
  end = Returns [repeat Byte.x41 4096; [Byte.x41]] /\
  Connection_Handshake (H0 := Toy.engine) (Connection_Init new_Connection)
    [repeat Byte.x41 4096; [Byte.x41]] Toy.wire (Toy.config 3 false) =
  Returns {| res_conn :=
               {| c_Writer := Writer_stream
                                (NewWriter {| sent := [[]]; quota := 999 |}
                                   (Some (2%nat, 0%nat)));
                  c_Reader := Reader_stream
                                {| r_src := []; r_dec := Some (1%nat, 0%nat);
                                   r_buf := repeat Byte.x41 4097 |};
                  outbuf := None; inbuf := None |};
             res_src := []; res_dst := {| sent := [[]]; quota := 999 |};
             res_err := None |} /\
  ~ (exists f : bytes,
        In f [repeat Byte.x41 4096; [Byte.x41]] /\
        rest_of (repeat Byte.x41 4097) f).
Proof.
  split; [vm_compute; reflexivity |].
  split; [vm_compute; reflexivity |].
  intros (f & Hin & served & Hf).
  apply (f_equal (@length Byte.byte)) in Hf.
  rewrite length_app, repeat_length in Hf.
  destruct Hin as [<- | [<- | []]].
  - rewrite repeat_length in Hf. lia.
  - simpl in Hf. lia.
Qed.

(** * Further properties of the package *)

(** ** The connection before the handshake *)

Section Staging.

Context {HS CS : Type} `{Cipher CS} `{Engine HS CS}.

Lemma Connection_write_all_staged (ps : list bytes) :
  forall (b : Buffer.t) (r : conn_reader CS) (ib : option Buffer.t),
    Connection_write_all
      {| c_Writer := Writer_outbuf; c_Reader := r; outbuf := Some b;
         inbuf := ib |} ps =
    Returns ({| c_Writer := Writer_outbuf; c_Reader := r;
                outbuf := Some (b ++ concat ps); inbuf := ib |},
             map (fun p => (Z.of_nat (length p), None)) ps).
Proof.
  induction ps as [| p ps IH]; intros b r ib; simpl.
  - rewrite app_nil_r. reflexivity.
  - unfold Buffer.Write. rewrite IH, app_assoc. reflexivity.
Qed.

(** X1: after [Init], whatever the connection was before, every [Write]
    returns the length of its input with no error and touches no
    transport; the outbound staging buffer holds the inputs in order, and
    a [Read] with a non-empty destination finds the inbound staging
    buffer empty and reports [io.EOF]. *)
Theorem staging_writes_accumulate (c : Connection CS) (ps : list bytes)
    (k : nat) :
  Connection_write_all (Connection_Init c) ps =
  Returns ({| c_Writer := Writer_outbuf; c_Reader := Reader_inbuf;
              outbuf := Some (concat ps); inbuf := Some [] |},
           map (fun p => (Z.of_nat (length p), None)) ps) /\
  Connection_Read
    {| c_Writer := Writer_outbuf; c_Reader := Reader_inbuf;
       outbuf := Some (concat ps); inbuf := Some [] |} (S k) =
  Returns ({| c_Writer := Writer_outbuf; c_Reader := Reader_inbuf;
              outbuf := Some (concat ps); inbuf := Some [] |},
           ([], Some io_EOF)).
Proof.
  split; [| reflexivity].
  unfold Connection_Init. rewrite Connection_write_all_staged. reflexivity.
Qed.

(** X2: a connection that was not initialised panics on [Write], on
    [Read] and on [Handshake]; and a connection on which [Handshake] has
    succeeded has dropped its staging buffers, so a second [Handshake]
    panics as well. *)
Theorem handshake_needs_init_and_runs_once :
  (forall p : bytes,
      Connection_Write (new_Connection (CS := CS)) p = Panics NilDereference) /\
  (forall k : nat,
      Connection_Read (new_Connection (CS := CS)) k = Panics NilDereference) /\
  (forall (src : Decoder) (dst : Encoder) (nc : Config),
      Connection_Handshake (new_Connection (CS := CS)) src dst nc =
      Panics NilDereference) /\
  (forall (c : Connection CS) (src : Decoder) (dst : Encoder) (nc : Config)
          (res : handshake_result CS),
      Connection_Handshake c src dst nc = Returns res ->
      res_err res = None ->
      forall (src' : Decoder) (dst' : Encoder) (nc' : Config),
        Connection_Handshake (res_conn res) src' dst' nc' =
        Panics NilDereference).
Proof.
  repeat split.
  intros c src dst nc res Hh Herr src' dst' nc'.
  destruct (Connection_Handshake_success c src dst nc res Hh Herr)
    as (ob & ib & l & v & _ & _ & _ & _ & _ & Hc).
  rewrite Hc. reflexivity.
Qed.

End Staging.

Lemma handshake_needs_init_and_runs_once_witness :
  Connection_Handshake (H0 := Toy.engine)
    {| c_Writer := Writer_stream (NewWriter Toy.wire (Some (2%nat, 0%nat)));
       c_Reader := Reader_stream (NewReader [] (Some (1%nat, 0%nat)));
       outbuf := None; inbuf := None |}
    [[]] Toy.wire (Toy.config 1 false) = Panics NilDereference.
Proof.
  apply (proj2 (proj2 (proj2
           (@handshake_needs_init_and_runs_once Toy.handshake_state
              Toy.cipher_state Toy.cipher Toy.engine)))
           (Connection_Init new_Connection) [[]] Toy.wire (Toy.config 1 false)
           {| res_conn :=
                {| c_Writer := Writer_stream
                                 (NewWriter Toy.wire (Some (2%nat, 0%nat)));
                   c_Reader := Reader_stream
                                 (NewReader [] (Some (1%nat, 0%nat)));
                   outbuf := None; inbuf := None |};
              res_src := []; res_dst := Toy.wire; res_err := None |}).
  - reflexivity.
  - reflexivity.
Defined.

(** ** What a handshake does to the buffers and to the transport *)

Section HandshakeTrace.

Context {HS CS : Type} `{Engine HS CS}.

Lemma conn_write_step_trace (l : Z) (v : hs_vars HS CS) :
  match conn_write_step l v with
  | Break v' | Continue v' =>
      exists (chunk msg : bytes),
        v_outbuf v = chunk ++ v_outbuf v' /\
        v_inbuf v' = v_inbuf v /\
        sent (v_dst v') = sent (v_dst v) ++ [msg] /\
        S (quota (v_dst v')) = quota (v_dst v)
  | Fail v' e =>
      (exists chunk : bytes, v_outbuf v = chunk ++ v_outbuf v') /\
      v_inbuf v' = v_inbuf v /\ v_dst v' = v_dst v /\
      e = ErrTransport 1 /\ quota (v_dst v) = O
  | StepPanics _ => True
  end.
Proof.
  unfold conn_write_step, Buffer.Next.
  destruct (l <? 0); [exact I |].
  destruct (WriteMessage (v_hs v) (firstn (Z.to_nat l) (v_outbuf v)))
    as [hs1 [[msg o] i]].
  unfold EncodeOpaque. destruct (quota (v_dst v)) as [| q] eqn:Hq.
  - simpl. repeat split.
    exists (firstn (Z.to_nat l) (v_outbuf v)). symmetry. apply firstn_skipn.
  - destruct o; simpl;
      exists (firstn (Z.to_nat l) (v_outbuf v)), msg;
      (repeat split; [symmetry; apply firstn_skipn]).
Qed.

Lemma conn_read_step_trace (f : bytes) (v : hs_vars HS CS) :
  match conn_read_step f v with
  | Break v' | Continue v' =>
      (exists p : bytes, v_inbuf v' = v_inbuf v ++ p) /\
      v_outbuf v' = v_outbuf v /\ v_dst v' = v_dst v
  | Fail v' e =>
      v_inbuf v' = v_inbuf v /\ v_outbuf v' = v_outbuf v /\
      v_dst v' = v_dst v /\
      exists (hs' : HS) (b : bytes) (a c : option CS),
        ReadMessage (v_hs v) f = (hs', (b, a, c, Some e))
  | StepPanics _ => True
  end.
Proof.
  unfold conn_read_step.
  destruct (ReadMessage (v_hs v) f) as [hs1 [[[buf i] o] [e |]]].
  - simpl. repeat split. exists hs1, buf, i, o. reflexivity.
  - destruct o; simpl; (split; [exists buf; reflexivity | split; reflexivity]).
Qed.

(** What an ended loop has done.  [turn] is the loop's [state] at entry:
    the side whose turn it is sends first, so it has sent as many frames
    as it has received, or one more; the other side has received as many
    as it has sent, or one more. *)
Lemma conn_loop_trace (l : Z) (src : Decoder) :
  forall (turn : bool) (v : hs_vars HS CS),
    match conn_loop l src turn v with
    | Finished src' v' | Failed src' v' _ =>
        exists (received fs : list bytes) (carved : bytes)
               (payloads : list bytes),
          src = received ++ src' /\
          sent (v_dst v') = sent (v_dst v) ++ fs /\
          (quota (v_dst v') + length fs = quota (v_dst v))%nat /\
          v_outbuf v = carved ++ v_outbuf v' /\
          v_inbuf v' = v_inbuf v ++ concat payloads /\
          (if turn
           then (length received <= length fs <= S (length received))%nat
           else (length fs <= length received <= S (length fs))%nat)
    | LoopPanics _ => True
    end.
Proof.
  induction src as [| f rest IH]; intros turn v;
    rewrite conn_loop_equation; unfold DecodeOpaque.
  - destruct turn.
    + pose proof (conn_write_step_trace l v) as Hw.
      destruct (conn_write_step l v) as [v1 | v1 | v1 e | x]; [| | | exact I].
      * destruct Hw as (chunk & msg & Ho & Hi & Hs & Hq).
        exists [], [msg], chunk, []. simpl. rewrite app_nil_r.
        repeat split; try assumption; lia.
      * destruct Hw as (chunk & msg & Ho & Hi & Hs & Hq).
        exists [], [msg], chunk, []. simpl. rewrite app_nil_r.
        repeat split; try assumption; lia.
      * destruct Hw as ((chunk & Ho) & Hi & Hd & _ & _).
        exists [], [], chunk, []. simpl. rewrite !app_nil_r, Hd.
        repeat split; try assumption; lia.
    + exists [], [], [], []. simpl. rewrite !app_nil_r.
      repeat split; lia.
  - assert (Hread : forall (v1 : hs_vars HS CS),
               match
                 match conn_read_step f v1 with
                 | Break v => Finished rest v
                 | Continue v => conn_loop l rest true v
                 | Fail v e => Failed rest v e
                 | StepPanics x => LoopPanics x
                 end
               with
               | Finished src' v' | Failed src' v' _ =>
                   exists (received fs : list bytes) (carved : bytes)
                          (payloads : list bytes),
                     f :: rest = received ++ src' /\
                     sent (v_dst v') = sent (v_dst v1) ++ fs /\
                     (quota (v_dst v') + length fs = quota (v_dst v1))%nat /\
                     v_outbuf v1 = carved ++ v_outbuf v' /\
                     v_inbuf v' = v_inbuf v1 ++ concat payloads /\
                     (length fs <= length received <= S (length fs))%nat
               | LoopPanics _ => True
               end).
    { intros v1. pose proof (conn_read_step_trace f v1) as Hr.
      destruct (conn_read_step f v1) as [v2 | v2 | v2 e | x]; [| | | exact I].
      - destruct Hr as ((p & Hi) & Ho & Hd).
        exists [f], [], [], [p]. simpl. rewrite !app_nil_r, Hd, Ho.
        repeat split; try assumption; lia.
      - destruct Hr as ((p & Hi) & Ho & Hd).
        specialize (IH true v2).
        destruct (conn_loop l rest true v2) as [s v3 | s v3 e | x];
          [| | exact I];
          destruct IH as (rec & fs & carved & ps & H1 & H2 & H3 & H4 & H5 & H6);
          exists (f :: rec), fs, carved, (p :: ps); simpl;
          rewrite H1, H2, H5, Hi, Hd, <- H4, Ho, <- app_assoc;
          (repeat split; try (rewrite <- Hd; assumption); lia).
      - destruct Hr as (Hi & Ho & Hd & _).
        exists [f], [], [], []. simpl. rewrite !app_nil_r, Hd, Ho, Hi.
        repeat split; lia. }
    destruct turn.
    + pose proof (conn_write_step_trace l v) as Hw.
      destruct (conn_write_step l v) as [v1 | v1 | v1 e | x]; [| | | exact I].
      * destruct Hw as (chunk & msg & Ho & Hi & Hs & Hq).
        exists [], [msg], chunk, []. simpl. rewrite app_nil_r.
        repeat split; try assumption; lia.
      * destruct Hw as (chunk & msg & Ho & Hi & Hs & Hq).
        specialize (Hread v1).
        destruct (match conn_read_step f v1 with
                  | Break v => Finished rest v
                  | Continue v => conn_loop l rest true v
                  | Fail v e => Failed rest v e
                  | StepPanics x => LoopPanics x
                  end) as [s v3 | s v3 e | x]; [| | exact I];
          destruct Hread
            as (rec & fs & carved & ps & H1 & H2 & H3 & H4 & H5 & H6);
          exists rec, (msg :: fs), (chunk ++ carved), ps; simpl;
          rewrite H2, Hs, H5, Hi, Ho, H4, <- !app_assoc;
          (repeat split; try assumption; lia).
      * destruct Hw as ((chunk & Ho) & Hi & Hd & _ & _).
        exists [], [], chunk, []. simpl. rewrite !app_nil_r, Hd.
        repeat split; try assumption; lia.
    + apply (Hread v).
Qed.

(** Where the error of a failed loop comes from. *)
Lemma conn_loop_failed_error (l : Z) (src : Decoder) :
  forall (turn : bool) (v v' : hs_vars HS CS) (src' : Decoder) (e : error),
    conn_loop l src turn v = Failed src' v' e ->
    (e = ErrTransport 1 /\ quota (v_dst v') = O) \/
    (e = ErrTransport 0 /\ src' = []) \/
    (exists (hs hs' : HS) (f b : bytes) (a c : option CS),
        ReadMessage hs f = (hs', (b, a, c, Some e))).
Proof.
  induction src as [| f rest IH]; intros turn v v' src' e;
    rewrite conn_loop_equation; unfold DecodeOpaque.
  - destruct turn.
    + pose proof (conn_write_step_trace l v) as Hw.
      destruct (conn_write_step l v) as [v1 | v1 | v1 e1 | x];
        intros Hl; inversion Hl; subst.
      * right; left. split; reflexivity.
      * destruct Hw as (_ & _ & Hd & -> & Hq). left. rewrite Hd.
        split; [reflexivity | assumption].
    + intros Hl; inversion Hl; subst. right; left. split; reflexivity.
  - assert (Hread : forall (v1 : hs_vars HS CS),
               match conn_read_step f v1 with
               | Break v => Finished rest v
               | Continue v => conn_loop l rest true v
               | Fail v e => Failed rest v e
               | StepPanics x => LoopPanics x
               end = Failed src' v' e ->
               (e = ErrTransport 1 /\ quota (v_dst v') = O) \/
               (e = ErrTransport 0 /\ src' = []) \/
               (exists (hs hs' : HS) (f b : bytes) (a c : option CS),
                   ReadMessage hs f = (hs', (b, a, c, Some e)))).
    { intros v1. pose proof (conn_read_step_trace f v1) as Hr.
      destruct (conn_read_step f v1) as [v2 | v2 | v2 e1 | x];
        intros Hl; try discriminate.
      - apply (IH true v2 v' src' e Hl).
      - inversion Hl; subst.
        destruct Hr as (_ & _ & _ & hs' & b & a & c & Hrm).
        right; right. exists (v_hs v1), hs', f, b, a, c. assumption. }
    destruct turn.
    + pose proof (conn_write_step_trace l v) as Hw.
      destruct (conn_write_step l v) as [v1 | v1 | v1 e1 | x];
        intros Hl; try discriminate.
      * apply (Hread v1 Hl).
      * inversion Hl; subst.
        destruct Hw as (_ & _ & Hd & -> & Hq). left. rewrite Hd.
        split; [reflexivity | assumption].
    + apply Hread.
Qed.

(** The two ways [Handshake] returns. *)
Lemma Connection_Handshake_returns (c : Connection CS) (src : Decoder)
    (dst : Encoder) (nc : Config) (res : handshake_result CS) :
  Connection_Handshake c src dst nc = Returns res ->
  exists (ob ib : Buffer.t) (l : Z) (v : hs_vars HS CS),
    outbuf c = Some ob /\ inbuf c = Some ib /\
    res_dst res = v_dst v /\
    ((conn_loop l src (Initiator nc)
        (mkVars (NewHandshakeState nc) ob ib dst None None)
      = Finished (res_src res) v /\ res_err res = None) \/
     (exists e : error,
         conn_loop l src (Initiator nc)
           (mkVars (NewHandshakeState nc) ob ib dst None None)
         = Failed (res_src res) v e /\
         res_err res = Some e /\
         res_conn res =
         {| c_Writer := c_Writer c; c_Reader := c_Reader c;
            outbuf := Some (v_outbuf v); inbuf := Some (v_inbuf v) |})).
Proof.
  unfold Connection_Handshake. intros Hh.
  destruct (outbuf c) as [ob |]; [| discriminate].
  destruct (inbuf c) as [ib |]; [| discriminate].
  destruct (chunk_size _ _ _) as [l | x]; [| discriminate].
  destruct (conn_loop _ _ _ _) as [src' v | src' v e | x] eqn:Hl;
    try discriminate; inversion Hh; subst; exists ob, ib, l, v; simpl;
    repeat split.
  - left. split; [assumption | reflexivity].
  - right. exists e. repeat split. assumption.
Qed.






(** X4: whenever [Handshake] returns, with or without an error, it has
    consumed a front part of the inbound frames and appended its own
    frames to the outbound direction, strictly alternating: the initiator
    has sent as many frames as it received or one more, the responder has
    received as many as it sent or one more. *)
Theorem handshake_alternates (c : Connection CS) (src : Decoder)
    (dst : Encoder) (nc : Config) (res : handshake_result CS) :
  Connection_Handshake c src dst nc = Returns res ->
  exists received fs : list bytes,
    src = received ++ res_src res /\
    sent (res_dst res) = sent dst ++ fs /\
    (quota (res_dst res) + length fs = quota dst)%nat /\
    (if Initiator nc
     then (length received <= length fs <= S (length received))%nat
     else (length fs <= length received <= S (length fs))%nat).
Proof.
  intros Hh.
  destruct (Connection_Handshake_returns c src dst nc res Hh)
    as (ob & ib & l & v & _ & _ & Hd & Hend).
  pose proof (conn_loop_trace l src (Initiator nc)
                (mkVars (NewHandshakeState nc) ob ib dst None None)) as Ht.
  destruct Hend as [[Hl _] | (e & Hl & _)]; rewrite Hl in Ht;
    destruct Ht as (rec & fs & carved & ps & H1 & H2 & H3 & _ & _ & H6);
    exists rec, fs; rewrite Hd; simpl in H2, H3;
    repeat split; assumption.
Qed.

End HandshakeTrace.


Lemma handshake_alternates_witness :
  exists received fs : list bytes,
    [repeat Byte.x41 3; [Byte.x42]] = received ++ [[Byte.x42]] /\
    sent {| sent := [[]]; quota := 999 |} = sent Toy.wire ++ fs /\
    (999 + length fs = quota Toy.wire)%nat /\
    (length fs <= length received <= S (length fs))%nat.
Proof.
  apply (@handshake_alternates Toy.handshake_state Toy.cipher_state Toy.engine
           (Connection_Init new_Connection)
           [repeat Byte.x41 3; [Byte.x42]] Toy.wire (Toy.config 2 false)
           {| res_conn :=
                {| c_Writer := Writer_stream
                                 (NewWriter {| sent := [[]]; quota := 999 |}
                                    (Some (1%nat, 0%nat)));
                   c_Reader := Reader_stream
                                 {| r_src := [[Byte.x42]];
                                    r_dec := Some (2%nat, 0%nat);
                                    r_buf := repeat Byte.x41 3 |};
                   outbuf := None; inbuf := None |};
              res_src := [[Byte.x42]];
              res_dst := {| sent := [[]]; quota := 999 |};
              res_err := None |}).
  reflexivity.
Defined.

(** ** From [Init] to the encrypted stream, on both endpoints *)

Section EndToEnd.

Context {HS CS : Type} `{Cipher CS} `{Engine HS CS}.

Lemma Connection_write_all_stream (ps : list bytes) :
  forall (w : Writer CS) (r : conn_reader CS) (ob ib : option Buffer.t),
    Connection_write_all
      {| c_Writer := Writer_stream w; c_Reader := r; outbuf := ob;
         inbuf := ib |} ps =
    match write_all w ps with
    | Returns (w', rs) =>
        Returns ({| c_Writer := Writer_stream w'; c_Reader := r;
                    outbuf := ob; inbuf := ib |}, rs)
    | Panics x => Panics x
    end.
Proof.
  induction ps as [| p ps IH]; intros w r ob ib; simpl; [reflexivity |].
  unfold Connection_Write. simpl.
  destruct (Writer_Write w p) as [[w1 res] | x]; [| reflexivity].
  simpl. rewrite IH.
  destruct (write_all w1 ps) as [[w2 rs] | x]; reflexivity.
Qed.

Lemma Connection_read_seq_stream (ks : list nat) :
  forall (r : Reader CS) (w : conn_writer CS) (ob ib : option Buffer.t),
    Connection_read_seq
      {| c_Writer := w; c_Reader := Reader_stream r; outbuf := ob;
         inbuf := ib |} ks =
    match read_seq r ks with
    | Returns (r', out) =>
        Returns ({| c_Writer := w; c_Reader := Reader_stream r';
                    outbuf := ob; inbuf := ib |}, out)
    | Panics x => Panics x
    end.
Proof.
  induction ks as [| k ks IH]; intros r w ob ib; simpl; [reflexivity |].
  unfold Connection_Read. simpl.
  destruct (Reader_Read r k) as [[r1 [got err]] | x]; [| reflexivity].
  simpl. rewrite IH.
  destruct (read_seq r1 ks) as [[r2 more] | x]; reflexivity.
Qed.

Variable total : nat.
Variable linked : nat -> HS -> HS -> Prop.

Hypothesis linked_step :
  forall (k : nat) (hw hr : HS) (payload : bytes),
    linked k hw hr ->
    (k < total)%nat ->
    exists (hw' hr' : HS) (msg : bytes) (wo wi ri ro : option CS),
      WriteMessage hw payload = (hw', (msg, wo, wi)) /\
      ReadMessage hr msg = (hr', (payload, ri, ro, None)) /\
      linked (S k) hr' hw' /\
      (S k = total -> wo <> None /\ ro <> None /\ ri = wo /\ ro = wi) /\
      ((S k < total)%nat -> wo = None /\ ro = None).

Variable paired : CS -> CS -> Prop.

Hypothesis paired_step :
  forall (e d : CS) (p : bytes),
    paired e d ->
    exists d' : CS,
      Decrypt d (snd (Encrypt e p)) = (d', (p, None)) /\
      paired (fst (Encrypt e p)) d'.

(** The two ends derive equal cipher states; a state is the counterpart
    of itself. *)
Hypothesis paired_same : forall c : CS, paired c c.

(** X5: both endpoints stage data after [Init], run [Handshake] on a
    pattern of at least two messages, and then write more.  Every call
    succeeds; each side's handshake consumes exactly the other side's
    handshake frames; and the bytes each side reads afterwards are the
    bytes the peer staged followed by the bytes the peer wrote after the
    handshake, in order and complete once enough non-empty reads were
    made. *)
Theorem secure_channel_end_to_end (ncI ncR : Config)
    (psI psR qsI qsR : list bytes) (dstI dstR : Encoder)
    (ksI ksR : list nat) :
  Initiator ncI = true -> Initiator ncR = false ->
  length (Messages (Pattern ncI)) = total ->
  length (Messages (Pattern ncR)) = total ->
  linked 0 (NewHandshakeState ncI) (NewHandshakeState ncR) ->
  (2 <= total)%nat -> Z.of_nat total < 2 ^ 50 ->
  Buffer.Len (concat psI) < 2 ^ 62 -> Buffer.Len (concat psR) < 2 ^ 62 ->
  sent dstI = [] -> sent dstR = [] ->
  (total + length qsI <= quota dstI)%nat ->
  (total + length qsR <= quota dstR)%nat ->
  Forall (fun k => (0 < k)%nat) ksI -> Forall (fun k => (0 < k)%nat) ksR ->
  (length (concat psR) + length (concat qsR) + length qsR <= length ksI)%nat ->
  (length (concat psI) + length (concat qsI) + length qsI <= length ksR)%nat ->
  exists (cI cR : Connection CS) (fIR fRI gIR gRI : list bytes)
         (resI resR : handshake_result CS) (cI' cR' cI'' cR'' : Connection CS)
         (wI wR : Writer CS),
    Connection_write_all (Connection_Init new_Connection) psI =
    Returns (cI, map (fun p => (Z.of_nat (length p), None)) psI) /\
    Connection_write_all (Connection_Init new_Connection) psR =
    Returns (cR, map (fun p => (Z.of_nat (length p), None)) psR) /\
    Connection_Handshake cI (fRI ++ gRI) dstI ncI = Returns resI /\
    Connection_Handshake cR (fIR ++ gIR) dstR ncR = Returns resR /\
    res_err resI = None /\ res_err resR = None /\
    Connection_write_all (res_conn resI) qsI =
    Returns (cI', map (fun p => (Z.of_nat (length p), None)) qsI) /\
    Connection_write_all (res_conn resR) qsR =
    Returns (cR', map (fun p => (Z.of_nat (length p), None)) qsR) /\
    c_Writer cI' = Writer_stream wI /\ sent (w_dst wI) = fIR ++ gIR /\
    c_Writer cR' = Writer_stream wR /\ sent (w_dst wR) = fRI ++ gRI /\
    Connection_read_seq (res_conn resI) ksI =
    Returns (cI'', concat psR ++ concat qsR) /\
    Connection_read_seq (res_conn resR) ksR =
    Returns (cR'', concat psI ++ concat qsI).
Proof.
  intros HI HR HmI HmR Hlink Htot Hbound HlI HlR HsI HsR HqI HqR
         HkI HkR HnI HnR.
  destruct (@handshake_delivers_staged HS CS _ total linked linked_step
              ncI ncR (concat psI) (concat psR)
              {| c_Writer := Writer_outbuf; c_Reader := Reader_inbuf;
                 outbuf := Some (concat psI); inbuf := Some [] |}
              {| c_Writer := Writer_outbuf; c_Reader := Reader_inbuf;
                 outbuf := Some (concat psR); inbuf := Some [] |}
              dstI dstR HI HR HmI HmR Hlink Htot Hbound
              eq_refl eq_refl eq_refl eq_refl HlI HlR
              ltac:(lia) ltac:(lia))
    as (fIR & fRI & lI & lR & vI & vR & _ & _ & _ & _ & Hoi1 & Hoi2
        & Hn1 & Hn2 & HsentI & HsentR & HquI & HquR & Hlen & Hrun).
  destruct (v_o vI) as [eI |] eqn:HeI; [| congruence].
  destruct (v_o vR) as [eR |] eqn:HeR; [| congruence].
  destruct (Hrun (snd (seal eR qsR)) (snd (seal eI qsI)))
    as (_ & _ & HhI & HhR).
  destruct (read_seq_stream paired paired_step ksI eR eR qsR (concat psR)
              (paired_same eR))
    as (rI' & outI & restI & HreadI & HcatI & HallI).
  destruct (read_seq_stream paired paired_step ksR eI eI qsI (concat psI)
              (paired_same eI))
    as (rR' & outR & restR & HreadR & HcatR & HallR).
  rewrite (HallI HkI HnI), app_nil_r in HcatI.
  rewrite (HallR HkR HnR), app_nil_r in HcatR.
  subst outI outR.
  eexists _, _, fIR, fRI, (snd (seal eI qsI)), (snd (seal eR qsR)).
  eexists _, _, _, _, _, _, _, _.
  split; [apply staging_writes_accumulate; exact O |].
  split; [apply staging_writes_accumulate; exact O |].
  split; [exact HhI |]. split; [exact HhR |].
  split; [reflexivity |]. split; [reflexivity |].
  simpl res_conn. unfold NewWriter.
  rewrite !Connection_write_all_stream, !Connection_read_seq_stream.
  rewrite !write_all_ok by lia.
  rewrite <- Hoi1, <- Hoi2, HreadI, HreadR.
  split; [reflexivity |]. split; [reflexivity |].
  split; [reflexivity |].
  split; [simpl; rewrite HsentI, HsI; reflexivity |].
  split; [reflexivity |].
  split; [simpl; rewrite HsentR, HsR; reflexivity |].
  split; reflexivity.
Qed.

End EndToEnd.

Lemma secure_channel_end_to_end_witness :
  exists (cI cR : Connection Toy.cipher_state) (fIR fRI gIR gRI : list bytes)
         (resI resR : handshake_result Toy.cipher_state)
         (cI' cR' cI'' cR'' : Connection Toy.cipher_state)
         (wI wR : Writer Toy.cipher_state),
    Connection_write_all (H := Toy.cipher) (Connection_Init new_Connection)
      [[Byte.x41]] =
    Returns (cI, map (fun p => (Z.of_nat (length p), None)) [[Byte.x41]]) /\
    Connection_write_all (H := Toy.cipher) (Connection_Init new_Connection)
      [[Byte.x42]] =
    Returns (cR, map (fun p => (Z.of_nat (length p), None)) [[Byte.x42]]) /\
    Connection_Handshake (H0 := Toy.engine) cI (fRI ++ gRI) Toy.wire
      (Toy.config 3 true) = Returns resI /\
    Connection_Handshake (H0 := Toy.engine) cR (fIR ++ gIR) Toy.wire
      (Toy.config 3 false) = Returns resR /\
    res_err resI = None /\ res_err resR = None /\
    Connection_write_all (H := Toy.cipher) (res_conn resI) [[Byte.x43]] =
    Returns (cI', map (fun p => (Z.of_nat (length p), None)) [[Byte.x43]]) /\
    Connection_write_all (H := Toy.cipher) (res_conn resR) [] =
    Returns (cR', map (fun p : bytes => (Z.of_nat (length p), None)) []) /\
    c_Writer cI' = Writer_stream wI /\ sent (w_dst wI) = fIR ++ gIR /\
    c_Writer cR' = Writer_stream wR /\ sent (w_dst wR) = fRI ++ gRI /\
    Connection_read_seq (H := Toy.cipher) (res_conn resI) [1%nat] =
    Returns (cI'', concat [[Byte.x42]] ++ concat (@nil bytes)) /\
    Connection_read_seq (H := Toy.cipher) (res_conn resR)
      [1%nat; 1%nat; 1%nat] =
    Returns (cR'', concat [[Byte.x41]] ++ concat [[Byte.x43]]).
Proof.
  apply (@secure_channel_end_to_end Toy.handshake_state Toy.cipher_state
           Toy.cipher Toy.engine 3
           (fun k hw hr => hw = (k, 3%nat) /\ hr = (k, 3%nat))
           (toy_engine_linked 3) eq toy_cipher_paired (fun c => eq_refl)
           (Toy.config 3 true) (Toy.config 3 false)
           [[Byte.x41]] [[Byte.x42]] [[Byte.x43]] [] Toy.wire Toy.wire
           [1%nat] [1%nat; 1%nat; 1%nat]).
  - reflexivity.
  - reflexivity.
  - reflexivity.
  - reflexivity.
  - split; reflexivity.
  - lia.
  - vm_compute. reflexivity.
  - vm_compute. reflexivity.
  - vm_compute. reflexivity.
  - reflexivity.
  - reflexivity.
  - simpl. lia.
  - simpl. lia.
  - repeat constructor.
  - repeat constructor.
  - simpl. lia.
  - simpl. lia.
Defined.

(** ** The two codec handshakes against each other *)

Section CodecHandshakes.

Context {HS CS : Type} `{Engine HS CS}.
Variable Body : Type.

Lemma client_loop_write_break (src : Decoder)
    (v v' : HS * Encoder * rpcClientCodec CS Body) :
  client_write_step v = Break v' -> client_loop src true v = Finished src v'.
Proof. intros Hw. destruct src; simpl; rewrite Hw; reflexivity. Qed.

Lemma client_loop_write_continue (src : Decoder)
    (v v' : HS * Encoder * rpcClientCodec CS Body) :
  client_write_step v = Continue v' ->
  client_loop src true v = client_loop src false v'.
Proof. intros Hw. destruct src; simpl; rewrite Hw; reflexivity. Qed.

Lemma client_loop_read_break (f : bytes) (rest : Decoder)
    (v v' : HS * Encoder * rpcClientCodec CS Body) :
  client_read_step f v = Break v' ->
  client_loop (f :: rest) false v = Finished rest v'.
Proof. intros Hr. simpl. rewrite Hr. reflexivity. Qed.

Lemma client_loop_read_continue (f : bytes) (rest : Decoder)
    (v v' : HS * Encoder * rpcClientCodec CS Body) :
  client_read_step f v = Continue v' ->
  client_loop (f :: rest) false v = client_loop rest true v'.
Proof. intros Hr. simpl. rewrite Hr. reflexivity. Qed.

Lemma server_loop_write_break (src : Decoder)
    (v v' : HS * Encoder * rpcServerCodec CS Body) :
  server_write_step v = Break v' -> server_loop src true v = Finished src v'.
Proof. intros Hw. destruct src; simpl; rewrite Hw; reflexivity. Qed.

Lemma server_loop_write_continue (src : Decoder)
    (v v' : HS * Encoder * rpcServerCodec CS Body) :
  server_write_step v = Continue v' ->
  server_loop src true v = server_loop src false v'.
Proof. intros Hw. destruct src; simpl; rewrite Hw; reflexivity. Qed.

Lemma server_loop_read_break (f : bytes) (rest : Decoder)
    (v v' : HS * Encoder * rpcServerCodec CS Body) :
  server_read_step f v = Break v' ->
  server_loop (f :: rest) false v = Finished rest v'.
Proof. intros Hr. simpl. rewrite Hr. reflexivity. Qed.

Lemma server_loop_read_continue (f : bytes) (rest : Decoder)
    (v v' : HS * Encoder * rpcServerCodec CS Body) :
  server_read_step f v = Continue v' ->
  server_loop (f :: rest) false v = server_loop rest true v'.
Proof. intros Hr. simpl. rewrite Hr. reflexivity. Qed.

(** The engines of the two sides, as in the linked pair above, for the
    empty payload the codecs send; the cipher results are all nil before
    the last message and all present at it. *)
Variable total : nat.
Variable linked : nat -> HS -> HS -> Prop.

Hypothesis linked_step :
  forall (k : nat) (hw hr : HS),
    linked k hw hr ->
    (k < total)%nat ->
    exists (hw' hr' : HS) (msg p : bytes) (wo wi ri ro : option CS),
      WriteMessage hw [] = (hw', (msg, wo, wi)) /\
      ReadMessage hr msg = (hr', (p, ri, ro, None)) /\
      linked (S k) hr' hw' /\
      (S k = total -> wo <> None /\ wi <> None /\ ri = wo /\ ro = wi) /\
      ((S k < total)%nat ->
       wo = None /\ wi = None /\ ri = None /\ ro = None).

(** With [d] messages left, whichever codec writes next: both loops
    finish on each other's frames, and the client's [enc] is the
    server's [dec] and the client's [dec] the server's [enc]. *)
Lemma codec_loops_meet (d : nat) :
  forall (k : nat) (hw hr : HS) (sC sS : list bytes) (qC qS : nat)
         (rc : rpcClientCodec CS Body) (rs : rpcServerCodec CS Body),
    (k + d = total)%nat -> (1 <= d)%nat ->
    linked k hw hr ->
    (d <= qC)%nat -> (d <= qS)%nat ->
    (exists (fC fS : list bytes) (hc' hs' : HS) (a b : CS) (qC' qS' : nat),
        forall restC restS : Decoder,
          client_loop (fS ++ restC) true (hw, mkEncoder sC qC, rc) =
          Finished restC (hc', mkEncoder (sC ++ fC) qC',
                          cc_set_ciphers rc (Some a) (Some b)) /\
          server_loop (fC ++ restS) false (hr, mkEncoder sS qS, rs) =
          Finished restS (hs', mkEncoder (sS ++ fS) qS',
                          sc_set_ciphers rs (Some b) (Some a))) /\
    (exists (fC fS : list bytes) (hc' hs' : HS) (a b : CS) (qC' qS' : nat),
        forall restC restS : Decoder,
          server_loop (fC ++ restS) true (hw, mkEncoder sS qS, rs) =
          Finished restS (hs', mkEncoder (sS ++ fS) qS',
                          sc_set_ciphers rs (Some b) (Some a)) /\
          client_loop (fS ++ restC) false (hr, mkEncoder sC qC, rc) =
          Finished restC (hc', mkEncoder (sC ++ fC) qC',
                          cc_set_ciphers rc (Some a) (Some b))).
Proof.
  induction d as [| d IH];
    intros k hw hr sC sS qC qS rc rs Hk Hd Hlink HqC HqS; [lia |].
  destruct (linked_step k hw hr Hlink ltac:(lia))
    as (hw' & hr' & msg & p & wo & wi & ri & ro & Hwm & Hrm & Hlink'
        & Hlast & Hmid).
  destruct qC as [| qC]; [lia |]. destruct qS as [| qS]; [lia |].
  destruct d as [| d].
  - destruct (Hlast ltac:(lia)) as (Hwo & Hwi & -> & ->).
    destruct wo as [a |]; [| congruence].
    destruct wi as [b |]; [| congruence].
    split.
    + exists [msg], [], hw', hr', a, b, qC, (S qS).
      intros restC restS. rewrite app_nil_r. split.
      * apply client_loop_write_break. unfold client_write_step.
        rewrite Hwm. reflexivity.
      * apply server_loop_read_break. unfold server_read_step.
        rewrite Hrm. reflexivity.
    + exists [], [msg], hr', hw', a, b, (S qC), qS.
      intros restC restS. rewrite app_nil_r. split.
      * apply server_loop_write_break. unfold server_write_step.
        rewrite Hwm. reflexivity.
      * apply client_loop_read_break. unfold client_read_step.
        rewrite Hrm. reflexivity.
  - destruct (Hmid ltac:(lia)) as (-> & -> & -> & ->).
    split.
    + destruct (IH (S k) hr' hw' (sC ++ [msg]) sS qC (S qS)
                  (cc_set_ciphers rc None None) (sc_set_ciphers rs None None)
                  ltac:(lia) ltac:(lia) Hlink' ltac:(lia) ltac:(lia))
        as [_ (fC & fS & hc' & hs' & a & b & qC' & qS' & Hrun)].
      exists (msg :: fC), fS, hc', hs', a, b, qC', qS'.
      intros restC restS. destruct (Hrun restC restS) as [HS' HC']. split.
      * rewrite (client_loop_write_continue (fS ++ restC)
                   (hw, mkEncoder sC (S qC), rc)
                   (hw', mkEncoder (sC ++ [msg]) qC,
                    cc_set_ciphers rc None None)).
        -- rewrite HC', <- app_assoc. reflexivity.
        -- unfold client_write_step. rewrite Hwm. reflexivity.
      * simpl app.
        rewrite (server_loop_read_continue msg (fC ++ restS)
                   (hr, mkEncoder sS (S qS), rs)
                   (hr', mkEncoder sS (S qS), sc_set_ciphers rs None None)).
        -- rewrite HS'. reflexivity.
        -- unfold server_read_step. rewrite Hrm. reflexivity.
    + destruct (IH (S k) hr' hw' sC (sS ++ [msg]) (S qC) qS
                  (cc_set_ciphers rc None None) (sc_set_ciphers rs None None)
                  ltac:(lia) ltac:(lia) Hlink' ltac:(lia) ltac:(lia))
        as [(fC & fS & hc' & hs' & a & b & qC' & qS' & Hrun) _].
      exists fC, (msg :: fS), hc', hs', a, b, qC', qS'.
      intros restC restS. destruct (Hrun restC restS) as [HC' HS']. split.
      * rewrite (server_loop_write_continue (fC ++ restS)
                   (hw, mkEncoder sS (S qS), rs)
                   (hw', mkEncoder (sS ++ [msg]) qS,
                    sc_set_ciphers rs None None)).
        -- rewrite HS', <- app_assoc. reflexivity.
        -- unfold server_write_step. rewrite Hwm. reflexivity.
      * simpl app.
        rewrite (client_loop_read_continue msg (fS ++ restC)
                   (hr, mkEncoder sC (S qC), rc)
                   (hr', mkEncoder sC (S qC), cc_set_ciphers rc None None)).
        -- rewrite HC'. reflexivity.
        -- unfold client_read_step. rewrite Hrm. reflexivity.
Qed.

(** X6: a client codec and a server codec, one of them the initiator,
    run their handshakes against each other on a pattern of at least one
    message.  Both return without error, each having consumed exactly
    the other's frames; the cipher state the client encrypts with is the
    one the server decrypts with, and the one the server encrypts with is
    the one the client decrypts with; no other field of either codec is
    touched. *)
Theorem codec_handshakes_meet (ncC ncS : Config)
    (rc : rpcClientCodec CS Body) (rs : rpcServerCodec CS Body)
    (dstC dstS : Encoder) :
  (1 <= total)%nat ->
  (total <= quota dstC)%nat -> (total <= quota dstS)%nat ->
  (Initiator ncC = true /\ Initiator ncS = false /\
   linked 0 (NewHandshakeState ncC) (NewHandshakeState ncS)) \/
  (Initiator ncC = false /\ Initiator ncS = true /\
   linked 0 (NewHandshakeState ncS) (NewHandshakeState ncC)) ->
  exists (fC fS : list bytes) (a b : CS) (dstC' dstS' : Encoder),
    sent dstC' = sent dstC ++ fC /\ sent dstS' = sent dstS ++ fS /\
    forall restC restS : Decoder,
      rpcClientCodec_handshake rc (fS ++ restC) dstC ncC =
      Returns (cc_set_ciphers rc (Some a) (Some b), restC, dstC', None) /\
      rpcServerCodec_handshake rs (fC ++ restS) dstS ncS =
      Returns (sc_set_ciphers rs (Some b) (Some a), restS, dstS', None).
Proof.
  intros Htot HqC HqS Hrole.
  destruct dstC as [sC qC]. destruct dstS as [sS qS]. simpl in HqC, HqS.
  destruct Hrole as [(HC & HS' & Hlink) | (HC & HS' & Hlink)].
  - destruct (codec_loops_meet total 0 (NewHandshakeState ncC)
                (NewHandshakeState ncS) sC sS qC qS rc rs
                ltac:(lia) Htot Hlink HqC HqS)
      as [(fC & fS & hc' & hs' & a & b & qC' & qS' & Hrun) _].
    exists fC, fS, a, b, (mkEncoder (sC ++ fC) qC'), (mkEncoder (sS ++ fS) qS').
    split; [reflexivity |]. split; [reflexivity |].
    intros restC restS. destruct (Hrun restC restS) as [HlC HlS].
    unfold rpcClientCodec_handshake, rpcServerCodec_handshake.
    rewrite HC, HS', HlC, HlS. split; reflexivity.
  - destruct (codec_loops_meet total 0 (NewHandshakeState ncS)
                (NewHandshakeState ncC) sC sS qC qS rc rs
                ltac:(lia) Htot Hlink HqC HqS)
      as [_ (fC & fS & hc' & hs' & a & b & qC' & qS' & Hrun)].
    exists fC, fS, a, b, (mkEncoder (sC ++ fC) qC'), (mkEncoder (sS ++ fS) qS').
    split; [reflexivity |]. split; [reflexivity |].
    intros restC restS. destruct (Hrun restC restS) as [HlS HlC].
    unfold rpcClientCodec_handshake, rpcServerCodec_handshake.
    rewrite HC, HS', HlC, HlS. split; reflexivity.
Qed.

End CodecHandshakes.

Lemma toy_engine_linked_empty (total k : nat) (hw hr : Toy.handshake_state) :
  hw = (k, total) /\ hr = (k, total) ->
  (k < total)%nat ->
  exists (hw' hr' : Toy.handshake_state) (msg p : bytes)
         (wo wi ri ro : option Toy.cipher_state),
    Toy.write_message hw [] = (hw', (msg, wo, wi)) /\
    Toy.read_message hr msg = (hr', (p, ri, ro, None)) /\
    (hr' = (S k, total) /\ hw' = (S k, total)) /\
    (S k = total -> wo <> None /\ wi <> None /\ ri = wo /\ ro = wi) /\
    ((S k < total)%nat ->
     wo = None /\ wi = None /\ ri = None /\ ro = None).
Proof.
  intros [-> ->] Hk. unfold Toy.write_message, Toy.read_message, Toy.split.
  destruct (Nat.eqb_spec (S k) total) as [He | Hne].
  - eexists _, _, _, _, _, _, _, _. repeat split; try discriminate; lia.
  - eexists _, _, _, _, _, _, _, _. repeat split; try reflexivity;
      intros; congruence.
Qed.

Lemma codec_handshakes_meet_witness :
  exists (fC fS : list bytes) (a b : Toy.cipher_state)
         (dstC' dstS' : Encoder),
    sent dstC' = sent Toy.wire ++ fC /\ sent dstS' = sent Toy.wire ++ fS /\
    forall restC restS : Decoder,
      rpcClientCodec_handshake (H0 := Toy.engine)
        (new_rpcClientCodec Toy.cipher_state bytes) (fS ++ restC) Toy.wire
        (Toy.config 2 false) =
      Returns (cc_set_ciphers (new_rpcClientCodec Toy.cipher_state bytes)
                 (Some a) (Some b), restC, dstC', None) /\
      rpcServerCodec_handshake (H0 := Toy.engine)
        (new_rpcServerCodec Toy.cipher_state bytes) (fC ++ restS) Toy.wire
        (Toy.config 2 true) =
      Returns (sc_set_ciphers (new_rpcServerCodec Toy.cipher_state bytes)
                 (Some b) (Some a), restS, dstS', None).
Proof.
  apply (@codec_handshakes_meet Toy.handshake_state Toy.cipher_state
           Toy.engine bytes 2
           (fun k hw hr => hw = (k, 2%nat) /\ hr = (k, 2%nat))
           (toy_engine_linked_empty 2)
           (Toy.config 2 false) (Toy.config 2 true)
           (new_rpcClientCodec Toy.cipher_state bytes)
           (new_rpcServerCodec Toy.cipher_state bytes) Toy.wire Toy.wire).
  - lia.
  - simpl. lia.
  - simpl. lia.
  - right. repeat split.
Defined.

(** ** The chunk length and the slice taken by [outbuf.Next] *)

Section ChunkSafety.

Context {HS CS : Type} `{Engine HS CS}.

(** X7: the arithmetic of [Handshake] before the engine is created, on a
    connection with both staging buffers.  The division [l/nm] panics
    exactly when more than 4096 bytes are staged and this side sends no
    message; [Handshake] then panics whatever transport it is given.  In
    every other case the chunk length [l] is computed, it is never
    negative and at most one more than the staged length, it is positive
    when something is staged, and [Next(l)] on any buffer returns its
    first [l] bytes (all of them when fewer remain) without a slice
    panic. *)
Theorem handshake_chunk_in_bounds (c : Connection CS) (nc : Config)
    (ob ib : Buffer.t) :
  Z.of_nat (length (Messages (Pattern nc))) < 2 ^ 50 ->
  Buffer.Len ob < 2 ^ 62 ->
  outbuf c = Some ob -> inbuf c = Some ib ->
  (4096 < Buffer.Len ob /\
   sends (Initiator nc) (Z.of_nat (length (Messages (Pattern nc)))) = 0 ->
   chunk_size (Initiator nc) (Z.of_nat (length (Messages (Pattern nc))))
     (Buffer.Len ob) = Panics DivideByZero /\
   forall (src : Decoder) (dst : Encoder),
     Connection_Handshake c src dst nc = Panics DivideByZero) /\
  (~ (4096 < Buffer.Len ob /\
      sends (Initiator nc) (Z.of_nat (length (Messages (Pattern nc)))) = 0) ->
   exists l : Z,
     chunk_size (Initiator nc) (Z.of_nat (length (Messages (Pattern nc))))
       (Buffer.Len ob) = Returns l /\
     0 <= l <= Buffer.Len ob + 1 /\
     (0 < Buffer.Len ob -> 0 < l) /\
     forall b : Buffer.t,
       Buffer.Next b l =
       Returns (firstn (Z.to_nat l) b, skipn (Z.to_nat l) b)).
Proof.
  intros Hn Hbound Hob Hib.
  assert (HL : 0 <= Buffer.Len ob) by (unfold Buffer.Len; lia).
  pose proof (sends_nonneg (Initiator nc)
                (Z.of_nat (length (Messages (Pattern nc)))) ltac:(lia)) as Hs.
  split.
  - intros [Hbig Hzero].
    assert (Hc : chunk_size (Initiator nc)
                   (Z.of_nat (length (Messages (Pattern nc))))
                   (Buffer.Len ob) = Panics DivideByZero)
      by (apply chunk_size_zero_sends; [lia | lia | assumption]).
    split; [assumption |].
    intros src dst. unfold Connection_Handshake.
    rewrite Hob, Hib, Hc. reflexivity.
  - intros Hnot. rewrite chunk_size_unfold by lia. cbv zeta.
    set (n := sends (Initiator nc)
                (Z.of_nat (length (Messages (Pattern nc))))) in *.
    assert (Hnext : forall l : Z, 0 <= l ->
               forall b : Buffer.t,
                 Buffer.Next b l =
                 Returns (firstn (Z.to_nat l) b, skipn (Z.to_nat l) b)).
    { intros l Hl b. unfold Buffer.Next.
      destruct (Z.ltb_spec l 0); [lia | reflexivity]. }
    destruct (Z.gtb_spec (Buffer.Len ob) 4096) as [Hbig | Hsmall].
    + destruct (Z.ltb_spec (n * 4096) (Buffer.Len ob)) as [Hover | Hfit].
      * destruct (Z.eqb_spec n 0) as [Hz | Hnz].
        { exfalso. apply Hnot. split; [lia | assumption]. }
        assert (0 <= Buffer.Len ob / n <= Buffer.Len ob).
        { split; [apply Z.div_pos; lia |].
          apply Z.div_le_upper_bound; nia. }
        exists (Buffer.Len ob / n + 1).
        split; [reflexivity |]. split; [lia |]. split; [lia |].
        apply Hnext. lia.
      * exists 4096. split; [reflexivity |]. split; [lia |].
        split; [lia |]. apply Hnext. lia.
    + exists (Buffer.Len ob). split; [reflexivity |]. split; [lia |].
      split; [lia |]. apply Hnext. lia.
Qed.

End ChunkSafety.

Lemma handshake_chunk_in_bounds_witness :
  (chunk_size false 1 4097 = Panics DivideByZero /\
   forall (src : Decoder) (dst : Encoder),
     Connection_Handshake (H0 := Toy.engine)
       ({| c_Writer := Writer_outbuf; c_Reader := Reader_inbuf;
           outbuf := Some (repeat Byte.x41 4097);
           inbuf := Some ([] : Buffer.t) |}
        : Connection Toy.cipher_state)
       src dst (Toy.config 1 false) = Panics DivideByZero) /\
  (exists l : Z,
      chunk_size true 3 8194 = Returns l /\
      0 <= l <= 8194 + 1 /\ (0 < 8194 -> 0 < l) /\
      forall b : Buffer.t,
        Buffer.Next b l =
        Returns (firstn (Z.to_nat l) b, skipn (Z.to_nat l) b)).
Proof.
  split.
  - apply (proj1
             (@handshake_chunk_in_bounds Toy.handshake_state Toy.cipher_state
                Toy.engine
                ({| c_Writer := Writer_outbuf; c_Reader := Reader_inbuf;
                    outbuf := Some (repeat Byte.x41 4097);
                    inbuf := Some ([] : Buffer.t) |}
                 : Connection Toy.cipher_state)
                (Toy.config 1 false) (repeat Byte.x41 4097) []
                ltac:(vm_compute; reflexivity) ltac:(vm_compute; reflexivity)
                eq_refl eq_refl)).
    split; vm_compute; reflexivity.
  - apply (proj2
             (@handshake_chunk_in_bounds Toy.handshake_state Toy.cipher_state
                Toy.engine
                ({| c_Writer := Writer_outbuf; c_Reader := Reader_inbuf;
                    outbuf := Some (repeat Byte.x41 8194);
                    inbuf := Some ([] : Buffer.t) |}
                 : Connection Toy.cipher_state)
                (Toy.config 3 true) (repeat Byte.x41 8194) []
                ltac:(vm_compute; reflexivity) ltac:(vm_compute; reflexivity)
                eq_refl eq_refl)).
    intros [_ Hzero]. vm_compute in Hzero. discriminate Hzero.
Defined.

(** ** Calls and replies in sequence *)

Section Calls.

Context {CS : Type} `{Cipher CS}.
Variable Body : Type.
Variable paired : CS -> CS -> Prop.

Hypothesis paired_step :
  forall (e d : CS) (p : bytes),
    paired e d ->
    exists d' : CS,
      Decrypt d (snd (Encrypt e p)) = (d', (p, None)) /\
      paired (fst (Encrypt e p)) d'.

Lemma read_call_step
    (decode : bytes -> Request -> option error * Request * closure Body)
    (rs : rpcServerCodec CS Body) (d d' : CS) (c b : bytes) (rest : Decoder)
    (req req0 : Request) (i i0 : Body) (k k' : closure Body) :
  sc_decode rs = Some decode -> sc_dec rs = Some d ->
  sc_src rs = Some (c :: rest) ->
  Decrypt d c = (d', (b, None)) ->
  decode b req0 = (None, req, k) ->
  call_closure k i0 = (k', (i, None)) ->
  exists rs1 : rpcServerCodec CS Body,
    rpcServerCodec_read_call rs req0 i0 = Returns (rs1, (req, i, None)) /\
    sc_decode rs1 = Some decode /\ sc_dec rs1 = Some d' /\
    sc_src rs1 = Some rest.
Proof.
  intros Hdec Hd Hsrc Hdb Hk Hk'.
  unfold rpcServerCodec_read_call, rpcServerCodec_ReadRequestHeader.
  rewrite Hsrc, Hd. simpl. rewrite Hdb, Hdec, Hk.
  unfold rpcServerCodec_ReadRequestBody. simpl. rewrite Hk'.
  eexists. split; [reflexivity |]. simpl. repeat split; assumption.
Qed.

Lemma read_reply_step
    (decode : bytes -> Response -> option error * Response * closure Body)
    (rc : rpcClientCodec CS Body) (d d' : CS) (c b : bytes) (rest : Decoder)
    (resp resp0 : Response) (i i0 : Body) (k k' : closure Body) :
  cc_decode rc = Some decode -> cc_dec rc = Some d ->
  cc_src rc = Some (c :: rest) ->
  Decrypt d c = (d', (b, None)) ->
  decode b resp0 = (None, resp, k) ->
  call_closure k i0 = (k', (i, None)) ->
  exists rc1 : rpcClientCodec CS Body,
    rpcClientCodec_read_reply rc resp0 i0 = Returns (rc1, (resp, i, None)) /\
    cc_decode rc1 = Some decode /\ cc_dec rc1 = Some d' /\
    cc_src rc1 = Some rest.
Proof.
  intros Hdec Hd Hsrc Hdb Hk Hk'.
  unfold rpcClientCodec_read_reply, rpcClientCodec_ReadResponseHeader.
  rewrite Hsrc, Hd. simpl. rewrite Hdb, Hdec, Hk.
  unfold rpcClientCodec_ReadResponseBody. simpl. rewrite Hk'.
  eexists. split; [reflexivity |]. simpl. repeat split; assumption.
Qed.

(** The three methods of a call, for a client codec and a server codec
    whose [src] and [dst] fields have been assigned (the constructors
    leave them nil).  A call that [encode] rejects returns the error of
    [encode], puts no frame on the wire and leaves the cipher state
    alone; every other call returns no error and adds one frame.  A
    server codec holding the paired cipher state that receives those
    frames reads, with [ReadRequestHeader] followed by
    [ReadRequestBody], the header and the argument of each accepted
    call, in the order of the calls, with no error, and consumes exactly
    those frames. *)
Lemma requests_arrive_in_order
    (encode : Request -> Body -> bytes * option error)
    (decode : bytes -> Request -> option error * Request * closure Body) :
  reads_back encode decode ->
  forall (calls : list (Request * Body)) (rc : rpcClientCodec CS Body)
         (e d : CS) (dst : Encoder),
    cc_encode rc = Some encode -> cc_enc rc = Some e ->
    cc_dst rc = Some dst ->
    (length (accepted encode calls) <= quota dst)%nat ->
    paired e d ->
    exists (rc' : rpcClientCodec CS Body) (dst' : Encoder) (fs : list bytes),
      rpcClientCodec_write_requests rc calls =
      Returns (rc', map (fun c => snd (encode (fst c) (snd c))) calls) /\
      cc_dst rc' = Some dst' /\ sent dst' = sent dst ++ fs /\
      length fs = length (accepted encode calls) /\
      forall (rs : rpcServerCodec CS Body) (rest : Decoder)
             (req0 : Request) (i0 : Body),
        sc_decode rs = Some decode -> sc_dec rs = Some d ->
        sc_src rs = Some (fs ++ rest) ->
        exists rs' : rpcServerCodec CS Body,
          rpcServerCodec_read_calls rs req0 i0
            (length (accepted encode calls)) =
          Returns (rs', map (fun c => (fst c, snd c, None))
                          (accepted encode calls)) /\
          sc_src rs' = Some rest.
Proof.
  intros Hlaw. unfold accepted.
  induction calls as [| [req i] calls IH];
    intros rc e d dst Henc He Hdst Hq Hp.
  - exists rc, dst, []. simpl. rewrite app_nil_r.
    repeat split; try assumption; try reflexivity.
    intros rs rest req0 i0 _ _ Hsrc. exists rs. split; [reflexivity |].
    exact Hsrc.
  - simpl in Hq |- *.
    unfold rpcClientCodec_WriteRequest. rewrite Henc.
    destruct (encode req i) as [b [err |]] eqn:Hb; simpl in Hq |- *.
    + destruct (IH rc e d dst Henc He Hdst Hq Hp)
        as (rc' & dst' & fs & Hw & Hd' & Hs & Hl & Hr).
      rewrite Hw. exists rc', dst', fs.
      repeat split; try assumption; reflexivity.
    + rewrite He, Hdst.
      destruct (paired_step e d b Hp) as (d' & Hdb & Hp').
      destruct (Encrypt e b) as [e' c] eqn:HE. simpl in Hdb, Hp'.
      unfold EncodeOpaque. destruct (quota dst) as [| q] eqn:Hquota;
        [lia |].
      match goal with
      | |- context [rpcClientCodec_write_requests ?r calls] =>
          destruct (IH r e' d' {| sent := sent dst ++ [c]; quota := q |}
                      eq_refl eq_refl eq_refl ltac:(simpl; lia) Hp')
            as (rc' & dst' & fs & Hw & Hd' & Hs & Hl & Hr)
      end.
      rewrite Hw. exists rc', dst', (c :: fs).
      split; [reflexivity |]. split; [assumption |].
      split; [rewrite Hs; simpl; rewrite <- app_assoc; reflexivity |].
      split; [simpl; rewrite Hl; reflexivity |].
      intros rs rest req0 i0 Hdec Hd Hsrc.
      destruct (Hlaw req i b Hb req0 i0) as (k & k' & Hk & Hk').
      destruct (read_call_step decode rs d d' c b (fs ++ rest) req req0
                  i i0 k k' Hdec Hd Hsrc Hdb Hk Hk')
        as (rs1 & Hcall & Hdec1 & Hd1 & Hsrc1).
      destruct (Hr rs1 rest req0 i0 Hdec1 Hd1 Hsrc1) as (rs' & Hrest & Hend).
      exists rs'. simpl. rewrite Hcall, Hrest. split; [reflexivity |].
      exact Hend.
Qed.

(** The same for the replies, again for codecs whose transport fields
    have been assigned. *)
Lemma replies_arrive_in_order
    (encode : Response -> Body -> bytes * option error)
    (decode : bytes -> Response -> option error * Response * closure Body) :
  reads_back encode decode ->
  forall (replies : list (Response * Body)) (rs : rpcServerCodec CS Body)
         (e d : CS) (dst : Encoder),
    sc_encode rs = Some encode -> sc_enc rs = Some e ->
    sc_dst rs = Some dst ->
    (length (accepted encode replies) <= quota dst)%nat ->
    paired e d ->
    exists (rs' : rpcServerCodec CS Body) (dst' : Encoder) (fs : list bytes),
      rpcServerCodec_write_responses rs replies =
      Returns (rs', map (fun c => snd (encode (fst c) (snd c))) replies) /\
      sc_dst rs' = Some dst' /\ sent dst' = sent dst ++ fs /\
      length fs = length (accepted encode replies) /\
      forall (rc : rpcClientCodec CS Body) (rest : Decoder)
             (resp0 : Response) (i0 : Body),
        cc_decode rc = Some decode -> cc_dec rc = Some d ->
        cc_src rc = Some (fs ++ rest) ->
        exists rc' : rpcClientCodec CS Body,
          rpcClientCodec_read_replies rc resp0 i0
            (length (accepted encode replies)) =
          Returns (rc', map (fun c => (fst c, snd c, None))
                          (accepted encode replies)) /\
          cc_src rc' = Some rest.
Proof.
  intros Hlaw. unfold accepted.
  induction replies as [| [resp i] replies IH];
    intros rs e d dst Henc He Hdst Hq Hp.
  - exists rs, dst, []. simpl. rewrite app_nil_r.
    repeat split; try assumption; try reflexivity.
    intros rc rest resp0 i0 _ _ Hsrc. exists rc. split; [reflexivity |].
    exact Hsrc.
  - simpl in Hq |- *.
    unfold rpcServerCodec_WriteResponse. rewrite Henc.
    destruct (encode resp i) as [b [err |]] eqn:Hb; simpl in Hq |- *.
    + destruct (IH rs e d dst Henc He Hdst Hq Hp)
        as (rs' & dst' & fs & Hw & Hd' & Hs & Hl & Hr).
      rewrite Hw. exists rs', dst', fs.
      repeat split; try assumption; reflexivity.
    + rewrite He, Hdst.
      destruct (paired_step e d b Hp) as (d' & Hdb & Hp').
      destruct (Encrypt e b) as [e' c] eqn:HE. simpl in Hdb, Hp'.
      unfold EncodeOpaque. destruct (quota dst) as [| q] eqn:Hquota;
        [lia |].
      match goal with
      | |- context [rpcServerCodec_write_responses ?r replies] =>
          destruct (IH r e' d' {| sent := sent dst ++ [c]; quota := q |}
                      eq_refl eq_refl eq_refl ltac:(simpl; lia) Hp')
            as (rs' & dst' & fs & Hw & Hd' & Hs & Hl & Hr)
      end.
      rewrite Hw. exists rs', dst', (c :: fs).
      split; [reflexivity |]. split; [assumption |].
      split; [rewrite Hs; simpl; rewrite <- app_assoc; reflexivity |].
      split; [simpl; rewrite Hl; reflexivity |].
      intros rc rest resp0 i0 Hdec Hd Hsrc.
      destruct (Hlaw resp i b Hb resp0 i0) as (k & k' & Hk & Hk').
      destruct (read_reply_step decode rc d d' c b (fs ++ rest) resp resp0
                  i i0 k k' Hdec Hd Hsrc Hdb Hk Hk')
        as (rc1 & Hcall & Hdec1 & Hd1 & Hsrc1).
      destruct (Hr rc1 rest resp0 i0 Hdec1 Hd1 Hsrc1) as (rc' & Hrest & Hend).
      exists rc'. simpl. rewrite Hcall, Hrest. split; [reflexivity |].
      exact Hend.
Qed.

End Calls.

(** The eight binding functions pair up as [reads_back] asks, for
    serializers that read back what they wrote. *)
Lemma bindings_read_back (Body : Type) (S : Serializer Body)
    (in_step : enc_state S -> dec_state S -> Prop) :
  round_trips S in_step ->
  reads_back (xdrEncReq S) (xdrDecReq S) /\
  reads_back (xdrEncResp S) (xdrDecResp S) /\
  reads_back (gobEncReq S) (gobDecReq S) /\
  reads_back (gobEncResp S) (gobDecResp S).
Proof.
  intros Hrt. unfold reads_back. repeat split; intros r i b Henc r0 i0.
  - destruct (envelope_law Body S in_step KRequest r i b Hrt Henc r0 i0)
      as (dec & dec' & Hh & Hb).
    exists (body_closure S dec), (body_closure S dec').
    unfold xdrDecReq. rewrite Hh.
    split; [reflexivity | apply call_body_closure; assumption].
  - destruct (envelope_law Body S in_step KResponse r i b Hrt Henc r0 i0)
      as (dec & dec' & Hh & Hb).
    exists (body_closure S dec), (body_closure S dec').
    unfold xdrDecResp. rewrite Hh.
    split; [reflexivity | apply call_body_closure; assumption].
  - destruct (envelope_law Body S in_step KRequest r i b Hrt Henc r0 i0)
      as (dec & dec' & Hh & Hb).
    exists (body_closure S dec), (body_closure S dec').
    unfold gobDecReq. rewrite Hh.
    split; [reflexivity | apply call_body_closure; assumption].
  - destruct (envelope_law Body S in_step KResponse r i b Hrt Henc r0 i0)
      as (dec & dec' & Hh & Hb).
    exists (body_closure S dec), (body_closure S dec').
    unfold gobDecResp. rewrite Hh.
    split; [reflexivity | apply call_body_closure; assumption].
Qed.

(** ** The codecs the constructors return *)

Section Constructed.

Context {HS CS : Type} `{Cipher CS} `{Engine HS CS}.
Variable Body : Type.

(** The handshake loops assign the two cipher fields and nothing else. *)
Lemma client_loop_only_ciphers (src : Decoder) :
  forall (state : bool) (hs : HS) (dst : Encoder) (r : rpcClientCodec CS Body),
    match client_loop src state (hs, dst, r) with
    | Finished _ (_, _, r') | Failed _ (_, _, r') _ =>
        r' = cc_set_ciphers r (cc_enc r') (cc_dec r')
    | LoopPanics _ => True
    end.
Proof.
  induction src as [| f rest IH]; intros state hs dst r;
    rewrite client_loop_equation; unfold DecodeOpaque;
    destruct state; unfold client_write_step, client_read_step;
    repeat match goal with
      | |- context [WriteMessage ?h ?p] =>
          destruct (WriteMessage h p) as [? [[? ?] ?]]
      | |- context [ReadMessage ?h ?p] =>
          destruct (ReadMessage h p) as [? [[[? ?] ?] ?]]
      | |- context [EncodeOpaque ?d ?b] =>
          destruct (EncodeOpaque d b) as [? ?]
      | |- context [match ?o with Some _ => _ | None => _ end] =>
          destruct o; simpl
      end;
    simpl; try reflexivity; try (destruct r; reflexivity);
    match goal with
    | |- context [client_loop rest true (?h, ?d, ?r0)] =>
        specialize (IH true h d r0);
        destruct (client_loop rest true (h, d, r0))
          as [? [[? ?] ?] | ? [[? ?] ?] ? | ?];
        simpl in *; assumption
    end.
Qed.

Lemma server_loop_only_ciphers (src : Decoder) :
  forall (state : bool) (hs : HS) (dst : Encoder) (r : rpcServerCodec CS Body),
    match server_loop src state (hs, dst, r) with
    | Finished _ (_, _, r') | Failed _ (_, _, r') _ =>
        r' = sc_set_ciphers r (sc_enc r') (sc_dec r')
    | LoopPanics _ => True
    end.
Proof.
  induction src as [| f rest IH]; intros state hs dst r;
    rewrite server_loop_equation; unfold DecodeOpaque;
    destruct state; unfold server_write_step, server_read_step;
    repeat match goal with
      | |- context [WriteMessage ?h ?p] =>
          destruct (WriteMessage h p) as [? [[? ?] ?]]
      | |- context [ReadMessage ?h ?p] =>
          destruct (ReadMessage h p) as [? [[[? ?] ?] ?]]
      | |- context [EncodeOpaque ?d ?b] =>
          destruct (EncodeOpaque d b) as [? ?]
      | |- context [match ?o with Some _ => _ | None => _ end] =>
          destruct o; simpl
      end;
    simpl; try reflexivity; try (destruct r; reflexivity);
    match goal with
    | |- context [server_loop rest true (?h, ?d, ?r0)] =>
        specialize (IH true h d r0);
        destruct (server_loop rest true (h, d, r0))
          as [? [[? ?] ?] | ? [[? ?] ?] ? | ?];
        simpl in *; assumption
    end.
Qed.

Lemma bound_client_has_no_transport
    (encode : Request -> Body -> bytes * option error)
    (decode : bytes -> Response -> option error * Response * closure Body)
    (src src' : Decoder) (dst dst' : Encoder) (nc : Config)
    (r : rpcClientCodec CS Body) (err : option error) :
  rpcClientCodec_handshake (bind_client Body encode decode) src dst nc =
  Returns (r, src', dst', err) ->
  cc_src r = None /\ cc_dst r = None /\
  cc_encode r = Some encode /\ cc_decode r = Some decode /\
  (forall resp : Response,
      rpcClientCodec_ReadResponseHeader r resp = Panics NilDereference) /\
  (forall i : Body,
      rpcClientCodec_ReadResponseBody r i = Panics NilDereference) /\
  (forall (req : Request) (i : Body),
      rpcClientCodec_WriteRequest r req i = Panics NilDereference \/
      exists (b : bytes) (e : error),
        encode req i = (b, Some e) /\
        rpcClientCodec_WriteRequest r req i = Returns (r, Some e)).
Proof.
  unfold rpcClientCodec_handshake.
  pose proof (client_loop_only_ciphers src (Initiator nc)
                (NewHandshakeState nc) dst (bind_client Body encode decode))
    as Hk.
  destruct (client_loop _ _ _) as [s [[h d0] r0] | s [[h d0] r0] e | x];
    intros Hn; inversion Hn; subst.
  all: rewrite Hk; simpl.
  all: repeat split; try reflexivity.
  all: intros req i; unfold rpcClientCodec_WriteRequest; simpl.
  all: destruct (encode req i) as [b [e' |]];
    [right; exists b, e'; split; reflexivity |].
  all: left; destruct (cc_enc r); [destruct (Encrypt _ _) |]; reflexivity.
Qed.

Lemma bound_server_has_no_transport
    (encode : Response -> Body -> bytes * option error)
    (decode : bytes -> Request -> option error * Request * closure Body)
    (src src' : Decoder) (dst dst' : Encoder) (nc : Config)
    (r : rpcServerCodec CS Body) (err : option error) :
  rpcServerCodec_handshake (bind_server Body encode decode) src dst nc =
  Returns (r, src', dst', err) ->
  sc_src r = None /\ sc_dst r = None /\
  sc_encode r = Some encode /\ sc_decode r = Some decode /\
  (forall req : Request,
      rpcServerCodec_ReadRequestHeader r req = Panics NilDereference) /\
  (forall i : Body,
      rpcServerCodec_ReadRequestBody r i = Panics NilDereference) /\
  (forall (resp : Response) (i : Body),
      rpcServerCodec_WriteResponse r resp i = Panics NilDereference \/
      exists (b : bytes) (e : error),
        encode resp i = (b, Some e) /\
        rpcServerCodec_WriteResponse r resp i = Returns (r, Some e)).
Proof.
  unfold rpcServerCodec_handshake.
  pose proof (server_loop_only_ciphers src (Initiator nc)
                (NewHandshakeState nc) dst (bind_server Body encode decode))
    as Hk.
  destruct (server_loop _ _ _) as [s [[h d0] r0] | s [[h d0] r0] e | x];
    intros Hn; inversion Hn; subst.
  all: rewrite Hk; simpl.
  all: repeat split; try reflexivity.
  all: intros resp i; unfold rpcServerCodec_WriteResponse; simpl.
  all: destruct (encode resp i) as [b [e' |]];
    [right; exists b, e'; split; reflexivity |].
  all: left; destruct (sc_enc r); [destruct (Encrypt _ _) |]; reflexivity.
Qed.

(** X8: whenever one of the four constructors returns a codec, with or
    without an error from the handshake, that codec has its [encode] and
    [decode] functions bound but neither [src] nor [dst]: the handshake
    ran on the transport passed in, and the codec's own transport fields
    stay nil.  On such a codec reading a header or a body dereferences
    nil, and writing either returns the error of [encode], with the codec
    unchanged, or dereferences nil; no call is ever sent. *)
Theorem constructors_attach_no_transport (xdr gob : Serializer Body) :
  (forall (src src' : Decoder) (dst dst' : Encoder) (nc : Config)
          (r : rpcClientCodec CS Body) (err : option error),
      NewRpcClient xdr src dst nc = Returns (r, src', dst', err) ->
      cc_src r = None /\ cc_dst r = None /\
      cc_encode r = Some (xdrEncReq xdr) /\
      cc_decode r = Some (xdrDecResp xdr) /\
      (forall resp : Response,
          rpcClientCodec_ReadResponseHeader r resp = Panics NilDereference) /\
      (forall i : Body,
          rpcClientCodec_ReadResponseBody r i = Panics NilDereference) /\
      (forall (req : Request) (i : Body),
          rpcClientCodec_WriteRequest r req i = Panics NilDereference \/
          exists (b : bytes) (e : error),
            xdrEncReq xdr req i = (b, Some e) /\
            rpcClientCodec_WriteRequest r req i = Returns (r, Some e))) /\
  (forall (src src' : Decoder) (dst dst' : Encoder) (nc : Config)
          (r : rpcServerCodec CS Body) (err : option error),
      NewRpcSource xdr src dst nc = Returns (r, src', dst', err) ->
      sc_src r = None /\ sc_dst r = None /\
      sc_encode r = Some (xdrEncResp xdr) /\
      sc_decode r = Some (xdrDecReq xdr) /\
      (forall req : Request,
          rpcServerCodec_ReadRequestHeader r req = Panics NilDereference) /\
      (forall i : Body,
          rpcServerCodec_ReadRequestBody r i = Panics NilDereference) /\
      (forall (resp : Response) (i : Body),
          rpcServerCodec_WriteResponse r resp i = Panics NilDereference \/
          exists (b : bytes) (e : error),
            xdrEncResp xdr resp i = (b, Some e) /\
            rpcServerCodec_WriteResponse r resp i = Returns (r, Some e))) /\
  (forall (src src' : Decoder) (dst dst' : Encoder) (nc : Config)
          (r : rpcClientCodec CS Body) (err : option error),
      NewGobRpcClient gob src dst nc = Returns (r, src', dst', err) ->
      cc_src r = None /\ cc_dst r = None /\
      cc_encode r = Some (gobEncReq gob) /\
      cc_decode r = Some (gobDecResp gob) /\
      (forall resp : Response,
          rpcClientCodec_ReadResponseHeader r resp = Panics NilDereference) /\
      (forall i : Body,
          rpcClientCodec_ReadResponseBody r i = Panics NilDereference) /\
      (forall (req : Request) (i : Body),
          rpcClientCodec_WriteRequest r req i = Panics NilDereference \/
          exists (b : bytes) (e : error),
            gobEncReq gob req i = (b, Some e) /\
            rpcClientCodec_WriteRequest r req i = Returns (r, Some e))) /\
  (forall (src src' : Decoder) (dst dst' : Encoder) (nc : Config)
          (r : rpcServerCodec CS Body) (err : option error),
      NewGobRpcSource gob src dst nc = Returns (r, src', dst', err) ->
      sc_src r = None /\ sc_dst r = None /\
      sc_encode r = Some (gobEncResp gob) /\
      sc_decode r = Some (gobDecReq gob) /\
      (forall req : Request,
          rpcServerCodec_ReadRequestHeader r req = Panics NilDereference) /\
      (forall i : Body,
          rpcServerCodec_ReadRequestBody r i = Panics NilDereference) /\
      (forall (resp : Response) (i : Body),
          rpcServerCodec_WriteResponse r resp i = Panics NilDereference \/
          exists (b : bytes) (e : error),
            gobEncResp gob resp i = (b, Some e) /\
            rpcServerCodec_WriteResponse r resp i = Returns (r, Some e))).
Proof.
  unfold NewRpcClient, NewRpcSource, NewGobRpcClient, NewGobRpcSource.
  split; [| split; [| split]];
    intros src src' dst dst' nc r err Hn.
  - apply (bound_client_has_no_transport _ _ src src' dst dst' nc r err Hn).
  - apply (bound_server_has_no_transport _ _ src src' dst dst' nc r err Hn).
  - apply (bound_client_has_no_transport _ _ src src' dst dst' nc r err Hn).
  - apply (bound_server_has_no_transport _ _ src src' dst dst' nc r err Hn).
Qed.

End Constructed.

Lemma constructors_attach_no_transport_witness :
  (forall resp : Response,
      rpcClientCodec_ReadResponseHeader (H := Toy.cipher)
        (mkClientCodec None None (Some (1%nat, 0%nat)) (Some (2%nat, 0%nat))
           (Some (xdrEncReq Toy.serializer))
           (Some (xdrDecResp Toy.serializer)) None) resp =
      Panics NilDereference) /\
  (forall req : Request,
      rpcServerCodec_ReadRequestHeader (H := Toy.cipher)
        (mkServerCodec None None (Some (2%nat, 0%nat)) (Some (1%nat, 0%nat))
           (Some (xdrEncResp Toy.serializer))
           (Some (xdrDecReq Toy.serializer)) None) req =
      Panics NilDereference) /\
  (forall i : bytes,
      rpcClientCodec_ReadResponseBody
        (mkClientCodec None None (Some (1%nat, 0%nat)) (Some (2%nat, 0%nat))
           (Some (gobEncReq Toy.serializer))
           (Some (gobDecResp Toy.serializer)) None) i =
      Panics NilDereference) /\
  (sc_src (mkServerCodec (CS := Toy.cipher_state) None None None None
             (Some (gobEncResp Toy.serializer))
             (Some (gobDecReq Toy.serializer)) None) = None /\
   sc_dst (mkServerCodec (CS := Toy.cipher_state) None None None None
             (Some (gobEncResp Toy.serializer))
             (Some (gobDecReq Toy.serializer)) None) = None).
Proof.
  pose proof (@constructors_attach_no_transport Toy.handshake_state
                Toy.cipher_state Toy.cipher Toy.engine bytes
                Toy.serializer Toy.serializer) as (Hxc & Hxs & Hgc & Hgs).
  split; [| split; [| split]].
  - destruct (Hxc [] [] Toy.wire {| sent := [[]]; quota := 999 |}
                (Toy.config 1 true)
                (mkClientCodec None None (Some (1%nat, 0%nat))
                   (Some (2%nat, 0%nat)) (Some (xdrEncReq Toy.serializer))
                   (Some (xdrDecResp Toy.serializer)) None)
                None eq_refl) as (_ & _ & _ & _ & Hh & _).
    exact Hh.
  - destruct (Hxs [[]] [] Toy.wire Toy.wire (Toy.config 1 false)
                (mkServerCodec None None (Some (2%nat, 0%nat))
                   (Some (1%nat, 0%nat)) (Some (xdrEncResp Toy.serializer))
                   (Some (xdrDecReq Toy.serializer)) None)
                None eq_refl) as (_ & _ & _ & _ & Hh & _).
    exact Hh.
  - destruct (Hgc [] [] Toy.wire {| sent := [[]]; quota := 999 |}
                (Toy.config 1 true)
                (mkClientCodec None None (Some (1%nat, 0%nat))
                   (Some (2%nat, 0%nat)) (Some (gobEncReq Toy.serializer))
                   (Some (gobDecResp Toy.serializer)) None)
                None eq_refl) as (_ & _ & _ & _ & _ & Hb & _).
    exact Hb.
  - destruct (Hgs [] [] Toy.wire Toy.wire (Toy.config 1 false)
                (mkServerCodec None None None None
                   (Some (gobEncResp Toy.serializer))
                   (Some (gobDecReq Toy.serializer)) None)
                (Some (ErrTransport 0)) eq_refl) as (Hs & Hd & _).
    split; assumption.
Defined.

(** ** A call through constructed codecs *)

(** What the four encode functions return, read off the serializer: the
    two encodings one after the other when both succeed, and no bytes
    with the first error otherwise. *)
Lemma encode_follows_marshal (Body : Type) (S : Serializer Body) :
  (forall (r : Request) (i : Body),
      xdrEncReq S r i =
      match marshal S KRequest (enc_new S) r with
      | (_, (_, Some e)) => ([], Some e)
      | (es, (w1, None)) =>
          match marshal S KBody es i with
          | (_, (_, Some e)) => ([], Some e)
          | (_, (w2, None)) => (w1 ++ w2, None)
          end
      end /\
      gobEncReq S r i = xdrEncReq S r i) /\
  (forall (r : Response) (i : Body),
      xdrEncResp S r i =
      match marshal S KResponse (enc_new S) r with
      | (_, (_, Some e)) => ([], Some e)
      | (es, (w1, None)) =>
          match marshal S KBody es i with
          | (_, (_, Some e)) => ([], Some e)
          | (_, (w2, None)) => (w1 ++ w2, None)
          end
      end /\
      gobEncResp S r i = xdrEncResp S r i).
Proof.
  split; intros r i; (split; [| reflexivity]).
  - unfold xdrEncReq, Encode, NewEncoder, Buffer.empty, Buffer.Write.
    destruct (marshal S KRequest (enc_new S) r) as [es [w1 [e |]]];
      [reflexivity |].
    destruct (marshal S KBody es i) as [es2 [w2 [e |]]]; reflexivity.
  - unfold xdrEncResp, Encode, NewEncoder, Buffer.empty, Buffer.Write.
    destruct (marshal S KResponse (enc_new S) r) as [es [w1 [e |]]];
      [reflexivity |].
    destruct (marshal S KBody es i) as [es2 [w2 [e |]]]; reflexivity.
Qed.

(** C5 (evaluation at the failing input): a client codec and a server
    codec built by [NewRpcClient] and [NewRpcSource], and by
    [NewGobRpcClient] and [NewGobRpcSource], complete their handshakes
    against each other without error.  Under both bindings the envelope
    of a call and the envelope of a reply are encoded without error and
    decode to the same header and value.  But neither crosses: on the
    client codec [WriteRequest] dereferences nil, on the server codec
    [ReadRequestHeader] and [WriteResponse] dereference nil, and so does
    [ReadResponseHeader] on the client codec, because the constructors
    leave [src] and [dst] nil. *)
Theorem constructed_codecs_carry_no_call :
  exists (rc rcg : rpcClientCodec Toy.cipher_state bytes)
         (rs rsg : rpcServerCodec Toy.cipher_state bytes)
         (dC : Encoder) (k1 k1' k2 k2' k3 k3' k4 k4' : closure bytes),
    NewRpcClient (H0 := Toy.engine) Toy.serializer [] Toy.wire
      (Toy.config 1 true) = Returns (rc, [], dC, None) /\
    NewRpcSource (H0 := Toy.engine) Toy.serializer (sent dC) Toy.wire
      (Toy.config 1 false) = Returns (rs, [], Toy.wire, None) /\
    NewGobRpcClient (H0 := Toy.engine) Toy.serializer [] Toy.wire
      (Toy.config 1 true) = Returns (rcg, [], dC, None) /\
    NewGobRpcSource (H0 := Toy.engine) Toy.serializer (sent dC) Toy.wire
      (Toy.config 1 false) = Returns (rsg, [], Toy.wire, None) /\
    (cc_encode rc = Some (xdrEncReq Toy.serializer) /\
     cc_decode rc = Some (xdrDecResp Toy.serializer) /\
     sc_encode rs = Some (xdrEncResp Toy.serializer) /\
     sc_decode rs = Some (xdrDecReq Toy.serializer) /\
     cc_encode rcg = Some (gobEncReq Toy.serializer) /\
     cc_decode rcg = Some (gobDecResp Toy.serializer) /\
     sc_encode rsg = Some (gobEncResp Toy.serializer) /\
     sc_decode rsg = Some (gobDecReq Toy.serializer)) /\
    (xdrEncReq Toy.serializer (mkRequest String.EmptyString 7) [Byte.x41] =
     ([Byte.x00; Byte.x07; Byte.x01; Byte.x41], None) /\
     xdrDecReq Toy.serializer [Byte.x00; Byte.x07; Byte.x01; Byte.x41]
       (mkRequest String.EmptyString 0) =
     (None, mkRequest String.EmptyString 7, k1) /\
     call_closure k1 [] = (k1', ([Byte.x41], None)) /\
     xdrEncResp Toy.serializer
       (mkResponse String.EmptyString 7 String.EmptyString) [Byte.x42] =
     ([Byte.x00; Byte.x07; Byte.x00; Byte.x01; Byte.x42], None) /\
     xdrDecResp Toy.serializer
       [Byte.x00; Byte.x07; Byte.x00; Byte.x01; Byte.x42]
       (mkResponse String.EmptyString 0 String.EmptyString) =
     (None, mkResponse String.EmptyString 7 String.EmptyString, k2) /\
     call_closure k2 [] = (k2', ([Byte.x42], None)) /\
     gobEncReq Toy.serializer (mkRequest String.EmptyString 7) [Byte.x41] =
     ([Byte.x00; Byte.x07; Byte.x01; Byte.x41], None) /\
     gobDecReq Toy.serializer [Byte.x00; Byte.x07; Byte.x01; Byte.x41]
       (mkRequest String.EmptyString 0) =
     (None, mkRequest String.EmptyString 7, k3) /\
     call_closure k3 [] = (k3', ([Byte.x41], None)) /\
     gobEncResp Toy.serializer
       (mkResponse String.EmptyString 7 String.EmptyString) [Byte.x42] =
     ([Byte.x00; Byte.x07; Byte.x00; Byte.x01; Byte.x42], None) /\
     gobDecResp Toy.serializer
       [Byte.x00; Byte.x07; Byte.x00; Byte.x01; Byte.x42]
       (mkResponse String.EmptyString 0 String.EmptyString) =
     (None, mkResponse String.EmptyString 7 String.EmptyString, k4) /\
     call_closure k4 [] = (k4', ([Byte.x42], None))) /\
    rpcClientCodec_WriteRequest (H := Toy.cipher) rc
      (mkRequest String.EmptyString 7) [Byte.x41] = Panics NilDereference /\
    rpcServerCodec_ReadRequestHeader (H := Toy.cipher) rs
      (mkRequest String.EmptyString 0) = Panics NilDereference /\
    rpcServerCodec_WriteResponse (H := Toy.cipher) rs
      (mkResponse String.EmptyString 7 String.EmptyString) [Byte.x42] =
    Panics NilDereference /\
    rpcClientCodec_ReadResponseHeader (H := Toy.cipher) rc
      (mkResponse String.EmptyString 0 String.EmptyString) =
    Panics NilDereference /\
    rpcClientCodec_WriteRequest (H := Toy.cipher) rcg
      (mkRequest String.EmptyString 7) [Byte.x41] = Panics NilDereference /\
    rpcServerCodec_ReadRequestHeader (H := Toy.cipher) rsg
      (mkRequest String.EmptyString 0) = Panics NilDereference /\
    rpcServerCodec_WriteResponse (H := Toy.cipher) rsg
      (mkResponse String.EmptyString 7 String.EmptyString) [Byte.x42] =
    Panics NilDereference /\
    rpcClientCodec_ReadResponseHeader (H := Toy.cipher) rcg
      (mkResponse String.EmptyString 0 String.EmptyString) =
    Panics NilDereference.
Proof.
  eexists _, _, _, _, _. eexists _, _, _, _, _, _, _, _.
  split; [reflexivity |]. split; [reflexivity |].
  split; [reflexivity |]. split; [reflexivity |].
  split; [repeat split |].
  split; [repeat split; reflexivity |].
  repeat split; reflexivity.
Qed.
